(** * Client.js: session lifecycle of the client, embedded in Rocq.

    The file follows src/Client.js: the shard normalisation and option
    validation of the constructor, the three login entry points, teardown
    ([destroy], [logout]), the remote-auth handshake and the one-time code
    redemption loop.

    Conventions of the embedding.
    - A JavaScript value is a [JsValue]; an object read by property name
      (the options bag) is a total map from names to values, an absent
      property reading as [JsUndefined].
    - A JavaScript number is a [JsNum]: NaN, the two infinities, an integer
      [Int z], or a finite non-integer [NonInt fl fr] lying strictly between
      [fl] and [fl + 1] ([fr] only tells two such numbers apart).  The code
      classifies and compares numbers, it never does arithmetic on them.
      Negative zero is identified with [Int 0]: it passes every test below
      as 0 does and a Set stores it as +0.
    - A string is a [string] of 8-bit characters (code units below 256).
    - An [async] method is a computation in the monad [M]: it reads the
      responses of the outside world from an [Env], threads the client
      state, and either returns a value or throws an error: this is the
      method run from its call to its end.  [redeemNitro] is moreover cut
      at its awaits, for calls on one client that overlap. *)

From Stdlib Require Import ZArith List String Ascii Bool Lia PeanoNat.
Import ListNotations.
Local Open Scope string_scope.
Local Open Scope Z_scope.
Set Warnings "-register-all".

(** ** JavaScript values *)

Inductive JsNum : Type :=
| NaN
| PosInf
| NegInf
| Int (z : Z)
| NonInt (fl : Z) (fr : positive).

Inductive JsValue : Type :=
| JsUndefined
| JsNull
| JsBool (b : bool)
| JsNumber (n : JsNum)
| JsString (s : string)
| JsFunction
| JsObject
| JsArray (items : list JsValue).

Inductive JsType : Type :=
| TUndefined | TObject | TBoolean | TNumber | TString | TFunction.

Definition typeof (v : JsValue) : JsType :=
  match v with
  | JsUndefined => TUndefined
  | JsNull => TObject
  | JsBool _ => TBoolean
  | JsNumber _ => TNumber
  | JsString _ => TString
  | JsFunction => TFunction
  | JsObject => TObject
  | JsArray _ => TObject
  end.

Definition JsType_eqb (a b : JsType) : bool :=
  match a, b with
  | TUndefined, TUndefined | TObject, TObject | TBoolean, TBoolean
  | TNumber, TNumber | TString, TString | TFunction, TFunction => true
  | _, _ => false
  end.

Definition num_eqb (a b : JsNum) : bool :=
  match a, b with
  | PosInf, PosInf => true
  | NegInf, NegInf => true
  | Int x, Int y => x =? y
  | NonInt x p, NonInt y q => (x =? y) && (p =? q)%positive
  | _, _ => false
  end.

(** [x === y].  Two arrays, objects or functions are equal only when they are
    the same reference; the values compared below come from two separate
    allocations, so the comparison is [false] for them. *)
Definition strict_eq (a b : JsValue) : bool :=
  match a, b with
  | JsUndefined, JsUndefined => true
  | JsNull, JsNull => true
  | JsBool x, JsBool y => Bool.eqb x y
  | JsNumber x, JsNumber y => num_eqb x y
  | JsString x, JsString y => String.eqb x y
  | _, _ => false
  end.

(** SameValueZero, the equality of [Set] and of [Array.prototype.includes]:
    as [===], but NaN equals NaN. *)
Definition SameValueZero (a b : JsValue) : bool :=
  match a, b with
  | JsNumber NaN, JsNumber NaN => true
  | _, _ => strict_eq a b
  end.

(** ToBoolean. *)
Definition truthy (v : JsValue) : bool :=
  match v with
  | JsUndefined | JsNull => false
  | JsBool b => b
  | JsNumber NaN => false
  | JsNumber (Int z) => negb (z =? 0)
  | JsNumber _ => true
  | JsString s => negb (String.eqb s "")
  | JsFunction | JsObject | JsArray _ => true
  end.

Definition isArray (v : JsValue) : bool :=
  match v with JsArray _ => true | _ => false end.

Definition num_isNaN (n : JsNum) : bool :=
  match n with NaN => true | _ => false end.

(** [n >= 0], [n < Infinity], [n < 1], [n > 0] on numbers. *)
Definition num_ge0 (n : JsNum) : bool :=
  match n with
  | NaN | NegInf => false
  | PosInf => true
  | Int z => 0 <=? z
  | NonInt fl _ => 0 <=? fl
  end.

Definition num_lt_Infinity (n : JsNum) : bool :=
  match n with
  | NaN | PosInf => false
  | NegInf | Int _ | NonInt _ _ => true
  end.

Definition num_lt1 (n : JsNum) : bool :=
  match n with
  | NaN | PosInf => false
  | NegInf => true
  | Int z => z <? 1
  | NonInt fl _ => fl <? 1
  end.

Definition num_gt0 (n : JsNum) : bool :=
  match n with
  | NaN | NegInf => false
  | PosInf => true
  | Int z => 0 <? z
  | NonInt fl _ => 0 <=? fl
  end.

(** ToInt32, the conversion behind [item | 0]: truncate toward zero, then
    wrap modulo 2^32 into the signed range. *)
Definition wrap32 (z : Z) : Z :=
  let m := z mod 4294967296 in
  if 2147483648 <=? m then m - 4294967296 else m.

Definition ToInt32 (n : JsNum) : Z :=
  match n with
  | NaN | PosInf | NegInf => 0
  | Int z => wrap32 z
  | NonInt fl _ => wrap32 (if 0 <=? fl then fl else fl + 1)
  end.

(** ** Errors and results *)

Inductive ErrorClass : Type :=
| ClsError | ClsTypeError | ClsRangeError | ClsSyntaxError.

Record JsError : Type := mkError {
  err_class : ErrorClass;
  err_code : string;
  err_args : list string
}.

Inductive Res (A : Type) : Type :=
| Ok (a : A)
| Throw (e : JsError).
Arguments Ok {A} a.
Arguments Throw {A} e.

(** ** The shard plan (constructor, lines 58-89) *)

(** The callback of [this.options.shards.filter]:
    [!isNaN(item) && item >= 0 && item < Infinity && item === (item | 0)].
    The last conjunct compares [item] with a number by [===], so a value that
    is not a number fails it whatever the first three give. *)
Definition shard_filter (item : JsValue) : bool :=
  match item with
  | JsNumber n =>
      negb (num_isNaN n) && num_ge0 n && num_lt_Infinity n
      && num_eqb n (Int (ToInt32 n))
  | _ => false
  end.

(** [new Set(array)] followed by the spread [[...set]]: the elements are added
    one by one, an element already present (SameValueZero) is not added
    again, and the Set is read back in insertion order. *)
Definition Set_has (s : list JsValue) (x : JsValue) : bool :=
  existsb (SameValueZero x) s.

Definition Set_add (s : list JsValue) (x : JsValue) : list JsValue :=
  if Set_has s x then s else s ++ [x].

Definition Set_of (l : list JsValue) : list JsValue :=
  fold_left Set_add l [].

(** Lines 83-89 on an array. *)
Definition normalizeShardList (items : list JsValue) : list JsValue :=
  Set_of (filter shard_filter items).

(** ** Options

    [this.options] is read by property name; an absent property is
    [undefined]. *)

Definition Options : Type := string -> JsValue.

Definition set_opt (o : Options) (k : string) (v : JsValue) : Options :=
  fun k' => if String.eqb k k' then v else o k'.

(** [process.env] (or [workerData]) as the constructor reads it: whether the
    key SHARDS is there, with what [JSON.parse] makes of it, and whether the
    key SHARD_COUNT is there, with what [Number] makes of it. *)
Record EnvData : Type := mkEnvData {
  data_SHARDS : option (Res JsValue);
  data_SHARD_COUNT : option JsNum;
  env_DISCORD_TOKEN : option string
}.

(** ToLength of a number. *)
Definition ToLength (n : JsNum) : Z :=
  match n with
  | NaN | NegInf => 0
  | PosInf => 9007199254740991
  | Int z => Z.min (Z.max z 0) 9007199254740991
  | NonInt fl _ => Z.min (Z.max (if 0 <=? fl then fl else fl + 1) 0) 9007199254740991
  end.

(** [Array.from({ length: n }, (_, i) => i)]: the array [0, 1, ..., len-1];
    a length above 2^32 - 1 is refused with a RangeError. *)
Definition Array_from_length (n : JsNum) : Res (list JsValue) :=
  let len := ToLength n in
  if 4294967295 <? len
  then Throw (mkError ClsRangeError "Invalid array length" [])
  else Ok (map (fun i => JsNumber (Int (Z.of_nat i))) (seq 0 (Z.to_nat len))).

Definition array_length (v : JsValue) : Z :=
  match v with
  | JsArray l => Z.of_nat (List.length l)
  | JsString s => Z.of_nat (String.length s)
  | _ => 0
  end.

(** Lines 58-89 of the constructor.  [defaults] is the object that
    [Options.createDefault()] returns. *)
Definition resolveShards (data : EnvData) (defaults : Options) (o : Options)
  : Res Options :=
  (* if (this.options.shards === defaults.shards) ... JSON.parse(data.SHARDS) *)
  let step1 : Res Options :=
    if strict_eq (o "shards") (defaults "shards") then
      match data_SHARDS data with
      | Some (Ok v) => Ok (set_opt o "shards" v)
      | Some (Throw e) => Throw e
      | None => Ok o
      end
    else Ok o in
  match step1 with
  | Throw e => Throw e
  | Ok o1 =>
    (* if (this.options.shardCount === defaults.shardCount) ... *)
    let o2 :=
      if strict_eq (o1 "shardCount") (defaults "shardCount") then
        match data_SHARD_COUNT data with
        | Some n => set_opt o1 "shardCount" (JsNumber n)
        | None =>
            if isArray (o1 "shards")
            then set_opt o1 "shardCount" (JsNumber (Int (array_length (o1 "shards"))))
            else o1
        end
      else o1 in
    let typeofShards := typeof (o2 "shards") in
    (* Array.from({ length: this.options.shardCount }, (_, i) => i) *)
    let step3 : Res Options :=
      match typeofShards, o2 "shardCount" with
      | TUndefined, JsNumber n =>
          match Array_from_length n with
          | Ok l => Ok (set_opt o2 "shards" (JsArray l))
          | Throw e => Throw e
          end
      | _, _ => Ok o2
      end in
    match step3 with
    | Throw e => Throw e
    | Ok o3 =>
      (* if (typeofShards === 'number') this.options.shards = [this.options.shards] *)
      let o4 :=
        if JsType_eqb typeofShards TNumber
        then set_opt o3 "shards" (JsArray [o3 "shards"])
        else o3 in
      (* if (Array.isArray(this.options.shards)) ... [...new Set(filter)] *)
      let o5 :=
        match o4 "shards" with
        | JsArray l => set_opt o4 "shards" (JsArray (normalizeShardList l))
        | _ => o4
        end in
      Ok o5
    end
  end.

(** ** _validateOptions (lines 1013-1130) *)

Definition invalid_option (name expected : string) : JsError :=
  mkError ClsTypeError "CLIENT_INVALID_OPTION" [name; expected].

Definition is_type (t : JsType) (v : JsValue) : bool := JsType_eqb (typeof v) t.

(** [typeof v !== 'number' || isNaN(v)] *)
Definition not_a_number (v : JsValue) : bool :=
  match v with
  | JsNumber n => num_isNaN n
  | _ => true
  end.

Definition string_length_is (v : JsValue) (n : nat) : bool :=
  match v with
  | JsString s => Nat.eqb (String.length s) n
  | _ => false
  end.

Section Validate.

(** What the method takes from other modules: [Intents.resolve], the
    constant [captchaServices] of util/Constants, and whether
    [testImportModule('proxy-agent')] is [false]. *)
Variable Intents_resolve : JsValue -> Res JsValue.
Variable captchaServices : list string.
Variable proxy_agent_missing : bool.

Definition captcha_known (v : JsValue) : bool :=
  existsb (fun s => SameValueZero (JsString s) v) captchaServices.

(** The checks in the order of the source; the first that fails throws. *)
Fixpoint first_failure (checks : list (bool * JsError)) : option JsError :=
  match checks with
  | [] => None
  | (true, e) :: _ => Some e
  | (false, _) :: rest => first_failure rest
  end.

Definition checks_before_shards (o : Options) : list (bool * JsError) :=
  [ (negb (is_type TBoolean (o "checkUpdate")), invalid_option "checkUpdate" "a boolean");
    (negb (is_type TBoolean (o "syncStatus")), invalid_option "syncStatus" "a boolean");
    (negb (is_type TBoolean (o "autoRedeemNitro")), invalid_option "autoRedeemNitro" "a boolean");
    (truthy (o "captchaService") && negb (captcha_known (o "captchaService")),
     invalid_option "captchaService" (String.concat ", " captchaServices));
    (captcha_known (o "captchaService")
     && negb (strict_eq (o "captchaService") (JsString "custom"))
     && negb (is_type TString (o "captchaKey")),
     invalid_option "captchaKey" "a string");
    (captcha_known (o "captchaService")
     && negb (strict_eq (o "captchaService") (JsString "custom"))
     && strict_eq (o "captchaService") (JsString "2captcha")
     && negb (string_length_is (o "captchaKey") 32),
     invalid_option "captchaKey" "a 32 character string");
    (negb (is_type TFunction (o "captchaSolver")), invalid_option "captchaSolver" "a function");
    (negb (is_type TBoolean (o "DMSync")), invalid_option "DMSync" "a boolean");
    (negb (is_type TBoolean (o "patchVoice")), invalid_option "patchVoice" "a boolean");
    (truthy (o "password") && negb (is_type TString (o "password")),
     invalid_option "password" "a string");
    (truthy (o "usingNewAttachmentAPI") && negb (is_type TBoolean (o "usingNewAttachmentAPI")),
     invalid_option "usingNewAttachmentAPI" "a boolean");
    (truthy (o "interactionTimeout") && negb (is_type TNumber (o "interactionTimeout")),
     invalid_option "interactionTimeout" "a number");
    (negb (is_type TString (o "proxy")), invalid_option "proxy" "a string");
    (truthy (o "proxy") && is_type TString (o "proxy") && proxy_agent_missing,
     mkError ClsError "MISSING_MODULE" ["proxy-agent"; "npm install proxy-agent"]) ].

(** Lines 1072-1078. *)
Definition checks_shards (o : Options) : list (bool * JsError) :=
  [ (match o "shardCount" with
     | JsNumber n => num_isNaN n || num_lt1 n
     | _ => true
     end,
     invalid_option "shardCount" "a number greater than or equal to 1");
    (truthy (o "shards")
     && negb (strict_eq (o "shards") (JsString "auto") || isArray (o "shards")),
     invalid_option "shards" "'auto', a number or array of numbers");
    (truthy (o "shards") && (array_length (o "shards") =? 0),
     mkError ClsRangeError "CLIENT_INVALID_PROVIDED_SHARDS" []) ].

Definition number_option (o : Options) (name label : string) : bool * JsError :=
  (not_a_number (o name), invalid_option label "a number").

Definition checks_after_shards (o : Options) : list (bool * JsError) :=
  [ (negb (is_type TFunction (o "makeCache")), invalid_option "makeCache" "a function");
    number_option o "messageCacheLifetime" "The messageCacheLifetime";
    number_option o "messageSweepInterval" "messageSweepInterval";
    (negb (is_type TObject (o "sweepers")) || strict_eq (o "sweepers") JsNull,
     invalid_option "sweepers" "an object");
    number_option o "invalidRequestWarningInterval" "invalidRequestWarningInterval";
    (negb (isArray (o "partials")), invalid_option "partials" "an Array");
    number_option o "waitGuildTimeout" "waitGuildTimeout";
    number_option o "messageCreateEventGuildTimeout" "messageCreateEventGuildTimeout";
    number_option o "restWsBridgeTimeout" "restWsBridgeTimeout";
    number_option o "restRequestTimeout" "restRequestTimeout";
    number_option o "restGlobalRateLimit" "restGlobalRateLimit";
    number_option o "restSweepInterval" "restSweepInterval";
    number_option o "retryLimit" "retryLimit";
    (negb (is_type TBoolean (o "failIfNotExists")), invalid_option "failIfNotExists" "a boolean");
    (negb (isArray (o "userAgentSuffix")), invalid_option "userAgentSuffix" "an array of strings");
    (negb (is_type TUndefined (o "rejectOnRateLimit"))
     && negb (is_type TFunction (o "rejectOnRateLimit") || isArray (o "rejectOnRateLimit")),
     invalid_option "rejectOnRateLimit" "an array or a function") ].

Definition _validateOptions (options : Options) : Res Options :=
  if is_type TUndefined (options "intents")
  then Throw (mkError ClsTypeError "CLIENT_MISSING_INTENTS" [])
  else
    match Intents_resolve (options "intents") with
    | Throw e => Throw e
    | Ok bits =>
        let o := set_opt options "intents" bits in
        match first_failure
                (checks_before_shards o ++ checks_shards o ++ checks_after_shards o)%list with
        | Some e => Throw e
        | None => Ok o
        end
    end.

End Validate.

(** ** Regular expressions of the source

    The patterns of the source are alternatives of fixed sequences of
    character classes, followed at most by one greedy repetition; they are
    matched here by a direct interpreter. *)

Inductive Atom : Type :=
| Lit (c : ascii)      (* a literal character *)
| AnyChar              (* [.] : any character but a line terminator *)
| Digit                (* [\d] *)
| LowerAlnum           (* [[a-z0-9]] *)
| Word.                (* [\w] *)

Definition between (lo hi : nat) (c : ascii) : bool :=
  let n := nat_of_ascii c in (Nat.leb lo n && Nat.leb n hi)%bool.

Definition is_digit (c : ascii) : bool := between 48 57 c.
Definition is_lower (c : ascii) : bool := between 97 122 c.
Definition is_upper (c : ascii) : bool := between 65 90 c.
Definition is_word (c : ascii) : bool :=
  is_digit c || is_lower c || is_upper c || Ascii.eqb c "_"%char.

(** [\s] among the code units below 256: tab, line feed, vertical tab, form
    feed, carriage return, space and the no-break space. *)
Definition is_space (c : ascii) : bool :=
  between 9 13 c || Ascii.eqb c " "%char || Nat.eqb (nat_of_ascii c) 160.

Definition is_line_terminator (c : ascii) : bool :=
  Nat.eqb (nat_of_ascii c) 10 || Nat.eqb (nat_of_ascii c) 13.

Definition to_lower (c : ascii) : ascii :=
  if is_upper c then ascii_of_nat (nat_of_ascii c + 32) else c.

(** [ci] is the flag [i]: letters are compared without their case. *)
Definition atom_matches (ci : bool) (a : Atom) (c : ascii) : bool :=
  match a with
  | Lit l => if ci then Ascii.eqb (to_lower l) (to_lower c) else Ascii.eqb l c
  | AnyChar => negb (is_line_terminator c)
  | Digit => is_digit c
  | LowerAlnum => is_lower c || is_digit c
  | Word => is_word c
  end.

Fixpoint lits (s : string) : list Atom :=
  match s with
  | EmptyString => []
  | String c s' => Lit c :: lits s'
  end.

(** Matches the atoms at the head of [s]; gives back what follows. *)
Fixpoint match_atoms (ci : bool) (atoms : list Atom) (s : string) : option string :=
  match atoms with
  | [] => Some s
  | a :: atoms' =>
      match s with
      | EmptyString => None
      | String c s' => if atom_matches ci a c then match_atoms ci atoms' s' else None
      end
  end.

(** An alternation followed by [k]: the alternatives are tried in order, and
    the next one is tried when [k] fails on what an alternative left. *)
Fixpoint match_alts (ci : bool) (alts : list (list Atom))
         (k : string -> option string) (s : string) : option string :=
  match alts with
  | [] => None
  | alt :: alts' =>
      match match_atoms ci alt s with
      | Some rest =>
          match k rest with
          | Some r => Some r
          | None => match_alts ci alts' k s
          end
      | None => match_alts ci alts' k s
      end
  end.

(** [RegExp.prototype.test] of a pattern without anchor on a fresh regex:
    is there a position where the pattern matches. *)
Fixpoint regex_test (m : string -> option string) (s : string) : bool :=
  match m s with
  | Some _ => true
  | None =>
      match s with
      | EmptyString => false
      | String _ s' => regex_test m s'
      end
  end.

(** Number of characters a match at the head of [s] consumed. *)
Definition match_length (m : string -> option string) (s : string) : option nat :=
  match m s with
  | Some rest => Some (String.length s - String.length rest)%nat
  | None => None
  end.

(** [String.prototype.match] with the flag [g]: every match from left to
    right, the search resuming where the previous match ended.  [skip] counts
    the characters of the current match still to pass. *)
Fixpoint match_all (m : string -> option string) (s : string) (skip : nat) : list string :=
  match s with
  | EmptyString => []
  | String _ s' =>
      match skip with
      | S k => match_all m s' k
      | O =>
          match match_length m s with
          | Some (S len) => substring 0 (S len) s :: match_all m s' len
          | _ => match_all m s' 0
          end
      end
  end.

(** [String.prototype.replace(regex, '')] with the flag [g]. *)
Fixpoint remove_all (m : string -> option string) (s : string) (skip : nat) : string :=
  match s with
  | EmptyString => EmptyString
  | String c s' =>
      match skip with
      | S k => remove_all m s' k
      | O =>
          match match_length m s with
          | Some (S len) => remove_all m s' len
          | _ => String c (remove_all m s' 0)
          end
      end
  end.

Fixpoint drop_while (p : ascii -> bool) (s : string) : string :=
  match s with
  | EmptyString => EmptyString
  | String c s' => if p c then drop_while p s' else s
  end.

Fixpoint take_while (p : ascii -> bool) (s : string) : nat :=
  match s with
  | EmptyString => O
  | String c s' => if p c then S (take_while p s') else O
  end.

Fixpoint drop (n : nat) (s : string) : string :=
  match n, s with
  | S n', String _ s' => drop n' s'
  | _, _ => s
  end.

(** [/^(Bot|Bearer)\s*/i], and [token.replace] of it by the empty string
    (line 331). *)
Definition scheme_prefix (s : string) : option string :=
  match_alts true [lits "Bot"; lits "Bearer"] (fun r => Some (drop_while is_space r)) s.

Definition strip_scheme (token : string) : string :=
  match scheme_prefix token with
  | Some rest => rest
  | None => token
  end.

(** [/(\d{6})/g] and [/([a-z0-9]{4})-([a-z0-9]{4})/g] (lines 395-396). *)
Definition normal2fa : string -> option string :=
  match_atoms false (repeat Digit 6).

Definition backupCode : string -> option string :=
  match_atoms false (repeat LowerAlnum 4 ++ [Lit "-"%char] ++ repeat LowerAlnum 4)%list.

(** [\w{16,25}], greedy, with nothing after it. *)
Definition word_run_16_25 (s : string) : option string :=
  let n := take_while is_word s in
  if Nat.leb 16 n then Some (drop (Nat.min n 25) s) else None.

(** [regex.gift] and [regex.url] of redeemNitro (lines 661-662), both with
    the flags [gim]. *)
Definition regex_gift : string -> option string :=
  match_alts true
    [ (lits "discord" ++ [AnyChar] ++ lits "gift")%list;
      (lits "discord" ++ [AnyChar] ++ lits "com")%list;
      (lits "discordapp" ++ [AnyChar] ++ lits "com/gifts")%list ]
    (fun r => match match_atoms true [Lit "/"%char] r with
              | Some r' => word_run_16_25 r'
              | None => None
              end).

Definition regex_url : string -> option string :=
  match_alts true
    [ lits "discord.gift/"; lits "discord.com/gifts/"; lits "discordapp.com/gifts/" ]
    (fun r => Some r).

(** [nitro.match(regex.gift)], then [code.replace(regex.url, '')] on each
    match; [None] is the [null] of a search without match. *)
Definition nitroArray (nitro : string) : option (list string) :=
  match match_all regex_gift nitro 0 with
  | [] => None
  | l => Some l
  end.

Definition codeArray (matches : list string) : list string :=
  map (fun code => remove_all regex_url code 0) matches.

(** ** The client and the outside world *)

(** Modelled from the spec: the [Status] constants of util/Constants, which
    the source reads as [Status.READY] and [Status.IDLE]; the spec lists the
    session states IDLE, CONNECTING, READY, DISCONNECTED and DESTROYED. *)
Inductive Status : Type :=
| IDLE | CONNECTING | READY | DISCONNECTED | DESTROYED.

Definition Status_eqb (a b : Status) : bool :=
  match a, b with
  | IDLE, IDLE | CONNECTING, CONNECTING | READY, READY
  | DISCONNECTED, DISCONNECTED | DESTROYED, DESTROYED => true
  | _, _ => false
  end.

(** An object received from the REST layer, read by property name. *)
Definition JsObj : Type := string -> JsValue.

(** The POST requests the methods below issue through [this.api]. *)
Inductive Request : Type :=
| AuthLogin (login password : string)
| AuthMfaTotp (code : string) (ticket : JsValue)
| AuthLogout
| RemoteAuthInit (fingerprint : string)
| RemoteAuthFinish (handshake_token : JsValue)
| RemoteAuthCancel (handshake_token : JsValue)
| RedeemGiftCode (code : string) (channel_id : JsValue).

Inductive Timer : Type :=
| SweepMessagesTimer      (* the interval of line 257 *)
| UsedCodesTimer.         (* the hourly interval of line 263 *)

Definition Timer_eqb (a b : Timer) : bool :=
  match a, b with
  | SweepMessagesTimer, SweepMessagesTimer | UsedCodesTimer, UsedCodesTimer => true
  | _, _ => false
  end.

(** What a method does to its collaborators, in the order it does it. *)
Inductive Event : Type :=
| EvPost (r : Request)          (* a REST call *)
| EvWsConnect                   (* this.ws.connect() *)
| EvWsDestroy                   (* this.ws.destroy() *)
| EvSweepersDestroy             (* this.sweepers.destroy() *)
| EvBaseDestroy                 (* super.destroy() *)
| EvCleanup (fn : nat)          (* a function of this._cleanups is called *)
| EvClearInterval (t : Timer).  (* clearInterval *)

(** A cache of a manager: identifiers with the entity stored under each. *)
Definition Collection : Type := list (string * nat).

Record Caches : Type := mkCaches {
  guilds : Collection;
  channels : Collection;
  users : Collection;
  relationships : Collection;
  sessions : Collection;
  voiceStates : Collection
}.

(** The fields of the client that the methods below read or write.
    [_cleanups] is a Set of functions, kept in insertion order, a function
    being known by a number; [timers] are the intervals that are running;
    [log] records the calls made on the collaborators so far. *)
Record Client : Type := mkClient {
  options : Options;
  _cleanups : list nat;
  token : JsValue;
  password : JsValue;
  usedCodes : list string;
  sweepMessageInterval : option Timer;
  ws_status : Status;
  caches : Caches;
  timers : list Timer;
  log : list Event
}.

Definition set_cleanups (v : list nat) (c : Client) : Client :=
  mkClient (options c) v (token c) (password c) (usedCodes c)
           (sweepMessageInterval c) (ws_status c) (caches c) (timers c) (log c).
Definition set_token (v : JsValue) (c : Client) : Client :=
  mkClient (options c) (_cleanups c) v (password c) (usedCodes c)
           (sweepMessageInterval c) (ws_status c) (caches c) (timers c) (log c).
Definition set_password (v : JsValue) (c : Client) : Client :=
  mkClient (options c) (_cleanups c) (token c) v (usedCodes c)
           (sweepMessageInterval c) (ws_status c) (caches c) (timers c) (log c).
Definition set_usedCodes (v : list string) (c : Client) : Client :=
  mkClient (options c) (_cleanups c) (token c) (password c) v
           (sweepMessageInterval c) (ws_status c) (caches c) (timers c) (log c).
Definition set_ws_status (v : Status) (c : Client) : Client :=
  mkClient (options c) (_cleanups c) (token c) (password c) (usedCodes c)
           (sweepMessageInterval c) v (caches c) (timers c) (log c).
Definition set_timers (v : list Timer) (c : Client) : Client :=
  mkClient (options c) (_cleanups c) (token c) (password c) (usedCodes c)
           (sweepMessageInterval c) (ws_status c) (caches c) v (log c).
Definition add_log (e : Event) (c : Client) : Client :=
  mkClient (options c) (_cleanups c) (token c) (password c) (usedCodes c)
           (sweepMessageInterval c) (ws_status c) (caches c) (timers c)
           (log c ++ [e])%list.

Definition add_logs (l : list Event) (c : Client) : Client :=
  fold_left (fun c' e => add_log e c') l c.

(** What [new URL(url)] exposes of a parsed URL. *)
Record Url : Type := mkUrl {
  hostname : string;
  pathname : string
}.

(** The outside world.  Every answer may depend on all that happened before
    (the log at the time of the call).
    - [api_post]: the response of the REST layer to a POST, or its failure;
    - [ws_connect]: whether [this.ws.connect()] resolves or rejects;
    - [ws_status_next]: the status the WebSocket manager is in once a
      [connect] or [destroy] has been carried out, given the one before;
    - [cleanup_call]: whether a cleanup function returns or throws;
    - [new_URL]: the URL parser, which throws on a string it cannot parse. *)
Record Env : Type := mkEnv {
  api_post : list Event -> Request -> Res JsObj;
  ws_connect : list Event -> Res unit;
  ws_status_next : list Event -> Status -> Status;
  cleanup_call : list Event -> nat -> Res unit;
  new_URL : string -> Res Url
}.

(** ** The monad of the methods *)

Definition M (A : Type) : Type := Env -> Client -> Res A * Client.

Definition ret {A} (a : A) : M A := fun _ c => (Ok a, c).

Definition bind {A B} (m : M A) (k : A -> M B) : M B :=
  fun env c =>
    match m env c with
    | (Ok a, c') => k a env c'
    | (Throw e, c') => (Throw e, c')
    end.

Definition throw {A} (e : JsError) : M A := fun _ c => (Throw e, c).

(** [try { m } catch (error) { h error }] *)
Definition try_catch {A} (m : M A) (h : JsError -> M A) : M A :=
  fun env c =>
    match m env c with
    | (Ok a, c') => (Ok a, c')
    | (Throw e, c') => h e env c'
    end.

Definition get : M Client := fun _ c => (Ok c, c).
Definition modify (f : Client -> Client) : M unit := fun _ c => (Ok tt, f c).

Declare Scope js_scope.
Delimit Scope js_scope with js.
Notation "x <- m ;; k" := (bind m (fun x => k))
  (at level 100, m at next level, right associativity) : js_scope.
Notation "m ;; k" := (bind m (fun _ => k))
  (at level 100, right associativity) : js_scope.
Local Open Scope js_scope.

(** [await this.api. ... .post(...)]: the call is logged, the world answers. *)
Definition post (r : Request) : M JsObj :=
  fun env c => (api_post env (log c) r, add_log (EvPost r) c).

(** [await this.ws.connect()] and [this.ws.destroy()]. *)
Definition ws_connect_call : M unit :=
  fun env c =>
    let c1 := add_log EvWsConnect c in
    (ws_connect env (log c), set_ws_status (ws_status_next env (log c1) (ws_status c)) c1).

Definition ws_destroy_call : M unit :=
  fun env c =>
    let c1 := add_log EvWsDestroy c in
    (Ok tt, set_ws_status (ws_status_next env (log c1) (ws_status c)) c1).

(** [fn()] for a function of [_cleanups]. *)
Definition call_cleanup (fn : nat) : M unit :=
  fun env c => (cleanup_call env (log c) fn, add_log (EvCleanup fn) c).

Definition clearInterval (t : Timer) : M unit :=
  modify (fun c => add_log (EvClearInterval t)
                     (set_timers (filter (fun t' => negb (Timer_eqb t t')) (timers c)) c)).

Definition js_error (code : string) (args : list string) : JsError :=
  mkError ClsError code args.

(** ** The constructor (lines 55-267) *)

Section Construct.

Variable Intents_resolve : JsValue -> Res JsValue.
Variable captchaServices : list string.
Variable proxy_agent_missing : bool.

Definition empty_caches : Caches := mkCaches [] [] [] [] [] [].

(** [o] is [this.options] as the constructor of BaseClient leaves it, and
    [defaults] the object of [Options.createDefault()].  No request is
    sent from the constructor: the client starts with an empty log. *)
Definition new_Client (data : EnvData) (defaults o : Options) : Res Client :=
  match resolveShards data defaults o with
  | Throw e => Throw e
  | Ok o1 =>
      match _validateOptions Intents_resolve captchaServices proxy_agent_missing o1 with
      | Throw e => Throw e
      | Ok o2 =>
          let sweeping :=
            match o2 "messageSweepInterval" with
            | JsNumber n => num_gt0 n
            | _ => false
            end in
          Ok {| options := o2;
                _cleanups := [];
                token := match env_DISCORD_TOKEN data with
                         | Some t => JsString t
                         | None => JsNull
                         end;
                password := o2 "password";
                usedCodes := [];
                sweepMessageInterval :=
                  if sweeping then Some SweepMessagesTimer else None;
                ws_status := IDLE;
                caches := empty_caches;
                timers := if sweeping then [SweepMessagesTimer; UsedCodesTimer]
                          else [UsedCodesTimer];
                log := [] |}
      end
  end.

End Construct.

(** The callback of the hourly interval (lines 263-266). *)
Definition hourly_reset (c : Client) : Client := set_usedCodes [] c.

(** ** destroy (lines 566-578) and _finalize (lines 766-776)

    [super.destroy()], [this.sweepers.destroy()] and [this.ws.destroy()]
    are calls on collaborators; they are logged and they return.  A
    function of [_cleanups] may throw, as the [catch] of [_finalize]
    provides for; [destroy] calls these functions without a [try]. *)

(** [for (const fn of this._cleanups) fn();] *)
Fixpoint run_cleanups (fns : list nat) : M unit :=
  match fns with
  | [] => ret tt
  | fn :: rest => call_cleanup fn ;; run_cleanups rest
  end.

Definition destroy : M unit :=
  modify (add_log EvBaseDestroy) ;;
  c <- get ;;
  run_cleanups (_cleanups c) ;;
  modify (set_cleanups []) ;;
  c <- get ;;
  match sweepMessageInterval c with
  | Some t => clearInterval t
  | None => ret tt
  end ;;
  modify (add_log EvSweepersDestroy) ;;
  ws_destroy_call ;;
  modify (set_token JsNull) ;;
  modify (set_password JsNull).

Definition Set_delete (fn : nat) (s : list nat) : list nat :=
  filter (fun g => negb (Nat.eqb fn g)) s.

(** The debug messages that the client emits are not part of the model. *)
Definition _finalize (cleanup : nat) : M unit :=
  try_catch
    (call_cleanup cleanup ;;
     modify (fun c => set_cleanups (Set_delete cleanup (_cleanups c)) c))
    (fun _ => ret tt).

(** A parameter with a default value, [f(x = dflt)]: the default is taken
    when the argument is [undefined]. *)
Definition default_arg (arg dflt : JsValue) : JsValue :=
  match arg with
  | JsUndefined => dflt
  | v => v
  end.

(** ** login (lines 329-362)

    The debug messages and the copy of the presence into the WebSocket
    options (lines 332-353) touch none of the fields of [Client] and are
    left out. *)

Definition login (token_arg : JsValue) : M JsValue :=
  c <- get ;;
  (* token = this.token *)
  let tok := default_arg token_arg (token c) in
  match tok with
  | JsString s =>
      if negb (truthy tok) then throw (js_error "TOKEN_INVALID" [])
      else
        modify (set_token (JsString (strip_scheme s))) ;;
        try_catch
          (ws_connect_call ;;
           c' <- get ;;
           ret (token c'))
          (fun error => destroy ;; throw error)
  | _ => throw (js_error "TOKEN_INVALID" [])
  end.

(** ** normalLogin (lines 371-419) *)

Definition normalLogin (username password_arg mfaCode : JsValue) : M JsValue :=
  c <- get ;;
  (* password = this.password *)
  let pass := default_arg password_arg (password c) in
  match username, pass with
  | JsString u, JsString p =>
      if negb (truthy username) || negb (truthy pass)
      then throw (js_error "NORMAL_LOGIN" [])
      else
        data <- post (AuthLogin u p) ;;
        modify (set_password pass) ;;
        if negb (truthy (data "token")) && truthy (data "ticket") && truthy (data "mfa")
        then
          match mfaCode with
          | JsString code =>
              if negb (truthy mfaCode) then throw (js_error "LOGIN_FAILED_2FA" [])
              else if regex_test normal2fa code || regex_test backupCode code
              then
                data2 <- post (AuthMfaTotp code (data "ticket")) ;;
                login (data2 "token")
              else throw (js_error "LOGIN_FAILED_2FA" [])
          | _ => throw (js_error "LOGIN_FAILED_2FA" [])
          end
        else if truthy (data "token") then login (data "token")
        else throw (js_error "LOGIN_FAILED_UNKNOWN" [])
  | _, _ => throw (js_error "NORMAL_LOGIN" [])
  end.

(** ** switchUser (lines 426-436) *)




(** ** remoteAuth (lines 468-499) *)

Definition isReady : M bool :=
  c <- get ;; ret (Status_eqb (ws_status c) READY).

Definition parse_URL (url : string) : M Url :=
  fun env c => (new_URL env url, c).

(** [s.replace(pat, '')] for a string pattern: the first occurrence goes. *)
Fixpoint remove_first (pat s : string) : string :=
  if String.prefix pat s then drop (String.length pat) s
  else match s with
       | EmptyString => EmptyString
       | String c s' => String c (remove_first pat s')
       end.

Definition allowed_hosts : list string := ["discordapp.com"; "discord.com"].

Definition valid_remote_auth_url (u : Url) : bool :=
  negb (negb (existsb (String.eqb (hostname u)) allowed_hosts)
        || negb (String.prefix "/ra/" (pathname u))
        || Nat.leb (String.length (pathname u)) 4).

(** What the caller gets: the response of the finish call when the accept
    was forced, else the two continuations [yes] and [no], which are
    [remoteAuth_yes] and [remoteAuth_no] on the handshake token. *)
Inductive RemoteAuthResult : Type :=
| Accepted (res : JsObj)
| Confirm (handshake_token : JsValue).

Definition remoteAuth_yes (handshake_token : JsValue) : M JsObj :=
  post (RemoteAuthFinish handshake_token).

Definition remoteAuth_no (handshake_token : JsValue) : M JsObj :=
  post (RemoteAuthCancel handshake_token).

Definition remoteAuth (url : string) (forceAccept : bool) : M RemoteAuthResult :=
  ready <- isReady ;;
  if negb ready then throw (js_error "CLIENT_NOT_READY" ["Remote Auth"])
  else
    u <- parse_URL url ;;
    if negb (valid_remote_auth_url u) then throw (js_error "INVALID_REMOTE_AUTH_URL" [])
    else
      let hash := remove_first "/ra/" (pathname u) in
      res <- post (RemoteAuthInit hash) ;;
      let handshake_token := res "handshake_token" in
      if forceAccept
      then r <- remoteAuth_yes handshake_token ;; ret (Accepted r)
      else ret (Confirm handshake_token).

(** ** logout (lines 584-592) *)

Definition logout : M unit :=
  post AuthLogout ;;
  destroy.

(** ** redeemNitro (lines 657-686) *)

(** [this.usedCodes.indexOf(code) > -1] *)
Definition used (code : string) (codes : list string) : bool :=
  existsb (String.eqb code) codes.

Definition push_usedCode (code : string) : M unit :=
  modify (fun c => set_usedCodes (usedCodes c ++ [code])%list c).

(** The result of [m] as a value: [.then(...)] and [.catch(...)] both see it. *)
Definition settle {A} (m : M A) : M (Res A) :=
  fun env c =>
    match m env c with
    | (r, c') => (Ok r, c')
    end.

(** The loop [for await (const code of codeArray)]; [redeem] is the local
    variable of that name. *)
Fixpoint redeem_loop (codes : list string) (channel : JsValue)
         (failIfNotExists : bool) (redeem : bool) : M bool :=
  match codes with
  | [] => ret redeem
  | code :: rest =>
      c <- get ;;
      if used code (usedCodes c)
      then redeem_loop rest channel failIfNotExists redeem
      else
        r <- settle (post (RedeemGiftCode code (if truthy channel then channel else JsNull))) ;;
        match r with
        | Ok _ =>
            push_usedCode code ;;
            redeem_loop rest channel failIfNotExists true
        | Throw e =>
            push_usedCode code ;;
            if failIfNotExists then throw e
            else redeem_loop rest channel failIfNotExists redeem
        end
  end.

(** [channel] is what [this.channels.resolveId] made of the argument. *)
Definition redeemNitro (nitro channel : JsValue) (failIfNotExists : bool) : M bool :=
  match nitro with
  | JsString text =>
      match nitroArray text with
      | None => ret false
      | Some matches => redeem_loop (codeArray matches) channel failIfNotExists false
      end
  | _ => throw (js_error "INVALID_NITRO" [])
  end.

(** ** A lifetime of the client

    What happens to one client between its construction and its end, as far
    as the code redemption goes: calls of [redeemNitro] by a caller that
    catches their errors, and firings of the hourly interval.  Each call is
    run to its end before the next action; calls that overlap are the
    matter of [Sys] and [run] below. *)
Inductive Action : Type :=
| Redeem (nitro channel : JsValue) (failIfNotExists : bool)
| HourlyFire.

Definition act (a : Action) : M unit :=
  match a with
  | Redeem nitro channel f =>
      try_catch (redeemNitro nitro channel f ;; ret tt) (fun _ => ret tt)
  | HourlyFire => modify hourly_reset
  end.

Fixpoint lifetime (acts : list Action) : M unit :=
  match acts with
  | [] => ret tt
  | a :: rest => act a ;; lifetime rest
  end.

(** How many redemption calls for [code] a log holds. *)
Definition is_redeem_of (code : string) (e : Event) : bool :=
  match e with
  | EvPost (RedeemGiftCode c _) => String.eqb code c
  | _ => false
  end.

Definition redeem_posts (code : string) (l : list Event) : nat :=
  List.length (filter (is_redeem_of code) l).

(** ** Notions used in the statements *)

(** An object literal. *)
Definition obj (fields : list (string * JsValue)) : JsObj :=
  fun k =>
    match find (fun kv => String.eqb (fst kv) k) fields with
    | Some kv => snd kv
    | None => JsUndefined
    end.

(** A number that is finite, an integer, and not negative; and one that
    moreover fits the signed 32-bit range. *)
Definition finite_nonneg_integer (v : JsValue) : Prop :=
  exists z, v = JsNumber (Int z) /\ 0 <= z.

Definition int32_nonneg_integer (v : JsValue) : Prop :=
  exists z, v = JsNumber (Int z) /\ 0 <= z < 2147483648.

(** The raw shard list of a construction: the array given as
    [options.shards], or, when [options.shards] was left at its default, the
    array that the key SHARDS of the environment holds. *)
Definition raw_shard_list (data : EnvData) (defaults o : Options)
           (items : list JsValue) : Prop :=
  o "shards" = JsArray items
  \/ (strict_eq (o "shards") (defaults "shards") = true
      /\ data_SHARDS data = Some (Ok (JsArray items))).

(** [x] occurs in [l] at a place before which there is no [y]. *)
Definition occurs_before {A} (x y : A) (l : list A) : Prop :=
  exists l1 l2, l = (l1 ++ x :: l2)%list /\ ~ In y l1.

(** [res] lists, once each and in the order of their first occurrence in
    [l], exactly the elements of [l] that satisfy [P]. *)
Definition first_occurrences_of (P : JsValue -> Prop) (l res : list JsValue) : Prop :=
  NoDup res
  /\ (forall x, In x res <-> In x l /\ P x)
  /\ (forall r1 x r2 y r3, res = (r1 ++ x :: r2 ++ y :: r3)%list -> occurs_before x y l).

(** A shard count that is a positive integer, and one that is a number not
    below 1. *)
Definition positive_integer (v : JsValue) : Prop :=
  exists z, v = JsNumber (Int z) /\ 1 <= z.

Definition number_at_least_1 (v : JsValue) : Prop :=
  v = JsNumber PosInf
  \/ (exists z, v = JsNumber (Int z) /\ 1 <= z)
  \/ (exists fl fr, v = JsNumber (NonInt fl fr) /\ 1 <= fl).

(** The errors of the option validation: a TypeError or a RangeError, or the
    error about the missing proxy module. *)
Definition ConfigurationError (e : JsError) : Prop :=
  err_class e = ClsTypeError \/ err_class e = ClsRangeError
  \/ err_code e = "MISSING_MODULE".

(** The argument of [login] once the default has been applied is the empty
    string or is not a string. *)
Definition empty_or_not_string (v : JsValue) : Prop :=
  forall s, v = JsString s -> s = "".

(** Stripping a leading "Bot " or "Bearer " as the words describe it. *)
Definition strip_named_prefix (tok : string) : string :=
  if String.prefix "Bot " tok then drop 4 tok
  else if String.prefix "Bearer " tok then drop 7 tok
  else tok.

(** The host of a remote-auth URL is one of the service domains; its path is
    the reserved prefix followed by something. *)
Definition host_allowed (u : Url) : Prop :=
  hostname u = "discordapp.com" \/ hostname u = "discord.com".

Definition reserved_path (u : Url) : Prop :=
  exists rest, rest <> "" /\ pathname u = "/ra/" ++ rest.

(** A backup code as the words describe it: four alphanumeric characters, a
    dash, four alphanumeric characters; and a code of six digits. *)
Definition is_alnum (c : ascii) : bool := is_digit c || is_lower c || is_upper c.

Fixpoint all_chars (p : ascii -> bool) (s : string) : bool :=
  match s with
  | EmptyString => true
  | String c s' => p c && all_chars p s'
  end.

Definition backup_code_shape (code : string) : Prop :=
  exists a b,
    code = a ++ "-" ++ b
    /\ String.length a = 4%nat /\ String.length b = 4%nat
    /\ all_chars is_alnum a = true /\ all_chars is_alnum b = true.

Definition six_digit_code (code : string) : Prop :=
  String.length code = 6%nat /\ all_chars is_digit code = true.

(** The second-factor code passes one of the two patterns of normalLogin. *)
Definition mfa_code_accepted (code : string) : bool :=
  regex_test normal2fa code || regex_test backupCode code.

(** No firing of the hourly interval among the actions. *)
Definition within_one_window (acts : list Action) : Prop :=
  ~ In HourlyFire acts.

(** From [c] to [c'] the calls for [code] only grew in number, and each new
    one turned [code] from unused to used: the number of new calls is the
    change of [used code]. *)
Definition call_marks_used (code : string) (c c' : Client) : Prop :=
  (redeem_posts code (log c) <= redeem_posts code (log c'))%nat
  /\ (redeem_posts code (log c') + Nat.b2n (used code (usedCodes c))
      = redeem_posts code (log c) + Nat.b2n (used code (usedCodes c')))%nat.

Definition cleanup_calls (fn : nat) (l : list Event) : nat :=
  List.length (filter (fun e => match e with EvCleanup g => Nat.eqb fn g | _ => false end) l).

(** Every pending cleanup returns normally whenever it is called. *)
Definition cleanups_return (env : Env) (c : Client) : Prop :=
  forall tr fn, In fn (_cleanups c) -> cleanup_call env tr fn = Ok tt.

(** The events of [destroy] on a client whose cleanups return. *)
Definition destroy_events (c : Client) : list Event :=
  ([EvBaseDestroy] ++ map EvCleanup (_cleanups c)
   ++ match sweepMessageInterval c with
      | Some t => [EvClearInterval t]
      | None => []
      end
   ++ [EvSweepersDestroy; EvWsDestroy])%list.

(** ** Sample objects, for the examples *)

Definition sample_options : Options :=
  obj [ ("intents", JsNumber (Int 0)); ("checkUpdate", JsBool true);
        ("syncStatus", JsBool true); ("autoRedeemNitro", JsBool false);
        ("captchaService", JsString ""); ("captchaSolver", JsFunction);
        ("DMSync", JsBool false); ("patchVoice", JsBool false);
        ("proxy", JsString ""); ("shardCount", JsNumber (Int 1));
        ("makeCache", JsFunction); ("messageCacheLifetime", JsNumber (Int 0));
        ("messageSweepInterval", JsNumber (Int 0)); ("sweepers", JsObject);
        ("invalidRequestWarningInterval", JsNumber (Int 0));
        ("partials", JsArray []); ("waitGuildTimeout", JsNumber (Int 15000));
        ("messageCreateEventGuildTimeout", JsNumber (Int 100));
        ("restWsBridgeTimeout", JsNumber (Int 5000));
        ("restRequestTimeout", JsNumber (Int 15000));
        ("restGlobalRateLimit", JsNumber (Int 0));
        ("restSweepInterval", JsNumber (Int 60)); ("retryLimit", JsNumber (Int 1));
        ("failIfNotExists", JsBool true); ("userAgentSuffix", JsArray []) ].

Definition sample_defaults : Options := obj [ ("shardCount", JsNumber (Int 1)) ].

Definition no_env_data : EnvData := mkEnvData None None None.

Definition sample_Intents_resolve (v : JsValue) : Res JsValue := Ok v.
Definition sample_captchaServices : list string := ["2captcha"; "capmonster"; "custom"].

Definition network_error : JsError := mkError ClsError "ECONNRESET" [].
Definition cleanup_error : JsError := mkError ClsError "CLEANUP_FAILED" [].
Definition invalid_url_error : JsError := mkError ClsTypeError "ERR_INVALID_URL" [].

(** A parser for the URLs of the examples. *)
Definition sample_URL (url : string) : Res Url :=
  if String.eqb url "https://discord.com/ra/abc123" then Ok (mkUrl "discord.com" "/ra/abc123")
  else if String.eqb url "https://evil.example/ra/abc123" then Ok (mkUrl "evil.example" "/ra/abc123")
  else if String.eqb url "https://discord.com/ra/" then Ok (mkUrl "discord.com" "/ra/")
  else Throw invalid_url_error.

(** A world where every call succeeds; one where the gateway refuses the
    connection; one where moreover cleanup 2 throws; one where the REST
    layer is down. *)
Definition calm_env : Env :=
  mkEnv (fun _ _ => Ok (obj [])) (fun _ => Ok tt)
        (fun tr s => match last tr EvBaseDestroy with
                     | EvWsConnect => READY
                     | EvWsDestroy => DESTROYED
                     | _ => s
                     end)
        (fun _ _ => Ok tt) sample_URL.

Definition refusing_env : Env :=
  mkEnv (api_post calm_env) (fun _ => Throw network_error)
        (fun tr s => match last tr EvBaseDestroy with
                     | EvWsDestroy => DESTROYED
                     | _ => s
                     end)
        (cleanup_call calm_env) sample_URL.

Definition faulty_cleanup_env : Env :=
  mkEnv (api_post calm_env) (fun _ => Throw network_error)
        (ws_status_next refusing_env)
        (fun _ fn => if Nat.eqb fn 2 then Throw cleanup_error else Ok tt) sample_URL.

Definition offline_env : Env :=
  mkEnv (fun _ _ => Throw network_error) (fun _ => Throw network_error)
        (ws_status_next refusing_env) (cleanup_call calm_env) sample_URL.

(** A world whose login endpoint asks for a second factor. *)
Definition mfa_env : Env :=
  mkEnv (fun _ r => match r with
                    | AuthLogin _ _ => Ok (obj [("ticket", JsString "t1"); ("mfa", JsBool true)])
                    | AuthMfaTotp _ _ => Ok (obj [("token", JsString "Bot tok")])
                    | _ => Ok (obj [])
                    end)
        (ws_connect calm_env) (ws_status_next calm_env) (cleanup_call calm_env) sample_URL.

Definition sample_client : Client :=
  {| options := sample_options;
     _cleanups := [1%nat; 2%nat];
     token := JsString "stored";
     password := JsString "hunter2";
     usedCodes := [];
     sweepMessageInterval := Some SweepMessagesTimer;
     ws_status := IDLE;
     caches := mkCaches [("g1", 0%nat)] [] [("u1", 1%nat)] [] [] [];
     timers := [SweepMessagesTimer; UsedCodesTimer];
     log := [] |}.

Definition ready_client : Client := set_ws_status READY sample_client.

Definition gift_text : JsValue := JsString "take discord.gift/ABCDEFGHJKLMNPQR now".

(** ** autoRedeemNitro (lines 645-648) *)

(** [message] is [None] when the argument is not a Message, else the content
    of the message and what [this.channels.resolveId] makes of its
    channel. *)
Definition autoRedeemNitro (message : option (JsValue * JsValue)) : M unit :=
  match message with
  | None => ret tt
  | Some (content, channel) => redeemNitro content channel false ;; ret tt
  end.

(** ** Notions used in the further statements *)

(** The array [0, 1, ..., len - 1]. *)
Definition dense_range (len : Z) : list JsValue :=
  map (fun i => JsNumber (Int (Z.of_nat i))) (seq 0 (Z.to_nat len)).

(** The codes of the redemption calls of a log, in the order of the calls. *)
Fixpoint redeemed_codes (l : list Event) : list string :=
  match l with
  | [] => []
  | EvPost (RedeemGiftCode code _) :: rest => code :: redeemed_codes rest
  | _ :: rest => redeemed_codes rest
  end.

(** Whether one of the REST calls [evs], made in this order from the log
    [base] on, was answered without error. *)
Fixpoint some_post_succeeded (env : Env) (base evs : list Event) : bool :=
  match evs with
  | [] => false
  | e :: rest =>
      match e with
      | EvPost r => match api_post env base r with
                    | Ok _ => true
                    | Throw _ => false
                    end
      | _ => false
      end
      || some_post_succeeded env (base ++ [e]) rest
  end.

(** A value that is a string with at least one character. *)
Definition nonempty_string (v : JsValue) : Prop :=
  exists s, v = JsString s /\ s <> "".

(** ** Calls of redeemNitro that overlap

    [redeemNitro] is an [async] function: it gives the control back at
    each [await], and another call on the same client can run between two
    of its segments.  The loop of lines 669-684 awaits twice in a turn: the
    next element of [for await], before the test of line 670, and the
    answer to the POST of lines 671-683.  Between two awaits the code runs
    without interruption.  A call that is suspended is a [Call]: the codes
    the loop has not reached, the arguments, the local [redeem], and, when
    the call waits for an answer, the code sent with that answer, which the
    callbacks of lines 676-683 will see. *)
Record Call : Type := mkCall {
  pending : list string;
  call_channel : JsValue;
  call_failIfNotExists : bool;
  call_redeem : bool;
  awaited : option (string * Res JsObj) }.

Inductive CallState : Type :=
| Suspended (k : Call)
| Settled (r : Res bool).

(** Lines 657-668, up to the first await: nothing of the client is read or
    written. *)
Definition start_call (nitro channel : JsValue) (failIfNotExists : bool) : CallState :=
  match nitro with
  | JsString text =>
      match nitroArray text with
      | None => Settled (Ok false)
      | Some matches =>
          Suspended (mkCall (codeArray matches) channel failIfNotExists false None)
      end
  | _ => Settled (Throw (js_error "INVALID_NITRO" []))
  end.

(** One segment of a suspended call.  When an answer has come: the push of
    line 677 or 681, and the throw of line 682.  Else the test of line 670
    on the next code and, when the code is not in the used list, the POST. *)
Definition resume (k : Call) (env : Env) (c : Client) : CallState * Client :=
  match awaited k with
  | Some (code, answer) =>
      let c1 := set_usedCodes (usedCodes c ++ [code])%list c in
      match answer with
      | Ok _ =>
          (Suspended (mkCall (pending k) (call_channel k) (call_failIfNotExists k) true None),
           c1)
      | Throw e =>
          if call_failIfNotExists k then (Settled (Throw e), c1)
          else (Suspended (mkCall (pending k) (call_channel k) (call_failIfNotExists k)
                             (call_redeem k) None),
                c1)
      end
  | None =>
      match pending k with
      | [] => (Settled (Ok (call_redeem k)), c)
      | code :: rest =>
          if used code (usedCodes c)
          then (Suspended (mkCall rest (call_channel k) (call_failIfNotExists k)
                             (call_redeem k) None),
                c)
          else
            let req := RedeemGiftCode code
                         (if truthy (call_channel k) then call_channel k else JsNull) in
            (Suspended (mkCall rest (call_channel k) (call_failIfNotExists k)
                          (call_redeem k) (Some (code, api_post env (log c) req))),
             add_log (EvPost req) c)
      end
  end.

(** A call resumed [n] times, or until it settles. *)
Fixpoint resume_n (n : nat) (s : CallState) (env : Env) (c : Client) : CallState * Client :=
  match n, s with
  | S n', Suspended k =>
      match resume k env c with
      | (s', c') => resume_n n' s' env c'
      end
  | _, _ => (s, c)
  end.

(** The client with the calls made on it so far, and what the event loop
    does next: a new call of [redeemNitro], the next segment of the call
    number [i], or a firing of the hourly interval. *)
Record Sys : Type := mkSys {
  calls : list CallState;
  client : Client }.

Inductive Step : Type :=
| StartCall (nitro channel : JsValue) (failIfNotExists : bool)
| Resume (i : nat)
| Fire.

Definition set_nth {A} (i : nat) (x : A) (l : list A) : list A :=
  (firstn i l ++ x :: skipn (S i) l)%list.

Definition step (env : Env) (st : Sys) (s : Step) : Sys :=
  match s with
  | StartCall nitro channel f =>
      mkSys (calls st ++ [start_call nitro channel f])%list (client st)
  | Resume i =>
      match nth_error (calls st) i with
      | Some (Suspended k) =>
          match resume k env (client st) with
          | (s', c') => mkSys (set_nth i s' (calls st)) c'
          end
      | _ => st
      end
  | Fire => mkSys (calls st) (hourly_reset (client st))
  end.

Definition run (env : Env) (sched : list Step) (st : Sys) : Sys :=
  fold_left (step env) sched st.

(** The segments that a call needs at most to settle: two for each code,
    and one to leave the loop. *)
Definition resume_bound (nitro : JsValue) : nat :=
  match start_call nitro JsNull false with
  | Suspended k => (2 * List.length (pending k) + 1)%nat
  | Settled _ => 0%nat
  end.

(** The schedule of calls that do not overlap: each call is resumed until
    it has settled before the next action; [i] is the number of the next
    call. *)
Fixpoint sequential (acts : list Action) (i : nat) : list Step :=
  match acts with
  | [] => []
  | Redeem nitro channel f :: rest =>
      (StartCall nitro channel f :: repeat (Resume i) (resume_bound nitro)
       ++ sequential rest (S i))%list
  | HourlyFire :: rest => Fire :: sequential rest i
  end.

(** The call [a] gets as far as [code]: [code] is the first code of its
    text, or one of its codes when the call does not stop at a refusal. *)
Definition redeems (code : string) (a : Action) : Prop :=
  match a with
  | Redeem nitro channel f =>
      match start_call nitro channel f with
      | Suspended k =>
          hd_error (pending k) = Some code \/ (f = false /\ In code (pending k))
      | Settled _ => False
      end
  | HourlyFire => False
  end.

(** Two calls on the same text that overlap: both are made, then each runs
    its segments in turn. *)
Definition overlapping (nitro channel : JsValue) (f : bool) : list Step :=
  [StartCall nitro channel f; StartCall nitro channel f;
   Resume 0; Resume 1; Resume 0; Resume 1; Resume 0; Resume 1].

(** * Properties *)

(** ** The shard list *)

Lemma wrap32_fixpoint (z : Z) :
  wrap32 z = z <-> -2147483648 <= z < 2147483648.
Proof.
  unfold wrap32.
  pose proof (Z.mod_pos_bound z 4294967296 ltac:(lia)) as Hm.
  destruct (2147483648 <=? z mod 4294967296) eqn:E;
    [apply Z.leb_le in E | apply Z.leb_gt in E];
    split; intros H; Z.div_mod_to_equations; lia.
Qed.

Lemma shard_filter_spec (v : JsValue) :
  shard_filter v = true <-> int32_nonneg_integer v.
Proof.
  unfold int32_nonneg_integer. split.
  - destruct v as [| | b | n | s | | | l]; simpl; try discriminate.
    destruct n as [| | | z | fl fr]; simpl; try discriminate.
    + rewrite andb_true_r. intros H.
      apply andb_true_iff in H as [H0 H1].
      apply Z.leb_le in H0. apply Z.eqb_eq in H1.
      symmetry in H1. apply wrap32_fixpoint in H1.
      exists z. split; [reflexivity | lia].
    + rewrite andb_false_r. discriminate.
  - intros [z [-> Hz]]. simpl. rewrite andb_true_r.
    apply andb_true_iff. split.
    + apply Z.leb_le. lia.
    + apply Z.eqb_eq. symmetry. apply wrap32_fixpoint. lia.
Qed.

Lemma SameValueZero_shards (x y : JsValue) :
  shard_filter x = true -> shard_filter y = true ->
  (SameValueZero x y = true <-> x = y).
Proof.
  intros Hx Hy.
  apply shard_filter_spec in Hx as [a [-> _]].
  apply shard_filter_spec in Hy as [b [-> _]].
  simpl. rewrite Z.eqb_eq. split; [intros -> | intros [= ->]]; reflexivity.
Qed.

Lemma Set_has_In (s : list JsValue) (x : JsValue) :
  Forall (fun v => shard_filter v = true) s -> shard_filter x = true ->
  (Set_has s x = true <-> In x s).
Proof.
  intros Hs Hx. unfold Set_has. rewrite existsb_exists.
  rewrite Forall_forall in Hs. split.
  - intros [y [Hy E]]. apply SameValueZero_shards in E; auto. now subst.
  - intros Hin. exists x. split; [assumption |].
    apply SameValueZero_shards; auto.
Qed.

Lemma NoDup_snoc {A} (l : list A) (a : A) : NoDup l -> ~ In a l -> NoDup (l ++ [a]).
Proof.
  induction l as [| b l IH]; simpl; intros Hnd Hna.
  - constructor; [intros [] | constructor].
  - inversion Hnd; subst. constructor.
    + intros Hin. apply in_app_or in Hin as [Hin | [-> | []]]; tauto.
    + apply IH; tauto.
Qed.

(** What adding the elements of [l] to a Set [acc] gives: [acc], then the
    new elements, each once and in the order of its first occurrence. *)
Lemma Set_add_all (l : list JsValue) :
  Forall (fun v => shard_filter v = true) l ->
  forall acc,
    Forall (fun v => shard_filter v = true) acc -> NoDup acc ->
    exists tail,
      fold_left Set_add l acc = (acc ++ tail)%list
      /\ NoDup (acc ++ tail)
      /\ (forall x, In x tail <-> In x l /\ ~ In x acc)
      /\ (forall r1 x r2 y r3,
             tail = (r1 ++ x :: r2 ++ y :: r3)%list -> occurs_before x y l).
Proof.
  induction l as [| a l IH]; intros Hl acc Hacc Hnd.
  - exists []. simpl. rewrite app_nil_r.
    split; [reflexivity |]. split; [assumption |]. split.
    + intros x. tauto.
    + intros r1 x r2 y r3 H. destruct r1; discriminate.
  - inversion Hl as [| ? ? Ha Hl']; subst. simpl.
    assert (forall y : JsValue, In y l -> shard_filter y = true) as Hgood.
    { now apply Forall_forall. }
    unfold Set_add at 2.
    destruct (Set_has acc a) eqn:E.
    + apply Set_has_In in E; auto.
      destruct (IH Hl' acc Hacc Hnd) as [tail [Hf [Hn [Hm Ho]]]].
      exists tail.
      split; [assumption |]. split; [assumption |]. split.
      * intros x. rewrite Hm. split.
        -- intros [Hx Hna]. split; [now right | assumption].
        -- intros [[-> | Hx] Hna]; [contradiction | tauto].
      * intros r1 x r2 y r3 Ht.
        destruct (Ho _ _ _ _ _ Ht) as [l1 [l2 [-> Hy]]].
        exists (a :: l1), l2. split; [reflexivity |].
        intros [-> | Hin]; [| contradiction].
        assert (In y tail) as Hyt.
        { rewrite Ht. apply in_or_app. right. right.
          apply in_or_app. right. now left. }
        apply Hm in Hyt. tauto.
    + assert (~ In a acc) as Hna.
      { intros Hin. apply (Set_has_In acc a Hacc Ha) in Hin. congruence. }
      assert (Forall (fun v => shard_filter v = true) (acc ++ [a])) as Hacc'.
      { apply Forall_app. split; [assumption | now constructor]. }
      pose proof (NoDup_snoc acc a Hnd Hna) as Hnd'.
      destruct (IH Hl' (acc ++ [a])%list Hacc' Hnd') as [tail [Hf [Hn [Hm Ho]]]].
      exists (a :: tail). rewrite <- app_assoc in Hf, Hn. simpl in Hf, Hn.
      split; [assumption |]. split; [assumption |]. split.
      * intros x. simpl. rewrite Hm. rewrite in_app_iff. simpl. split.
        -- intros [<- | [Hx Hnx]]; [tauto |]. split; [tauto |]. tauto.
        -- intros [[-> | Hx] Hnx]; [now left |].
           destruct (Set_has (acc ++ [a]) x) eqn:Ex.
           ++ apply Set_has_In in Ex; auto.
              apply in_app_or in Ex as [Hin | [-> | []]]; [contradiction | now left].
           ++ right. split; [assumption |]. intros Hin.
              assert (In x (acc ++ [a])) as Hin' by (apply in_or_app; simpl; tauto).
              apply (Set_has_In _ _ Hacc' (Hgood x Hx)) in Hin'. congruence.
      * intros r1 x r2 y r3 Ht.
        destruct r1 as [| b r1]; simpl in Ht; injection Ht as <- Ht.
        -- exists [], l. split; [reflexivity | intros []].
        -- destruct (Ho _ _ _ _ _ Ht) as [l1 [l2 [-> Hy]]].
           exists (a :: l1), l2. split; [reflexivity |].
           intros [-> | Hin]; [| contradiction].
           assert (In y tail) as Hyt.
           { rewrite Ht. apply in_or_app. right. right.
             apply in_or_app. right. now left. }
           apply Hm in Hyt as [_ Hyt]. apply Hyt. apply in_or_app. right. now left.
Qed.

Lemma filter_split {A} (f : A -> bool) (l l1 l2 : list A) (x : A) :
  filter f l = (l1 ++ x :: l2)%list ->
  exists l1' l2', l = (l1' ++ x :: l2')%list /\ filter f l1' = l1.
Proof.
  revert l1. induction l as [| a l IH]; intros l1 H; simpl in H.
  - destruct l1; discriminate.
  - destruct (f a) eqn:E.
    + destruct l1 as [| b l1]; simpl in H; injection H as <- H.
      * exists [], l. split; reflexivity.
      * destruct (IH _ H) as [l1' [l2' [-> Hf]]].
        exists (a :: l1'), l2'. split; [reflexivity |].
        simpl. rewrite E. now rewrite Hf.
    + destruct (IH _ H) as [l1' [l2' [-> Hf]]].
      exists (a :: l1'), l2'. split; [reflexivity |].
      simpl. now rewrite E.
Qed.

Lemma normalizeShardList_spec (items : list JsValue) :
  first_occurrences_of int32_nonneg_integer items (normalizeShardList items).
Proof.
  unfold normalizeShardList, Set_of.
  assert (Forall (fun v => shard_filter v = true) (filter shard_filter items)) as Hgood.
  { apply Forall_forall. intros x Hx. now apply filter_In in Hx. }
  destruct (Set_add_all _ Hgood [] (Forall_nil _) (NoDup_nil _))
    as [res [-> [Hnd [Hm Ho]]]].
  simpl in *. repeat split.
  - assumption.
  - apply Hm in H. destruct H as [H _]. now apply filter_In in H.
  - apply Hm in H. destruct H as [H _]. apply filter_In in H.
    now apply shard_filter_spec.
  - intros [Hin HP]. apply Hm. split; [| tauto].
    apply filter_In. split; [assumption | now apply shard_filter_spec].
  - intros r1 x r2 y r3 Hres.
    destruct (Ho _ _ _ _ _ Hres) as [l1 [l2 [Hf Hy]]].
    destruct (filter_split _ _ _ _ _ Hf) as [l1' [l2' [-> Hl1]]].
    exists l1', l2'. split; [reflexivity |].
    intros Hin. apply Hy. rewrite <- Hl1. apply filter_In. split; [assumption |].
    assert (In y res) as Hyr.
    { rewrite Hres. apply in_or_app. right. right. apply in_or_app. right. now left. }
    apply Hm in Hyr as [Hyr _]. now apply filter_In in Hyr.
Qed.

(** C3 (as amended).  For every raw shard list given in the options, the
    constructor leaves in [options.shards] the elements of the list that are
    non-negative integers of the signed 32-bit range (below 2^31), each once
    and in the order of their first occurrence; negatives, non-integers,
    NaN, the infinities, integers from 2^31 on and values that are not
    numbers are dropped. *)
Theorem shard_list_resolution (data : EnvData) (defaults o : Options)
        (items : list JsValue) :
  raw_shard_list data defaults o items ->
  exists o' res,
    resolveShards data defaults o = Ok o'
    /\ o' "shards" = JsArray res
    /\ first_occurrences_of int32_nonneg_integer items res.
Proof.
  intros H. unfold resolveShards.
  set (step1 := if strict_eq (o "shards") (defaults "shards") then _ else Ok o).
  assert (exists o1, step1 = Ok o1 /\ o1 "shards" = JsArray items) as [o1 [-> H1]].
  { subst step1. destruct H as [H | [Heq Hdata]].
    - rewrite H. exists o. split; [reflexivity | exact H].
    - rewrite Heq, Hdata. eexists. split; reflexivity. }
  set (o2 := if strict_eq (o1 "shardCount") (defaults "shardCount") then _ else o1).
  assert (o2 "shards" = JsArray items) as H2.
  { subst o2. destruct (strict_eq _ _); [| assumption].
    destruct (data_SHARD_COUNT data); [exact H1 |].
    rewrite H1. exact H1. }
  rewrite H2. cbn [typeof JsType_eqb]. rewrite H2.
  eexists. exists (normalizeShardList items).
  split; [reflexivity |]. split; [reflexivity |].
  apply normalizeShardList_spec.
Qed.

(** The theorem at a list with a duplicate, a negative, a non-integer and a
    string, given in the options and given by the environment. *)
Lemma shard_list_resolution_example :
  let items := [JsNumber (Int 2); JsNumber (Int (-1)); JsNumber (Int 0);
                JsNumber (NonInt 1 1); JsNumber (Int 2); JsString "3"] in
  (exists o' res,
      resolveShards no_env_data sample_defaults
        (set_opt sample_options "shards" (JsArray items)) = Ok o'
      /\ o' "shards" = JsArray res
      /\ first_occurrences_of int32_nonneg_integer items res)
  /\ (exists o' res,
         resolveShards (mkEnvData (Some (Ok (JsArray items))) None None)
           sample_defaults sample_options = Ok o'
         /\ o' "shards" = JsArray res
         /\ first_occurrences_of int32_nonneg_integer items res).
Proof.
  split.
  - apply shard_list_resolution. left. reflexivity.
  - apply shard_list_resolution. right. split; reflexivity.
Defined.

Example normalizeShardList_sample :
  normalizeShardList
    [JsNumber (Int 2); JsNumber (Int (-1)); JsNumber (Int 0);
     JsNumber (NonInt 1 1); JsNumber (Int 2); JsString "3"; JsNumber NaN;
     JsNumber PosInf; JsNumber (Int 0); JsNumber (Int 7)]
  = [JsNumber (Int 2); JsNumber (Int 0); JsNumber (Int 7)].
Proof. reflexivity. Qed.

(** C3 as first stated fails: 2^31 is a finite non-negative integer, and
    the filter drops it, [2147483648 | 0] being -2147483648. *)
Lemma shard_list_large_integer_dropped :
  finite_nonneg_integer (JsNumber (Int 2147483648))
  /\ normalizeShardList [JsNumber (Int 2147483648)] = []
  /\ ~ first_occurrences_of finite_nonneg_integer
         [JsNumber (Int 2147483648)]
         (normalizeShardList [JsNumber (Int 2147483648)]).
Proof.
  split; [exists 2147483648; split; [reflexivity | lia] |].
  split; [reflexivity |].
  intros [_ [Hm _]].
  assert (In (JsNumber (Int 2147483648)) (normalizeShardList [JsNumber (Int 2147483648)])) as Hin.
  { apply Hm. split; [now left |]. exists 2147483648. split; [reflexivity | lia]. }
  exact Hin.
Qed.

(** ** Option validation *)

Lemma first_failure_app (l1 l2 : list (bool * JsError)) :
  first_failure (l1 ++ l2) =
  match first_failure l1 with
  | Some e => Some e
  | None => first_failure l2
  end.
Proof.
  induction l1 as [| [[|] e] l1 IH]; simpl; auto.
Qed.

Lemma first_failure_In (l : list (bool * JsError)) (e : JsError) :
  first_failure l = Some e -> exists b, In (b, e) l.
Proof.
  induction l as [| [[|] e'] l IH]; simpl; intros H.
  - discriminate.
  - injection H as ->. exists true. now left.
  - destruct (IH H) as [b Hb]. exists b. now right.
Qed.

Lemma checks_before_shards_errors (captchaServices : list string) (pam : bool)
      (o : Options) (e : JsError) :
  first_failure (checks_before_shards captchaServices pam o) = Some e ->
  ConfigurationError e.
Proof.
  intros H. apply first_failure_In in H as [b Hb].
  unfold checks_before_shards in Hb. simpl in Hb.
  repeat (destruct Hb as [Hb | Hb];
          [injection Hb as _ <-; unfold ConfigurationError; simpl; tauto |]).
  contradiction.
Qed.

Lemma shardCount_check (v : JsValue) :
  ~ number_at_least_1 v ->
  match v with
  | JsNumber n => num_isNaN n || num_lt1 n
  | _ => true
  end = true.
Proof.
  intros H. destruct v as [| | b | n | s | | | l]; try reflexivity.
  destruct n as [| | | z | fl fr]; simpl; try reflexivity.
  - exfalso. apply H. now left.
  - apply Z.ltb_lt. destruct (Z_lt_dec z 1) as [Hz | Hz]; [assumption |].
    exfalso. apply H. right. left. exists z. split; [reflexivity | lia].
  - apply Z.ltb_lt. destruct (Z_lt_dec fl 1) as [Hz | Hz]; [assumption |].
    exfalso. apply H. right. right. exists fl, fr. split; [reflexivity | lia].
Qed.

Lemma checks_shards_fire (o : Options) :
  o "shards" = JsArray [] \/ ~ number_at_least_1 (o "shardCount") ->
  exists e, first_failure (checks_shards o) = Some e /\ ConfigurationError e.
Proof.
  intros H. unfold checks_shards.
  set (bad := match o "shardCount" with
              | JsNumber n => num_isNaN n || num_lt1 n
              | _ => true
              end).
  destruct bad eqn:E.
  - eexists. split; [reflexivity | left; reflexivity].
  - destruct H as [H | H].
    + rewrite H. simpl. eexists. split; [reflexivity | right; left; reflexivity].
    + apply shardCount_check in H. subst bad. congruence.
Qed.

(** C5 (as amended).  When, after the normalisation of the constructor, the
    shard list is an empty array or the shard count is not a number greater
    than or equal to 1, the constructor throws and no client comes out of
    it; nothing is sent before, the constructor making no request at all.
    The error is a TypeError or a RangeError of the option validation, the
    one of the first check that fails, unless [Intents.resolve] threw
    before. *)
Theorem construction_rejects_bad_shards
        (Intents_resolve : JsValue -> Res JsValue) (captchaServices : list string)
        (proxy_agent_missing : bool)
        (data : EnvData) (defaults o o1 : Options) :
  resolveShards data defaults o = Ok o1 ->
  o1 "shards" = JsArray [] \/ ~ number_at_least_1 (o1 "shardCount") ->
  exists e,
    new_Client Intents_resolve captchaServices proxy_agent_missing data defaults o
    = Throw e
    /\ (ConfigurationError e \/ Intents_resolve (o1 "intents") = Throw e).
Proof.
  intros Hres Hbad. unfold new_Client. rewrite Hres.
  unfold _validateOptions.
  destruct (is_type TUndefined (o1 "intents")).
  { eexists. split; [reflexivity | left; left; reflexivity]. }
  destruct (Intents_resolve (o1 "intents")) as [bits | e] eqn:EI.
  2: { exists e. split; [reflexivity | now right]. }
  rewrite first_failure_app.
  destruct (first_failure (checks_before_shards _ _ _)) as [e |] eqn:EB.
  { exists e. split; [reflexivity |]. left.
    eapply checks_before_shards_errors; eassumption. }
  rewrite first_failure_app.
  destruct (checks_shards_fire (set_opt o1 "intents" bits)) as [e [He Hc]].
  { exact Hbad. }
  rewrite He. exists e. split; [reflexivity | now left].
Qed.

(** The theorem at a shard list whose only entry is negative. *)
Lemma construction_rejects_bad_shards_example :
  exists e,
    new_Client sample_Intents_resolve sample_captchaServices false no_env_data
      sample_defaults (set_opt sample_options "shards" (JsArray [JsNumber (Int (-1))]))
    = Throw e
    /\ ConfigurationError e.
Proof.
  destruct (construction_rejects_bad_shards
              sample_Intents_resolve sample_captchaServices false no_env_data
              sample_defaults
              (set_opt sample_options "shards" (JsArray [JsNumber (Int (-1))]))
              _ eq_refl (or_introl eq_refl)) as [e [He [Hc | Hi]]].
  - exists e. split; assumption.
  - discriminate Hi.
Defined.

Example sample_options_accepted :
  exists c, new_Client sample_Intents_resolve sample_captchaServices false no_env_data
              sample_defaults sample_options = Ok c
            /\ options c "shards" = JsArray [JsNumber (Int 0)].
Proof. eexists. split; reflexivity. Qed.

(** C5 as first stated fails: 1.5 is not a positive integer, and a client
    is constructed with it as shard count. *)
Lemma fractional_shard_count_accepted :
  let o := set_opt (set_opt sample_options "shards" (JsArray [JsNumber (Int 0)]))
                   "shardCount" (JsNumber (NonInt 1 1)) in
  (exists o1, resolveShards no_env_data sample_defaults o = Ok o1
              /\ o1 "shardCount" = JsNumber (NonInt 1 1)
              /\ ~ positive_integer (o1 "shardCount"))
  /\ (exists c, new_Client sample_Intents_resolve sample_captchaServices false
                  no_env_data sample_defaults o = Ok c).
Proof.
  split.
  - eexists. split; [reflexivity |]. split; [reflexivity |].
    intros [z [Hz _]]. discriminate Hz.
  - eexists. reflexivity.
Qed.

(** ** Teardown *)

Lemma add_logs_fields (l : list Event) (c : Client) :
  log (add_logs l c) = (log c ++ l)%list
  /\ token (add_logs l c) = token c
  /\ password (add_logs l c) = password c
  /\ _cleanups (add_logs l c) = _cleanups c
  /\ sweepMessageInterval (add_logs l c) = sweepMessageInterval c
  /\ ws_status (add_logs l c) = ws_status c
  /\ timers (add_logs l c) = timers c
  /\ usedCodes (add_logs l c) = usedCodes c
  /\ caches (add_logs l c) = caches c
  /\ options (add_logs l c) = options c.
Proof.
  revert c. induction l as [| e l IH]; intros c; simpl.
  - rewrite app_nil_r. repeat split.
  - destruct (IH (add_log e c)) as (H1 & H2 & H3 & H4 & H5 & H6 & H7 & H8 & H9 & H10).
    unfold add_logs in *. rewrite H1, H2, H3, H4, H5, H6, H7, H8, H9, H10. simpl.
    rewrite <- app_assoc. repeat split.
Qed.

Lemma run_cleanups_return (env : Env) (fns : list nat) :
  forall c,
    (forall tr fn, In fn fns -> cleanup_call env tr fn = Ok tt) ->
    run_cleanups fns env c = (Ok tt, add_logs (map EvCleanup fns) c).
Proof.
  induction fns as [| fn fns IH]; intros c H; simpl.
  - reflexivity.
  - unfold bind, call_cleanup. rewrite (H (log c) fn (or_introl eq_refl)).
    apply IH. intros tr g Hg. apply H. now right.
Qed.

(** [destroy] on a client whose pending cleanups return. *)
Lemma destroy_returns (env : Env) (c : Client) :
  cleanups_return env c ->
  exists c',
    destroy env c = (Ok tt, c')
    /\ token c' = JsNull /\ password c' = JsNull /\ _cleanups c' = []
    /\ log c' = (log c ++ destroy_events c)%list
    /\ sweepMessageInterval c' = sweepMessageInterval c.
Proof.
  intros H. unfold destroy, bind, modify, get.
  rewrite run_cleanups_return by exact H.
  destruct (add_logs_fields (map EvCleanup (_cleanups c)) (add_log EvBaseDestroy c))
    as (H1 & _ & _ & _ & H5 & _).
  unfold destroy_events.
  change (_cleanups (add_log EvBaseDestroy c)) with (_cleanups c).
  set (c1 := add_logs (map EvCleanup (_cleanups c)) (add_log EvBaseDestroy c)) in *.
  change (sweepMessageInterval (set_cleanups [] c1)) with (sweepMessageInterval c1).
  change (sweepMessageInterval (add_log EvBaseDestroy c))
    with (sweepMessageInterval c) in H5.
  rewrite H5.
  destruct (sweepMessageInterval c) as [t |];
    (eexists; split; [reflexivity |]); cbn; rewrite H1; cbn;
    repeat split; rewrite ?H5, <- ?app_assoc; reflexivity.
Qed.

Lemma cleanup_calls_app (fn : nat) (l1 l2 : list Event) :
  cleanup_calls fn (l1 ++ l2) = (cleanup_calls fn l1 + cleanup_calls fn l2)%nat.
Proof.
  unfold cleanup_calls. now rewrite filter_app, length_app.
Qed.

Lemma cleanup_calls_map (fn : nat) (fns : list nat) :
  cleanup_calls fn (map EvCleanup fns) = count_occ Nat.eq_dec fns fn.
Proof.
  unfold cleanup_calls. induction fns as [| g fns IH]; simpl.
  - reflexivity.
  - destruct (Nat.eq_dec g fn) as [-> | Hne].
    + rewrite Nat.eqb_refl. simpl. now rewrite IH.
    + destruct (Nat.eqb fn g) eqn:E.
      * apply Nat.eqb_eq in E. congruence.
      * exact IH.
Qed.

Lemma cleanup_calls_destroy_events (fn : nat) (c : Client) :
  cleanup_calls fn (destroy_events c) = count_occ Nat.eq_dec (_cleanups c) fn.
Proof.
  unfold destroy_events. rewrite !cleanup_calls_app, cleanup_calls_map.
  destruct (sweepMessageInterval c); unfold cleanup_calls; simpl; lia.
Qed.

(** On a client whose pending cleanups all return normally, [destroy()]
    called twice in sequence raises no error; over the
    two calls every pending cleanup is called exactly once and no function
    more than once (the pending set is emptied by the first call); after
    each of the two calls the token and the cached password are null. *)
Theorem destroy_twice (env : Env) (c : Client) :
  NoDup (_cleanups c) ->
  cleanups_return env c ->
  exists c1 c2 evs,
    destroy env c = (Ok tt, c1)
    /\ destroy env c1 = (Ok tt, c2)
    /\ token c1 = JsNull /\ password c1 = JsNull /\ _cleanups c1 = []
    /\ token c2 = JsNull /\ password c2 = JsNull /\ _cleanups c2 = []
    /\ log c2 = (log c ++ evs)%list
    /\ (forall fn, (cleanup_calls fn evs <= 1)%nat)
    /\ (forall fn, In fn (_cleanups c) -> cleanup_calls fn evs = 1%nat).
Proof.
  intros Hnd Hret.
  destruct (destroy_returns env c Hret) as (c1 & Hd1 & Ht1 & Hp1 & Hc1 & Hl1 & Hs1).
  assert (cleanups_return env c1) as Hret1.
  { intros tr fn Hin. rewrite Hc1 in Hin. contradiction. }
  destruct (destroy_returns env c1 Hret1) as (c2 & Hd2 & Ht2 & Hp2 & Hc2 & Hl2 & Hs2).
  exists c1, c2, (destroy_events c ++ destroy_events c1)%list.
  repeat split; try assumption.
  - rewrite Hl2, Hl1. now rewrite app_assoc.
  - intros fn. rewrite cleanup_calls_app, !cleanup_calls_destroy_events, Hc1.
    simpl. rewrite Nat.add_0_r. now apply NoDup_count_occ.
  - intros fn Hin. rewrite cleanup_calls_app, !cleanup_calls_destroy_events, Hc1.
    simpl. rewrite Nat.add_0_r. now apply NoDup_count_occ'.
Qed.

(** The theorem at the sample client, with its two pending cleanups. *)
Lemma destroy_twice_example :
  exists c1 c2 evs,
    destroy calm_env sample_client = (Ok tt, c1)
    /\ destroy calm_env c1 = (Ok tt, c2)
    /\ token c1 = JsNull /\ password c1 = JsNull /\ _cleanups c1 = []
    /\ token c2 = JsNull /\ password c2 = JsNull /\ _cleanups c2 = []
    /\ log c2 = (log sample_client ++ evs)%list
    /\ (forall fn, (cleanup_calls fn evs <= 1)%nat)
    /\ (forall fn, In fn (_cleanups sample_client) -> cleanup_calls fn evs = 1%nat).
Proof.
  apply destroy_twice.
  - simpl. repeat constructor; simpl; intuition discriminate.
  - intros tr fn _. reflexivity.
Defined.

(** C7.  The code at a failing input: the second pending cleanup throws.
    [destroy()] throws at line 569, before the set is cleared and before
    the token and the password are set to null; a second call runs again
    the cleanup that had already run. *)
Lemma destroy_with_throwing_cleanup :
  let r1 := destroy faulty_cleanup_env sample_client in
  let r2 := destroy faulty_cleanup_env (snd r1) in
  NoDup (_cleanups sample_client)
  /\ fst r1 = Throw cleanup_error
  /\ token (snd r1) = JsString "stored"
  /\ password (snd r1) = JsString "hunter2"
  /\ cleanup_calls 1 (log (snd r2)) = 2%nat.
Proof.
  repeat split.
  repeat constructor; simpl; intuition discriminate.
Qed.

(** ** login *)

Lemma truthy_string (s : string) : s <> "" -> truthy (JsString s) = true.
Proof.
  intros H. simpl. destruct (String.eqb s "") eqn:E; [| reflexivity].
  apply String.eqb_eq in E. contradiction.
Qed.

Example strip_scheme_samples :
  strip_scheme "Bot abc" = "abc" /\ strip_scheme "Bearer abc" = "abc"
  /\ strip_scheme "bearer   abc" = "abc" /\ strip_scheme "Botabc" = "abc"
  /\ strip_scheme "abc" = "abc" /\ strip_scheme "a Bot b" = "a Bot b".
Proof. repeat split. Qed.

(** What is left of a token that starts with the scheme and one space. *)
Lemma strip_scheme_Bot (s : string) :
  strip_scheme ("Bot " ++ s) = drop_while is_space s.
Proof. reflexivity. Qed.

Lemma strip_scheme_Bearer (s : string) :
  strip_scheme ("Bearer " ++ s) = drop_while is_space s.
Proof. reflexivity. Qed.

(** For every token and every world in which the connect attempt fails, on
    a client whose pending cleanups all return normally,
    [login(token)] carries out a full [destroy()] (the pending cleanups are
    run and the set emptied, the sweepers and the WebSocket manager are
    destroyed, token and password are null) after the failed connect, and
    then throws the error of the connect, unchanged. *)
Theorem login_connect_failure (env : Env) (c : Client) (v : JsValue)
        (s : string) (e : JsError) :
  default_arg v (token c) = JsString s ->
  s <> "" ->
  ws_connect env (log c) = Throw e ->
  cleanups_return env c ->
  exists c',
    login v env c = (Throw e, c')
    /\ token c' = JsNull /\ password c' = JsNull /\ _cleanups c' = []
    /\ log c' = (log c ++ [EvWsConnect] ++ destroy_events c)%list.
Proof.
  intros Hv Hs Hconn Hret.
  unfold login, bind, get. rewrite Hv, (truthy_string s Hs). cbn [negb].
  unfold modify, try_catch, ws_connect_call.
  cbn [log set_token]. rewrite Hconn.
  set (c2 := set_ws_status _ _).
  assert (cleanups_return env c2) as Hret2 by exact Hret.
  destruct (destroy_returns env c2 Hret2) as (c' & Hd & Ht & Hp & Hc & Hl & _).
  rewrite Hd. exists c'. unfold throw.
  repeat split; try assumption.
  rewrite Hl. subst c2. cbn [log set_ws_status add_log set_token].
  rewrite <- app_assoc. reflexivity.
Qed.

(** The theorem at a client without throwing cleanup. *)
Lemma login_connect_failure_example :
  exists c',
    login (JsString "Bot tok") refusing_env sample_client = (Throw network_error, c')
    /\ token c' = JsNull /\ password c' = JsNull /\ _cleanups c' = []
    /\ log c' = (log sample_client ++ [EvWsConnect] ++ destroy_events sample_client)%list.
Proof.
  apply (login_connect_failure refusing_env sample_client (JsString "Bot tok") "Bot tok").
  - reflexivity.
  - discriminate.
  - reflexivity.
  - intros tr fn _. reflexivity.
Defined.

(** C1.  The code at a failing input: the connect fails and the second
    pending cleanup throws.  The [destroy()] of the catch block (line 359)
    throws in its turn at line 569, so the [throw error] of line 360 is not
    reached: what [login] throws is the error of the cleanup, not the one
    of the connect, and token and password are not cleared. *)
Lemma login_failure_with_throwing_cleanup :
  let r := login (JsString "tok") faulty_cleanup_env sample_client in
  ws_connect faulty_cleanup_env (log sample_client) = Throw network_error
  /\ fst r = Throw cleanup_error
  /\ fst r <> Throw network_error
  /\ token (snd r) = JsString "tok"
  /\ password (snd r) = JsString "hunter2".
Proof.
  repeat split. discriminate.
Qed.

(** C6 (as amended).  The token of [login] is its argument, or the stored
    token when the argument is [undefined].  When that token is empty or
    not a string, [login] throws TOKEN_INVALID and nothing else happens: no
    call is made and the client is as before.  When it is a non-empty
    string, [login] removes a leading scheme ([Bot] or [Bearer] in any
    letter case, with the white space that follows it, if any), stores the
    result as the token and, when the connect succeeds, returns it. *)
Theorem login_token_check (env : Env) (c : Client) (v : JsValue) :
  (empty_or_not_string (default_arg v (token c)) ->
   login v env c = (Throw (js_error "TOKEN_INVALID" []), c))
  /\ (forall s,
         default_arg v (token c) = JsString s -> s <> "" ->
         ws_connect env (log c) = Ok tt ->
         exists c',
           login v env c = (Ok (JsString (strip_scheme s)), c')
           /\ token c' = JsString (strip_scheme s)
           /\ log c' = (log c ++ [EvWsConnect])%list).
Proof.
  split.
  - intros H. unfold login, bind, get.
    destruct (default_arg v (token c)) as [| | b | n | s | | | l] eqn:E;
      try reflexivity.
    rewrite (H s eq_refl). reflexivity.
  - intros s Hv Hs Hconn.
    unfold login, bind, get. rewrite Hv, (truthy_string s Hs). cbn [negb].
    unfold modify, try_catch, ws_connect_call.
    cbn [log set_token]. rewrite Hconn.
    eexists. split; [reflexivity |]. split; reflexivity.
Qed.

(** The theorem at the empty string and at a token with a scheme. *)
Lemma login_token_check_example :
  login (JsString "") calm_env sample_client
  = (Throw (js_error "TOKEN_INVALID" []), sample_client)
  /\ exists c',
       login (JsString "Bot abc") calm_env sample_client = (Ok (JsString "abc"), c')
       /\ token c' = JsString "abc"
       /\ log c' = [EvWsConnect].
Proof.
  split.
  - apply (proj1 (login_token_check calm_env sample_client (JsString ""))).
    intros s [= <-]. reflexivity.
  - apply (proj2 (login_token_check calm_env sample_client (JsString "Bot abc"))
             "Bot abc").
    + reflexivity.
    + discriminate.
    + reflexivity.
Defined.

(** C6 as first stated fails: [undefined] is not a string, and [login]
    called with it (or without argument) takes the stored token and
    connects.  Besides, the scheme is removed in any letter case and without
    a space after it: of the token Bottle, which does not start with the
    prefix "Bot ", what is stored is tle. *)
Lemma login_without_argument_uses_stored_token :
  let r := login JsUndefined calm_env sample_client in
  let r' := login (JsString "Bottle") calm_env sample_client in
  (forall s, JsUndefined <> JsString s)
  /\ token sample_client = JsString "stored"
  /\ fst r = Ok (JsString "stored")
  /\ fst r <> Throw (js_error "TOKEN_INVALID" [])
  /\ log (snd r) = [EvWsConnect]
  /\ strip_named_prefix "Bottle" = "Bottle"
  /\ fst r' = Ok (JsString "tle")
  /\ token (snd r') = JsString "tle".
Proof.
  repeat split; discriminate.
Qed.

(** On a token that starts with the prefix and has no further white space
    after it, the source strips what the words say. *)
Lemma strip_scheme_named_prefix (s : string) :
  drop_while is_space s = s ->
  strip_scheme ("Bot " ++ s) = strip_named_prefix ("Bot " ++ s)
  /\ strip_scheme ("Bearer " ++ s) = strip_named_prefix ("Bearer " ++ s).
Proof.
  intros H. rewrite strip_scheme_Bot, strip_scheme_Bearer, H.
  split; destruct s; reflexivity.
Qed.

(** ** logout *)

(** C8.  [logout()] first sends the session-invalidation POST.  When that
    call fails, its error is thrown and [destroy()] is not reached: the
    client is as before, the call just made apart (token, password, caches,
    timers and pending cleanups are untouched, and no teardown event is
    logged).  When the call succeeds, what follows is [destroy()]. *)
Theorem logout_network_failure (env : Env) (c : Client) :
  (forall e,
      api_post env (log c) AuthLogout = Throw e ->
      exists c',
        logout env c = (Throw e, c')
        /\ c' = add_log (EvPost AuthLogout) c
        /\ token c' = token c /\ password c' = password c
        /\ caches c' = caches c /\ timers c' = timers c
        /\ sweepMessageInterval c' = sweepMessageInterval c
        /\ _cleanups c' = _cleanups c /\ usedCodes c' = usedCodes c
        /\ ws_status c' = ws_status c
        /\ log c' = (log c ++ [EvPost AuthLogout])%list)
  /\ (forall r,
         api_post env (log c) AuthLogout = Ok r ->
         logout env c = destroy env (add_log (EvPost AuthLogout) c)).
Proof.
  split.
  - intros e H. exists (add_log (EvPost AuthLogout) c).
    unfold logout, bind, post. rewrite H. repeat split.
  - intros r H. unfold logout, bind, post. rewrite H. reflexivity.
Qed.

(** The theorem in a world where the REST layer is down, and in one where
    it answers. *)
Lemma logout_network_failure_example :
  (exists c',
      logout offline_env sample_client = (Throw network_error, c')
      /\ c' = add_log (EvPost AuthLogout) sample_client
      /\ token c' = JsString "stored" /\ password c' = JsString "hunter2"
      /\ caches c' = caches sample_client /\ timers c' = timers sample_client
      /\ sweepMessageInterval c' = Some SweepMessagesTimer
      /\ _cleanups c' = [1%nat; 2%nat] /\ usedCodes c' = []
      /\ ws_status c' = IDLE
      /\ log c' = [EvPost AuthLogout])
  /\ logout calm_env sample_client
     = destroy calm_env (add_log (EvPost AuthLogout) sample_client).
Proof.
  split.
  - apply (proj1 (logout_network_failure offline_env sample_client) network_error).
    reflexivity.
  - apply (proj2 (logout_network_failure calm_env sample_client) (obj [])).
    reflexivity.
Defined.

(** ** remoteAuth *)

Lemma prefix_app (p s : string) :
  String.prefix p s = true <-> exists r, s = p ++ r.
Proof.
  revert s. induction p as [| a p IH]; intros s.
  - split; [intros _; now exists s | intros _; now destruct s].
  - destruct s as [| b s]; simpl.
    + split; [discriminate | intros [r Hr]; discriminate].
    + destruct (ascii_dec a b) as [-> | Hne].
      * rewrite IH. split; intros [r Hr]; exists r; [now subst | now injection Hr].
      * split; [discriminate | intros [r Hr]; injection Hr as -> _; contradiction].
Qed.

Lemma length_append (a b : string) :
  String.length (a ++ b) = (String.length a + String.length b)%nat.
Proof.
  induction a as [| ch a IH]; simpl; [reflexivity | now rewrite IH].
Qed.

(** The test of lines 472-476 says what the words say. *)
Lemma valid_remote_auth_url_spec (u : Url) :
  valid_remote_auth_url u = true <-> host_allowed u /\ reserved_path u.
Proof.
  unfold valid_remote_auth_url, host_allowed, reserved_path, allowed_hosts.
  rewrite negb_true_iff, !orb_false_iff, !negb_false_iff.
  simpl existsb. rewrite orb_false_r, orb_true_iff, !String.eqb_eq.
  rewrite prefix_app, Nat.leb_gt.
  split.
  - intros [[Hh [rest Hr]] Hlen]. split; [exact Hh |].
    exists rest. split; [| exact Hr].
    intros ->. rewrite Hr in Hlen. simpl in Hlen. lia.
  - intros [Hh [rest [Hne Hr]]]. split; [split; [exact Hh | now exists rest] |].
    rewrite Hr, length_append. simpl.
    destruct rest; [contradiction | simpl; lia].
Qed.

(** C10.  Whenever the status of the connection is not READY,
    [remoteAuth(url, forceAccept)] throws CLIENT_NOT_READY, whatever [url]
    and [forceAccept] are and whatever the URL parser would make of [url];
    no call is made and the client is as before. *)
Theorem remoteAuth_requires_ready (env : Env) (c : Client) (url : string)
        (forceAccept : bool) :
  ws_status c <> READY ->
  remoteAuth url forceAccept env c
  = (Throw (js_error "CLIENT_NOT_READY" ["Remote Auth"]), c).
Proof.
  intros H. cbv beta iota delta [remoteAuth bind isReady get ret].
  destruct (ws_status c) eqn:E; try reflexivity. now elim H.
Qed.

(** The theorem at an idle client, with a URL that the parser refuses. *)
Lemma remoteAuth_requires_ready_example :
  new_URL calm_env "not a url" = Throw invalid_url_error
  /\ remoteAuth "not a url" true calm_env sample_client
     = (Throw (js_error "CLIENT_NOT_READY" ["Remote Auth"]), sample_client).
Proof.
  split; [reflexivity |].
  apply remoteAuth_requires_ready. discriminate.
Defined.

(** C9 (as amended).  On a client whose status is READY, for every URL
    whose host is not one of the service domains or whose path is not
    "/ra/" followed by a non-empty remainder, [remoteAuth] throws
    INVALID_REMOTE_AUTH_URL; no call is made and the client is as before. *)
Theorem remoteAuth_rejects_foreign_url (env : Env) (c : Client) (url : string)
        (forceAccept : bool) (u : Url) :
  ws_status c = READY ->
  new_URL env url = Ok u ->
  ~ host_allowed u \/ ~ reserved_path u ->
  remoteAuth url forceAccept env c
  = (Throw (js_error "INVALID_REMOTE_AUTH_URL" []), c).
Proof.
  intros Hready Hurl Hbad.
  cbv beta iota delta [remoteAuth bind isReady get ret parse_URL].
  rewrite Hready. cbn [Status_eqb negb]. rewrite Hurl.
  destruct (valid_remote_auth_url u) eqn:E; [| reflexivity].
  apply valid_remote_auth_url_spec in E. tauto.
Qed.

(** The theorem at a foreign host, and at a path without remainder. *)
Lemma remoteAuth_rejects_foreign_url_example :
  remoteAuth "https://evil.example/ra/abc123" false calm_env ready_client
  = (Throw (js_error "INVALID_REMOTE_AUTH_URL" []), ready_client)
  /\ remoteAuth "https://discord.com/ra/" true calm_env ready_client
     = (Throw (js_error "INVALID_REMOTE_AUTH_URL" []), ready_client).
Proof.
  split.
  - apply (remoteAuth_rejects_foreign_url calm_env ready_client _ false
             (mkUrl "evil.example" "/ra/abc123")).
    + reflexivity.
    + reflexivity.
    + left. intros [H | H]; discriminate H.
  - apply (remoteAuth_rejects_foreign_url calm_env ready_client _ true
             (mkUrl "discord.com" "/ra/")).
    + reflexivity.
    + reflexivity.
    + right. intros [rest [Hne H]]. simpl in H.
      destruct rest; [contradiction | discriminate H].
Defined.

(** The handshake on a well-formed URL: the fingerprint is posted, and the
    caller gets the continuations without any of them being run. *)
Example remoteAuth_sample :
  let r := remoteAuth "https://discord.com/ra/abc123" false calm_env ready_client in
  fst r = Ok (Confirm JsUndefined)
  /\ log (snd r) = [EvPost (RemoteAuthInit "abc123")].
Proof. split; reflexivity. Qed.

(** C9 as first stated fails: on a client that is not READY the error is
    CLIENT_NOT_READY, whatever the URL. *)
Lemma remoteAuth_foreign_url_not_ready :
  let r := remoteAuth "https://evil.example/ra/abc123" false calm_env sample_client in
  new_URL calm_env "https://evil.example/ra/abc123" = Ok (mkUrl "evil.example" "/ra/abc123")
  /\ ~ host_allowed (mkUrl "evil.example" "/ra/abc123")
  /\ fst r = Throw (js_error "CLIENT_NOT_READY" ["Remote Auth"])
  /\ fst r <> Throw (js_error "INVALID_REMOTE_AUTH_URL" []).
Proof.
  repeat split; try discriminate.
  intros [H | H]; discriminate H.
Qed.

(** ** normalLogin *)

Lemma mfa_code_accepted_nonempty (code : string) :
  mfa_code_accepted code = true -> code <> "".
Proof.
  intros H ->. discriminate H.
Qed.

Example mfa_patterns :
  mfa_code_accepted "123456" = true /\ mfa_code_accepted "abcd-1234" = true
  /\ mfa_code_accepted "abc" = false /\ mfa_code_accepted "12345" = false
  /\ mfa_code_accepted "abcd1234" = false.
Proof. repeat split. Qed.

(** Both patterns are searched for anywhere in the code, and the letters of
    the backup pattern are lower-case ones. *)
Example mfa_patterns_unanchored :
  mfa_code_accepted "x1234567" = true /\ mfa_code_accepted "ABCD-EFGH" = false.
Proof. split; reflexivity. Qed.

(** C4 (as amended).  When the response to the first credential call
    carries an MFA ticket (with the [mfa] flag) and no token: if the
    second-factor code is a string in which the pattern of six digits or the
    backup-code pattern is found, the letters of a backup code being
    lower-case ones (four of [a-z0-9], a dash, four of [a-z0-9]), the MFA
    endpoint is called with that code and the ticket, and the token it
    returns is passed to [login]; otherwise normalLogin throws
    LOGIN_FAILED_2FA and the first call is the only one made. *)
Theorem normalLogin_second_factor (env : Env) (c : Client)
        (username password_arg mfaCode : JsValue) (u p : string) (data : JsObj) :
  username = JsString u -> u <> "" ->
  default_arg password_arg (password c) = JsString p -> p <> "" ->
  api_post env (log c) (AuthLogin u p) = Ok data ->
  truthy (data "token") = false ->
  truthy (data "ticket") = true ->
  truthy (data "mfa") = true ->
  let c1 := set_password (JsString p) (add_log (EvPost (AuthLogin u p)) c) in
  (forall code data2,
      mfaCode = JsString code -> mfa_code_accepted code = true ->
      api_post env (log c1) (AuthMfaTotp code (data "ticket")) = Ok data2 ->
      normalLogin username password_arg mfaCode env c
      = login (data2 "token") env (add_log (EvPost (AuthMfaTotp code (data "ticket"))) c1))
  /\ ((forall code, mfaCode = JsString code -> mfa_code_accepted code = false) ->
      normalLogin username password_arg mfaCode env c
      = (Throw (js_error "LOGIN_FAILED_2FA" []), c1)
      /\ log c1 = (log c ++ [EvPost (AuthLogin u p)])%list).
Proof.
  intros -> Hu Hp Hpne Hpost Htok Htick Hmfa c1.
  assert (forall m,
             normalLogin (JsString u) password_arg m env c
             = match m with
               | JsString code =>
                   if negb (truthy m) then (Throw (js_error "LOGIN_FAILED_2FA" []), c1)
                   else if mfa_code_accepted code
                        then (data2 <- post (AuthMfaTotp code (data "ticket")) ;;
                              login (data2 "token")) env c1
                        else (Throw (js_error "LOGIN_FAILED_2FA" []), c1)
               | _ => (Throw (js_error "LOGIN_FAILED_2FA" []), c1)
               end) as Hrun.
  { intros m. unfold normalLogin.
    cbv beta iota delta [bind get]. rewrite Hp, (truthy_string u Hu), (truthy_string p Hpne).
    cbn [negb orb]. cbv beta iota delta [bind post modify]. rewrite Hpost.
    rewrite Htok, Htick, Hmfa. cbn [negb andb].
    destruct m as [| | b | n | code | | | l]; try reflexivity.
    destruct (negb (truthy (JsString code))); [reflexivity |].
    unfold mfa_code_accepted.
    destruct (regex_test normal2fa code || regex_test backupCode code); reflexivity. }
  split.
  - intros code data2 -> Hacc Hpost2. rewrite Hrun.
    rewrite (truthy_string code (mfa_code_accepted_nonempty code Hacc)), Hacc.
    cbn [negb]. cbv beta iota delta [bind post]. rewrite Hpost2. reflexivity.
  - intros Hrej. split; [| reflexivity]. rewrite Hrun.
    destruct mfaCode as [| | b | n | code | | | l]; try reflexivity.
    rewrite (Hrej code eq_refl). destruct (negb (truthy (JsString code))); reflexivity.
Qed.

(** The two scenarios of the spec: the code 123456 with the ticket t1, and
    the code abc. *)
Lemma normalLogin_second_factor_example :
  let c1 := set_password (JsString "hunter2")
              (add_log (EvPost (AuthLogin "user@example.com" "hunter2")) sample_client) in
  normalLogin (JsString "user@example.com") JsUndefined (JsString "123456")
              mfa_env sample_client
  = login (JsString "Bot tok") mfa_env
          (add_log (EvPost (AuthMfaTotp "123456" (JsString "t1"))) c1)
  /\ normalLogin (JsString "user@example.com") JsUndefined (JsString "abc")
                 mfa_env sample_client
     = (Throw (js_error "LOGIN_FAILED_2FA" []), c1)
  /\ log c1 = [EvPost (AuthLogin "user@example.com" "hunter2")].
Proof.
  pose proof (normalLogin_second_factor mfa_env sample_client
                (JsString "user@example.com") JsUndefined) as H.
  split.
  - refine (proj1 (H (JsString "123456") "user@example.com" "hunter2"
                     (obj [("ticket", JsString "t1"); ("mfa", JsBool true)])
                     eq_refl _ eq_refl _ eq_refl eq_refl eq_refl eq_refl)
                  "123456" (obj [("token", JsString "Bot tok")]) eq_refl eq_refl eq_refl);
      discriminate.
  - refine (proj2 (H (JsString "abc") "user@example.com" "hunter2"
                     (obj [("ticket", JsString "t1"); ("mfa", JsBool true)])
                     eq_refl _ eq_refl _ eq_refl eq_refl eq_refl eq_refl) _);
      try discriminate.
    intros code [= <-]. reflexivity.
Defined.

(** C4 as first stated fails: ABCD-EFGH is four alphanumeric characters, a
    dash and four alphanumeric characters, and normalLogin refuses it, the
    pattern of the source taking lower-case letters only. *)
Lemma normalLogin_upper_case_backup_code :
  let r := normalLogin (JsString "user@example.com") JsUndefined (JsString "ABCD-EFGH")
                       mfa_env sample_client in
  backup_code_shape "ABCD-EFGH"
  /\ fst r = Throw (js_error "LOGIN_FAILED_2FA" [])
  /\ log (snd r) = [EvPost (AuthLogin "user@example.com" "hunter2")].
Proof.
  split.
  - exists "ABCD", "EFGH". repeat split.
  - split; reflexivity.
Qed.

(** What the words describe and the lower-case letters allow is accepted. *)
Lemma six_digit_code_accepted (code : string) :
  six_digit_code code -> mfa_code_accepted code = true.
Proof.
  intros [Hlen Hd]. unfold mfa_code_accepted.
  destruct code as [| c1 [| c2 [| c3 [| c4 [| c5 [| c6 [| c7 rest]]]]]]];
    try discriminate Hlen.
  simpl in Hd. rewrite !andb_true_iff in Hd.
  destruct Hd as (H1 & H2 & H3 & H4 & H5 & H6 & _).
  unfold normal2fa. simpl. now rewrite H1, H2, H3, H4, H5, H6.
Qed.

Example normalLogin_mfa_run :
  let r := normalLogin (JsString "user@example.com") JsUndefined (JsString "123456")
                       mfa_env sample_client in
  fst r = Ok (JsString "tok")
  /\ log (snd r) = [EvPost (AuthLogin "user@example.com" "hunter2");
                    EvPost (AuthMfaTotp "123456" (JsString "t1")); EvWsConnect]
  /\ token (snd r) = JsString "tok".
Proof. repeat split. Qed.

(** ** redeemNitro *)

Lemma call_marks_used_refl (code : string) (c : Client) :
  call_marks_used code c c.
Proof. unfold call_marks_used. split; lia. Qed.

Lemma call_marks_used_trans (code : string) (c1 c2 c3 : Client) :
  call_marks_used code c1 c2 -> call_marks_used code c2 c3 ->
  call_marks_used code c1 c3.
Proof. unfold call_marks_used. intros [H1 H2] [H3 H4]. split; lia. Qed.

Lemma redeem_posts_snoc (code code0 : string) (ch : JsValue) (l : list Event) :
  redeem_posts code (l ++ [EvPost (RedeemGiftCode code0 ch)])
  = (redeem_posts code l + Nat.b2n (String.eqb code code0))%nat.
Proof.
  unfold redeem_posts. rewrite filter_app, length_app. simpl.
  destruct (String.eqb code code0); reflexivity.
Qed.

Lemma used_snoc (code code0 : string) (l : list string) :
  used code (l ++ [code0]) = used code l || String.eqb code code0.
Proof.
  unfold used. rewrite existsb_app. simpl. now rewrite orb_false_r.
Qed.

(** One turn of the loop on a code that is not used yet: the call, then the
    push, whatever the outcome of the call. *)
Lemma redeem_turn (code code0 : string) (ch : JsValue) (c : Client) :
  used code0 (usedCodes c) = false ->
  call_marks_used code c
    (set_usedCodes (usedCodes c ++ [code0])
       (add_log (EvPost (RedeemGiftCode code0 ch)) c)).
Proof.
  intros Hfree. unfold call_marks_used.
  cbn [log usedCodes set_usedCodes add_log].
  rewrite redeem_posts_snoc, used_snoc.
  destruct (String.eqb code code0) eqn:E.
  - apply String.eqb_eq in E. subst code0. rewrite Hfree. simpl. lia.
  - rewrite orb_false_r. simpl. lia.
Qed.

Lemma redeem_loop_marks (code : string) (env : Env) (codes : list string)
      (ch : JsValue) (f : bool) :
  forall (redeem : bool) (c : Client),
    call_marks_used code c (snd (redeem_loop codes ch f redeem env c)).
Proof.
  induction codes as [| code0 rest IH]; intros redeem c.
  - apply call_marks_used_refl.
  - cbn [redeem_loop]. cbv beta iota delta [bind get].
    destruct (used code0 (usedCodes c)) eqn:Hu.
    + apply IH.
    + cbv beta iota delta [settle post push_usedCode modify].
      pose proof (redeem_turn code code0 (if truthy ch then ch else JsNull) c Hu)
        as Hstep.
      destruct (api_post env (log c) _) as [r | e]; cbv beta.
      * eapply call_marks_used_trans; [exact Hstep | apply IH].
      * destruct f.
        -- exact Hstep.
        -- eapply call_marks_used_trans; [exact Hstep | apply IH].
Qed.

Lemma redeemNitro_marks (code : string) (env : Env) (nitro ch : JsValue)
      (f : bool) (c : Client) :
  call_marks_used code c (snd (redeemNitro nitro ch f env c)).
Proof.
  unfold redeemNitro.
  destruct nitro as [| | b | n | text | | | l]; try apply call_marks_used_refl.
  destruct (nitroArray text) as [matches |].
  - apply redeem_loop_marks.
  - apply call_marks_used_refl.
Qed.

Lemma lifetime_marks (code : string) (env : Env) (acts : list Action) :
  within_one_window acts ->
  forall c, call_marks_used code c (snd (lifetime acts env c)).
Proof.
  unfold within_one_window.
  induction acts as [| a acts IH]; intros Hw c.
  - apply call_marks_used_refl.
  - cbn [lifetime]. unfold bind at 1.
    assert (exists c1, act a env c = (Ok tt, c1) /\ call_marks_used code c c1)
      as [c1 [Hact Hstep]].
    { destruct a as [nitro ch f |].
      - pose proof (redeemNitro_marks code env nitro ch f c) as H.
        cbn [act]. unfold try_catch, bind at 1.
        destruct (redeemNitro nitro ch f env c) as [[b | e] c1]; simpl in H;
          exists c1; split; auto.
      - exfalso. apply Hw. now left. }
    rewrite Hact. eapply call_marks_used_trans; [exact Hstep |].
    apply IH. intros Hin. apply Hw. now right.
Qed.

(** C2 as first stated fails: the hourly interval empties the used list,
    and a code redeemed before is sent again after it, by calls run one
    after the other. *)
Lemma redeemed_again_after_hourly_reset :
  let acts := [Redeem gift_text JsNull false; HourlyFire; Redeem gift_text JsNull false] in
  let c' := snd (lifetime acts calm_env sample_client) in
  codeArray ["discord.gift/ABCDEFGHJKLMNPQR"] = ["ABCDEFGHJKLMNPQR"]
  /\ redeem_posts "ABCDEFGHJKLMNPQR" (log sample_client) = 0%nat
  /\ redeem_posts "ABCDEFGHJKLMNPQR" (log c') = 2%nat
  /\ log c' = [EvPost (RedeemGiftCode "ABCDEFGHJKLMNPQR" JsNull);
               EvPost (RedeemGiftCode "ABCDEFGHJKLMNPQR" JsNull)].
Proof.
  repeat split.
Qed.


(** * Further properties *)

(** ** The shard plan *)

Lemma filter_all_true {A} (f : A -> bool) (l : list A) :
  Forall (fun x => f x = true) l -> filter f l = l.
Proof.
  induction 1 as [| x l Hx _ IH]; simpl; [reflexivity |].
  now rewrite Hx, IH.
Qed.

(** A list of distinct accepted shard ids goes through the Set as it is. *)
Lemma Set_add_distinct (l : list JsValue) :
  forall acc,
    Forall (fun v => shard_filter v = true) (acc ++ l) -> NoDup (acc ++ l) ->
    fold_left Set_add l acc = (acc ++ l)%list.
Proof.
  induction l as [| a l IH]; intros acc Hgood Hnd; simpl.
  - now rewrite app_nil_r.
  - assert (Set_has acc a = false) as Hfresh.
    { destruct (Set_has acc a) eqn:E; [| reflexivity]. exfalso.
      apply Forall_app in Hgood as [Hacc Hl]. inversion Hl; subst.
      apply Set_has_In in E; auto.
      apply NoDup_remove_2 in Hnd. apply Hnd. apply in_or_app. now left. }
    unfold Set_add at 2. rewrite Hfresh.
    rewrite IH; rewrite <- app_assoc; auto.
Qed.

Lemma normalizeShardList_fixed (l : list JsValue) :
  Forall (fun v => shard_filter v = true) l -> NoDup l ->
  normalizeShardList l = l.
Proof.
  intros Hgood Hnd. unfold normalizeShardList, Set_of.
  rewrite filter_all_true by exact Hgood.
  now apply (Set_add_distinct l []).
Qed.

(** X1.  Normalising a shard list twice gives what normalising it once gives. *)
Theorem normalizeShardList_idempotent (items : list JsValue) :
  normalizeShardList (normalizeShardList items) = normalizeShardList items.
Proof.
  destruct (normalizeShardList_spec items) as [Hnd [Hm _]].
  apply normalizeShardList_fixed; [| exact Hnd].
  apply Forall_forall. intros x Hx. apply Hm in Hx as [_ Hx].
  now apply shard_filter_spec.
Qed.

Lemma normalizeShardList_length (items : list JsValue) :
  (List.length (normalizeShardList items) <= List.length items)%nat.
Proof.
  destruct (normalizeShardList_spec items) as [Hnd [Hm _]].
  apply NoDup_incl_length; [exact Hnd |].
  intros x Hx. now apply Hm in Hx.
Qed.

Lemma NoDup_map_injective {A B} (f : A -> B) (l : list A) :
  (forall x y, f x = f y -> x = y) -> NoDup l -> NoDup (map f l).
Proof.
  intros Hinj. induction 1 as [| x l Hx _ IH]; simpl; constructor; auto.
  intros Hin. apply in_map_iff in Hin as [y [Hy Hin]].
  apply Hinj in Hy. now subst.
Qed.

Lemma dense_range_accepted (len : Z) :
  len <= 2147483648 ->
  Forall (fun v => shard_filter v = true) (dense_range len) /\ NoDup (dense_range len).
Proof.
  intros Hlen. unfold dense_range. split.
  - apply Forall_forall. intros x Hx. apply in_map_iff in Hx as [i [<- Hi]].
    apply in_seq in Hi. apply shard_filter_spec. exists (Z.of_nat i).
    split; [reflexivity | lia].
  - apply NoDup_map_injective; [| apply seq_NoDup].
    intros i j H. injection H as H. lia.
Qed.

(** X2.  With no shard list given and none in the environment, the shards are
    the dense range below the shard count (its integer part when it has a
    fraction), for a count up to 2^31; the count itself is kept as given. *)
Theorem dense_shard_range (data : EnvData) (defaults o : Options) (n : JsNum) :
  data_SHARDS data = None -> data_SHARD_COUNT data = None ->
  o "shards" = JsUndefined -> o "shardCount" = JsNumber n ->
  ToLength n <= 2147483648 ->
  exists o',
    resolveShards data defaults o = Ok o'
    /\ o' "shards" = JsArray (dense_range (ToLength n))
    /\ o' "shardCount" = JsNumber n.
Proof.
  intros HS HC Hsh Hcount Hlen. unfold resolveShards.
  rewrite HS, HC, Hsh.
  replace (if strict_eq JsUndefined (defaults "shards") then Ok o else Ok o)
    with (Ok o) by (destruct (strict_eq _ _); reflexivity).
  rewrite Hsh. cbn [isArray].
  replace (if strict_eq (o "shardCount") (defaults "shardCount") then o else o)
    with o by (destruct (strict_eq _ _); reflexivity).
  rewrite Hsh, Hcount. cbn [typeof].
  unfold Array_from_length.
  destruct (4294967295 <? ToLength n) eqn:E; [apply Z.ltb_lt in E; lia |].
  fold (dense_range (ToLength n)). cbn [JsType_eqb].
  eexists. split; [reflexivity |].
  destruct (dense_range_accepted (ToLength n) Hlen) as [Hgood Hnd].
  split.
  - cbn. now rewrite normalizeShardList_fixed.
  - cbn. exact Hcount.
Qed.

(** The theorem at the counts 3 and 2.5. *)
Lemma dense_shard_range_example :
  (exists o',
      resolveShards no_env_data sample_defaults
        (set_opt sample_options "shardCount" (JsNumber (Int 3))) = Ok o'
      /\ o' "shards" = JsArray [JsNumber (Int 0); JsNumber (Int 1); JsNumber (Int 2)]
      /\ o' "shardCount" = JsNumber (Int 3))
  /\ (exists o',
         resolveShards no_env_data sample_defaults
           (set_opt sample_options "shardCount" (JsNumber (NonInt 2 1))) = Ok o'
         /\ o' "shards" = JsArray [JsNumber (Int 0); JsNumber (Int 1)]
         /\ o' "shardCount" = JsNumber (NonInt 2 1)).
Proof.
  split.
  - apply (dense_shard_range no_env_data sample_defaults _ (Int 3));
      try reflexivity. discriminate.
  - apply (dense_shard_range no_env_data sample_defaults _ (NonInt 2 1));
      try reflexivity. discriminate.
Defined.

(** X3.  A shard given as a single number becomes a list: the list of that
    number when it is a non-negative integer below 2^31, the empty list
    otherwise. *)
Theorem scalar_shard (data : EnvData) (defaults o : Options) (n : JsNum) :
  o "shards" = JsNumber n ->
  strict_eq (JsNumber n) (defaults "shards") = false \/ data_SHARDS data = None ->
  exists o',
    resolveShards data defaults o = Ok o'
    /\ (int32_nonneg_integer (JsNumber n) -> o' "shards" = JsArray [JsNumber n])
    /\ (~ int32_nonneg_integer (JsNumber n) -> o' "shards" = JsArray []).
Proof.
  intros Hsh Hdef. unfold resolveShards. rewrite Hsh.
  replace (if strict_eq (JsNumber n) (defaults "shards")
           then match data_SHARDS data with
                | Some (Ok v) => Ok (set_opt o "shards" v)
                | Some (Throw e) => Throw e
                | None => Ok o
                end
           else Ok o) with (Ok o).
  2: { destruct Hdef as [-> | ->]; [reflexivity |].
       destruct (strict_eq _ _); reflexivity. }
  rewrite Hsh. cbn [isArray].
  set (o2 := if strict_eq (o "shardCount") (defaults "shardCount") then _ else o).
  assert (o2 "shards" = JsNumber n) as H2.
  { subst o2. destruct (strict_eq (o "shardCount") _); [| assumption].
    destruct (data_SHARD_COUNT data); exact Hsh. }
  rewrite H2. cbn [typeof JsType_eqb].
  eexists. split; [reflexivity |]. cbn. rewrite H2.
  unfold normalizeShardList. cbn [filter].
  split; intros H.
  - apply shard_filter_spec in H. now rewrite H.
  - destruct (shard_filter (JsNumber n)) eqn:E; [| reflexivity].
    apply shard_filter_spec in E. contradiction.
Qed.

(** The theorem at the shards 4 and -1. *)
Lemma scalar_shard_example :
  (exists o',
      resolveShards no_env_data sample_defaults
        (set_opt sample_options "shards" (JsNumber (Int 4))) = Ok o'
      /\ o' "shards" = JsArray [JsNumber (Int 4)])
  /\ (exists o',
         resolveShards no_env_data sample_defaults
           (set_opt sample_options "shards" (JsNumber (Int (-1)))) = Ok o'
         /\ o' "shards" = JsArray []).
Proof.
  split.
  - destruct (scalar_shard no_env_data sample_defaults
                (set_opt sample_options "shards" (JsNumber (Int 4))) (Int 4)
                eq_refl (or_introl eq_refl)) as [o' [Hr [Hok _]]].
    exists o'. split; [exact Hr |]. apply Hok.
    exists 4. split; [reflexivity | lia].
  - destruct (scalar_shard no_env_data sample_defaults
                (set_opt sample_options "shards" (JsNumber (Int (-1)))) (Int (-1))
                eq_refl (or_introl eq_refl)) as [o' [Hr [_ Hbad]]].
    exists o'. split; [exact Hr |]. apply Hbad.
    intros [z [Hz Hr']]. injection Hz as <-. lia.
Defined.

(** X4.  When the shard count is left at its default and the environment gives
    none, it becomes the length of the shard list as given, duplicates and
    refused entries included: the list that is kept is never longer than
    the count. *)
Theorem shard_count_from_list_length (data : EnvData) (defaults o : Options)
        (items : list JsValue) :
  o "shards" = JsArray items ->
  data_SHARD_COUNT data = None ->
  strict_eq (o "shardCount") (defaults "shardCount") = true ->
  exists o' res,
    resolveShards data defaults o = Ok o'
    /\ o' "shardCount" = JsNumber (Int (Z.of_nat (List.length items)))
    /\ o' "shards" = JsArray res
    /\ (List.length res <= List.length items)%nat.
Proof.
  intros Hsh HC Hdef. unfold resolveShards. rewrite Hsh. cbn [strict_eq].
  rewrite Hdef, HC, Hsh. cbn [isArray array_length].
  set (o2 := set_opt o "shardCount" _).
  assert (o2 "shards" = JsArray items) as H2 by exact Hsh.
  rewrite H2. cbn [typeof JsType_eqb]. rewrite H2.
  eexists. exists (normalizeShardList items).
  split; [reflexivity |]. repeat split.
  apply normalizeShardList_length.
Qed.

(** The theorem at the list 5, 5: the count is 2 and one shard is kept. *)
Lemma shard_count_from_list_length_example :
  exists o' res,
    resolveShards no_env_data sample_defaults
      (set_opt sample_options "shards" (JsArray [JsNumber (Int 5); JsNumber (Int 5)]))
    = Ok o'
    /\ o' "shardCount" = JsNumber (Int 2)
    /\ o' "shards" = JsArray res
    /\ (List.length res <= 2)%nat.
Proof.
  apply (shard_count_from_list_length no_env_data sample_defaults _
           [JsNumber (Int 5); JsNumber (Int 5)]); reflexivity.
Defined.

Lemma first_failure_none (l : list (bool * JsError)) :
  first_failure l = None -> forall b e, In (b, e) l -> b = false.
Proof.
  induction l as [| [[|] e'] l IH]; simpl; intros H b e Hin.
  - contradiction.
  - discriminate.
  - destruct Hin as [Hin | Hin]; [now injection Hin as <- _ | eauto].
Qed.

(** What the normalisation leaves in [shards]: never a number; an array
    only as the outcome of [normalizeShardList]; [undefined] only when the
    shard count is not a number. *)
Lemma resolveShards_shape (data : EnvData) (defaults o o1 : Options) :
  resolveShards data defaults o = Ok o1 ->
  (forall l, o1 "shards" = JsArray l -> exists raw, l = normalizeShardList raw)
  /\ (o1 "shards" = JsUndefined -> forall n, o1 "shardCount" <> JsNumber n)
  /\ (forall n, o1 "shards" <> JsNumber n).
Proof.
  unfold resolveShards.
  match goal with |- context [match ?s with Ok _ => _ | Throw e => Throw e end = _] =>
    destruct s as [oa | e] end; [| discriminate].
  set (o2 := if strict_eq (oa "shardCount") (defaults "shardCount") then _ else oa).
  clearbody o2. intros H.
  destruct (o2 "shards") as [| | b | n | s | | | l] eqn:E; cbn [typeof JsType_eqb] in H.
  - destruct (o2 "shardCount") as [| | b | n | s | | | l] eqn:EC;
      try (rewrite E in H; injection H as <-; repeat split; intros; congruence).
    destruct (Array_from_length n) as [l | e]; [| discriminate].
    injection H as <-. cbn. repeat split; intros; try discriminate.
    injection H as <-. now exists l.
  - rewrite E in H. injection H as <-. repeat split; intros; congruence.
  - rewrite E in H. injection H as <-. repeat split; intros; congruence.
  - injection H as <-. cbn. repeat split; intros; try discriminate.
    injection H as <-. now exists [o2 "shards"].
  - rewrite E in H. injection H as <-. repeat split; intros; congruence.
  - rewrite E in H. injection H as <-. repeat split; intros; congruence.
  - rewrite E in H. injection H as <-. repeat split; intros; congruence.
  - rewrite E in H. injection H as <-. cbn. repeat split; intros; try discriminate.
    injection H as <-. now exists l.
Qed.

Lemma _validateOptions_shards (Intents_resolve : JsValue -> Res JsValue)
      (captchaServices : list string) (pam : bool) (o1 o2 : Options) :
  _validateOptions Intents_resolve captchaServices pam o1 = Ok o2 ->
  o2 "shards" = o1 "shards" /\ o2 "shardCount" = o1 "shardCount"
  /\ first_failure (checks_shards o2) = None.
Proof.
  unfold _validateOptions.
  destruct (is_type TUndefined (o1 "intents")); [discriminate |].
  destruct (Intents_resolve (o1 "intents")) as [bits | e]; [| discriminate].
  rewrite !first_failure_app.
  destruct (first_failure (checks_before_shards _ _ _)); [discriminate |].
  destruct (first_failure (checks_shards _)) eqn:E; [discriminate |].
  destruct (first_failure (checks_after_shards _)); [discriminate |].
  intros [= <-]. repeat split. exact E.
Qed.

(** X5.  The shard plan of every client that the constructor lets through: the
    shard count is a number not below 1; the shards are never [undefined]
    nor a number; when they are a list, the list is not empty, has no
    duplicate and holds only non-negative integers below 2^31; what is not
    a list is the string auto or a falsy value. *)
Theorem constructed_client_shard_plan
        (Intents_resolve : JsValue -> Res JsValue) (captchaServices : list string)
        (proxy_agent_missing : bool) (data : EnvData) (defaults o : Options)
        (c : Client) :
  new_Client Intents_resolve captchaServices proxy_agent_missing data defaults o = Ok c ->
  number_at_least_1 (options c "shardCount")
  /\ options c "shards" <> JsUndefined
  /\ (forall n, options c "shards" <> JsNumber n)
  /\ (forall l, options c "shards" = JsArray l ->
                l <> [] /\ NoDup l /\ Forall int32_nonneg_integer l)
  /\ (isArray (options c "shards") = false ->
      options c "shards" = JsString "auto" \/ truthy (options c "shards") = false).
Proof.
  unfold new_Client.
  destruct (resolveShards data defaults o) as [o1 | e] eqn:ER; [| discriminate].
  destruct (_validateOptions _ _ _ o1) as [o2 | e] eqn:EV; [| discriminate].
  intros [= <-]. cbn [options].
  destruct (resolveShards_shape _ _ _ _ ER) as (Harr & Hundef & Hnum).
  destruct (_validateOptions_shards _ _ _ _ _ EV) as (Hs & Hc & Hchecks).
  pose proof (first_failure_none _ Hchecks) as Hnone.
  rewrite <- Hs in Harr, Hundef, Hnum. rewrite <- Hc in Hundef.
  clear Hs Hc ER EV.
  unfold checks_shards in Hnone.
  assert (number_at_least_1 (o2 "shardCount")) as Hcount.
  { specialize (Hnone _ _ (or_introl eq_refl)).
    destruct (o2 "shardCount") as [| | b | n | s | | | l]; try discriminate.
    destruct n as [| | | z | fl fr]; simpl in Hnone; try discriminate.
    - now left.
    - right. left. exists z. split; [reflexivity |]. apply Z.ltb_ge in Hnone. lia.
    - right. right. exists fl, fr. split; [reflexivity |].
      apply Z.ltb_ge in Hnone. lia. }
  split; [exact Hcount |].
  split.
  { intros Hu. destruct Hcount as [H | [[z [H _]] | [fl [fr [H _]]]]];
      eapply Hundef; eauto. }
  split; [exact Hnum |]. split.
  - intros l Hl.
    pose proof (Hnone _ _ (or_intror (or_intror (or_introl eq_refl)))) as H3.
    rewrite Hl in H3. simpl in H3.
    destruct (Harr l Hl) as [raw ->].
    destruct (normalizeShardList_spec raw) as [Hnd [Hm _]].
    split; [| split; [exact Hnd |]].
    + intros Hnil. rewrite Hnil in H3. discriminate.
    + apply Forall_forall. intros x Hx. now apply Hm in Hx.
  - intros Hna.
    pose proof (Hnone _ _ (or_intror (or_introl eq_refl))) as H2.
    rewrite Hna, orb_false_r in H2.
    destruct (truthy (o2 "shards")) eqn:Et.
    + left. simpl in H2. apply negb_false_iff in H2.
      destruct (o2 "shards") as [| | b | n | s | | | l]; try discriminate.
      simpl in H2. apply String.eqb_eq in H2. now subst.
    + now right.
Qed.

(** The theorem at the sample options. *)
Lemma constructed_client_shard_plan_example :
  exists c,
    new_Client sample_Intents_resolve sample_captchaServices false no_env_data
      sample_defaults sample_options = Ok c
    /\ number_at_least_1 (options c "shardCount")
    /\ (forall l, options c "shards" = JsArray l ->
                  l <> [] /\ NoDup l /\ Forall int32_nonneg_integer l).
Proof.
  eexists. split; [reflexivity |].
  pose proof (constructed_client_shard_plan
                sample_Intents_resolve sample_captchaServices false no_env_data
                sample_defaults sample_options _ eq_refl) as (H1 & _ & _ & H4 & _).
  split; assumption.
Defined.


(** ** Teardown, further *)

(** Whatever the cleanups do, running them changes the log only. *)
Lemma run_cleanups_only_logs (env : Env) (fns : list nat) :
  forall c, exists evs, snd (run_cleanups fns env c) = add_logs evs c.
Proof.
  induction fns as [| fn fns IH]; intros c; simpl.
  - now exists [].
  - unfold bind, call_cleanup.
    destruct (cleanup_call env (log c) fn) as [[] | e].
    + destruct (IH (add_log (EvCleanup fn) c)) as [evs Hevs].
      exists (EvCleanup fn :: evs). exact Hevs.
    + now exists [EvCleanup fn].
Qed.

Lemma run_cleanups_throw (env : Env) (pre : list nat) (fn : nat) (post : list nat)
      (e : JsError) :
  (forall tr g, In g pre -> cleanup_call env tr g = Ok tt) ->
  (forall tr, cleanup_call env tr fn = Throw e) ->
  forall c,
    run_cleanups (pre ++ fn :: post) env c
    = (Throw e, add_logs (map EvCleanup pre ++ [EvCleanup fn]) c).
Proof.
  intros Hpre Hfn. induction pre as [| g pre IH]; intros c; simpl.
  - unfold bind, call_cleanup. now rewrite Hfn.
  - unfold bind at 1. unfold call_cleanup at 1.
    rewrite (Hpre (log c) g (or_introl eq_refl)).
    apply IH. intros tr h Hh. apply Hpre. now right.
Qed.

(** X6.  When a pending cleanup throws, [destroy] throws its error at once: the
    cleanups registered before it have run, those after it have not, the
    sweepers and the WebSocket manager are not destroyed, and the token,
    the password, the pending set and the timers are as before. *)
Theorem destroy_stops_at_throwing_cleanup (env : Env) (c : Client)
        (pre : list nat) (fn : nat) (post : list nat) (e : JsError) :
  _cleanups c = (pre ++ fn :: post)%list ->
  (forall tr g, In g pre -> cleanup_call env tr g = Ok tt) ->
  (forall tr, cleanup_call env tr fn = Throw e) ->
  exists c',
    destroy env c = (Throw e, c')
    /\ log c' = (log c ++ EvBaseDestroy :: map EvCleanup pre ++ [EvCleanup fn])%list
    /\ token c' = token c /\ password c' = password c
    /\ _cleanups c' = _cleanups c /\ timers c' = timers c
    /\ ws_status c' = ws_status c.
Proof.
  intros Hc Hpre Hfn.
  exists (add_logs (EvBaseDestroy :: map EvCleanup pre ++ [EvCleanup fn]) c).
  split.
  - unfold destroy. cbv beta iota delta [bind modify get].
    change (_cleanups (add_log EvBaseDestroy c)) with (_cleanups c).
    rewrite Hc, (run_cleanups_throw env pre fn post e Hpre Hfn). reflexivity.
  - destruct (add_logs_fields (EvBaseDestroy :: map EvCleanup pre ++ [EvCleanup fn]) c)
      as (H1 & H2 & H3 & H4 & _ & H6 & H7 & _).
    repeat split; assumption.
Qed.

(** The theorem at the sample client, whose second cleanup throws. *)
Lemma destroy_stops_at_throwing_cleanup_example :
  exists c',
    destroy faulty_cleanup_env sample_client = (Throw cleanup_error, c')
    /\ log c' = [EvBaseDestroy; EvCleanup 1; EvCleanup 2]
    /\ token c' = JsString "stored" /\ password c' = JsString "hunter2"
    /\ _cleanups c' = [1%nat; 2%nat]
    /\ timers c' = [SweepMessagesTimer; UsedCodesTimer]
    /\ ws_status c' = IDLE.
Proof.
  apply (destroy_stops_at_throwing_cleanup faulty_cleanup_env sample_client
           [1%nat] 2%nat [] cleanup_error).
  - reflexivity.
  - intros tr g [<- | []]. reflexivity.
  - intros tr. reflexivity.
Defined.

(** [destroy] on a client whose cleanups return: what it leaves alone. *)
Lemma destroy_returns_frame (env : Env) (c : Client) :
  cleanups_return env c ->
  exists c',
    destroy env c = (Ok tt, c')
    /\ caches c' = caches c /\ usedCodes c' = usedCodes c /\ options c' = options c
    /\ timers c' = match sweepMessageInterval c with
                   | Some t => filter (fun t' => negb (Timer_eqb t t')) (timers c)
                   | None => timers c
                   end.
Proof.
  intros H. unfold destroy, bind, modify, get.
  rewrite run_cleanups_return by exact H.
  change (_cleanups (add_log EvBaseDestroy c)) with (_cleanups c).
  set (c1 := add_logs (map EvCleanup (_cleanups c)) (add_log EvBaseDestroy c)).
  destruct (add_logs_fields (map EvCleanup (_cleanups c)) (add_log EvBaseDestroy c))
    as (_ & _ & _ & _ & H5 & _ & H7 & H8 & H9 & H10).
  fold c1 in H5, H7, H8, H9, H10.
  change (sweepMessageInterval (set_cleanups [] c1)) with (sweepMessageInterval c1).
  rewrite H5.
  change (sweepMessageInterval (add_log EvBaseDestroy c)) with (sweepMessageInterval c).
  destruct (sweepMessageInterval c) as [t |];
    (eexists; split; [reflexivity |]); cbn; rewrite ?H7, ?H8, ?H9, ?H10;
    repeat split; reflexivity.
Qed.

(** X7.  [destroy] stops the message sweep interval and leaves the hourly
    interval of the used codes running; it clears neither the caches nor
    the used codes. *)
Theorem destroy_leaves_hourly_timer (env : Env) (c : Client) :
  cleanups_return env c ->
  sweepMessageInterval c <> Some UsedCodesTimer ->
  exists c',
    destroy env c = (Ok tt, c')
    /\ (In UsedCodesTimer (timers c) -> In UsedCodesTimer (timers c'))
    /\ (forall t, sweepMessageInterval c = Some t -> ~ In t (timers c'))
    /\ caches c' = caches c /\ usedCodes c' = usedCodes c.
Proof.
  intros Hret Hsweep.
  destruct (destroy_returns_frame env c Hret) as (c' & Hd & Hca & Hu & _ & Ht).
  exists c'. split; [exact Hd |]. repeat split; try assumption.
  - intros Hin. rewrite Ht. destruct (sweepMessageInterval c) as [t |]; [| exact Hin].
    apply filter_In. split; [exact Hin |].
    destruct t; [reflexivity | congruence].
  - intros t Hs Hin. rewrite Ht, Hs in Hin. apply filter_In in Hin as [_ Hin].
    destruct t; discriminate Hin.
Qed.

(** The theorem at the sample client. *)
Lemma destroy_leaves_hourly_timer_example :
  exists c',
    destroy calm_env sample_client = (Ok tt, c')
    /\ (In UsedCodesTimer (timers sample_client) -> In UsedCodesTimer (timers c'))
    /\ (forall t, sweepMessageInterval sample_client = Some t -> ~ In t (timers c'))
    /\ caches c' = caches sample_client /\ usedCodes c' = usedCodes sample_client.
Proof.
  apply destroy_leaves_hourly_timer.
  - intros tr fn _. reflexivity.
  - discriminate.
Defined.

Example destroy_sample_timers :
  timers (snd (destroy calm_env sample_client)) = [UsedCodesTimer].
Proof. reflexivity. Qed.

Lemma _finalize_run (env : Env) (c : Client) (fn : nat) :
  exists c',
    _finalize fn env c = (Ok tt, c')
    /\ log c' = (log c ++ [EvCleanup fn])%list
    /\ token c' = token c /\ password c' = password c
    /\ (cleanup_call env (log c) fn = Ok tt ->
        _cleanups c' = Set_delete fn (_cleanups c) /\ ~ In fn (_cleanups c'))
    /\ (forall e, cleanup_call env (log c) fn = Throw e -> _cleanups c' = _cleanups c).
Proof.
  unfold _finalize, try_catch, bind, call_cleanup, modify, ret.
  destruct (cleanup_call env (log c) fn) as [[] | e].
  - eexists. split; [reflexivity |]. cbn. repeat split; try discriminate.
    unfold Set_delete. intros Hin. apply filter_In in Hin as [_ Hin].
    now rewrite Nat.eqb_refl in Hin.
  - eexists. split; [reflexivity |]. cbn. repeat split; discriminate.
Qed.

(** X8.  [_finalize] never throws.  When the cleanup returns, it is taken out of
    the pending set; when it throws, the error is swallowed and the cleanup
    stays pending.  Token and password are not touched. *)
Theorem _finalize_never_throws (env : Env) (c : Client) (fn : nat) :
  exists c',
    _finalize fn env c = (Ok tt, c')
    /\ log c' = (log c ++ [EvCleanup fn])%list
    /\ token c' = token c /\ password c' = password c
    /\ (cleanup_call env (log c) fn = Ok tt ->
        _cleanups c' = Set_delete fn (_cleanups c) /\ ~ In fn (_cleanups c'))
    /\ (forall e, cleanup_call env (log c) fn = Throw e -> _cleanups c' = _cleanups c).
Proof. exact (_finalize_run env c fn). Qed.

(** The theorem at a cleanup that returns and at one that throws. *)
Lemma _finalize_never_throws_example :
  (exists c',
      _finalize 1 faulty_cleanup_env sample_client = (Ok tt, c')
      /\ _cleanups c' = [2%nat])
  /\ (exists c',
         _finalize 2 faulty_cleanup_env sample_client = (Ok tt, c')
         /\ _cleanups c' = [1%nat; 2%nat]).
Proof.
  split.
  - destruct (_finalize_never_throws faulty_cleanup_env sample_client 1)
      as (c' & Hf & _ & _ & _ & Hok & _).
    exists c'. split; [exact Hf |]. exact (proj1 (Hok eq_refl)).
  - destruct (_finalize_never_throws faulty_cleanup_env sample_client 2)
      as (c' & Hf & _ & _ & _ & _ & Hthrow).
    exists c'. split; [exact Hf |]. exact (Hthrow cleanup_error eq_refl).
Defined.

Lemma count_occ_Set_delete (fn g : nat) (fns : list nat) :
  count_occ Nat.eq_dec (Set_delete fn fns) g
  = if Nat.eqb fn g then 0%nat else count_occ Nat.eq_dec fns g.
Proof.
  unfold Set_delete. induction fns as [| h fns IH]; simpl.
  - now destruct (Nat.eqb fn g).
  - destruct (Nat.eqb fn h) eqn:Eh; simpl.
    + apply Nat.eqb_eq in Eh. subst h. rewrite IH.
      destruct (Nat.eqb fn g) eqn:Eg; [reflexivity |].
      apply Nat.eqb_neq in Eg. now destruct (Nat.eq_dec fn g).
    + rewrite IH. destruct (Nat.eqb fn g) eqn:Eg; [| reflexivity].
      apply Nat.eqb_eq in Eg. subst g. apply Nat.eqb_neq in Eh.
      destruct (Nat.eq_dec h fn); [congruence | reflexivity].
Qed.

(** X9.  A cleanup run by [_finalize] is not run again by [destroy]: over a
    [_finalize] of a cleanup that returns, followed by [destroy], that
    cleanup and every cleanup that was pending are called exactly once. *)
Theorem finalize_then_destroy (env : Env) (c : Client) (fn : nat) :
  NoDup (_cleanups c) ->
  cleanups_return env c ->
  cleanup_call env (log c) fn = Ok tt ->
  exists c1 c2 evs,
    _finalize fn env c = (Ok tt, c1)
    /\ destroy env c1 = (Ok tt, c2)
    /\ log c2 = (log c ++ evs)%list
    /\ cleanup_calls fn evs = 1%nat
    /\ (forall g, In g (_cleanups c) -> cleanup_calls g evs = 1%nat)
    /\ _cleanups c2 = [] /\ token c2 = JsNull.
Proof.
  intros Hnd Hret Hfn.
  destruct (_finalize_run env c fn) as (c1 & Hf & Hl1 & _ & _ & Hok & _).
  destruct (Hok Hfn) as [Hc1 _].
  assert (cleanups_return env c1) as Hret1.
  { intros tr g Hg. apply Hret. rewrite Hc1 in Hg.
    now apply filter_In in Hg as [Hg _]. }
  destruct (destroy_returns env c1 Hret1) as (c2 & Hd & Ht & _ & Hc2 & Hl2 & _).
  exists c1, c2, ([EvCleanup fn] ++ destroy_events c1)%list.
  assert (forall g, cleanup_calls g ([EvCleanup fn] ++ destroy_events c1)
                    = ((if Nat.eqb g fn then 1 else 0)
                       + (if Nat.eqb fn g then 0 else count_occ Nat.eq_dec (_cleanups c) g))%nat)
    as Hcalls.
  { intros g. rewrite cleanup_calls_app, cleanup_calls_destroy_events, Hc1,
      count_occ_Set_delete. unfold cleanup_calls. simpl.
    now destruct (Nat.eqb g fn). }
  repeat split; try assumption.
  - rewrite Hl2, Hl1. now rewrite <- app_assoc.
  - rewrite Hcalls, !Nat.eqb_refl. reflexivity.
  - intros g Hg. rewrite Hcalls. rewrite (Nat.eqb_sym g fn).
    destruct (Nat.eqb fn g); [reflexivity |].
    simpl. now apply NoDup_count_occ'.
Qed.

(** The theorem at the sample client, whose first cleanup is finalized. *)
Lemma finalize_then_destroy_example :
  exists c1 c2 evs,
    _finalize 1 calm_env sample_client = (Ok tt, c1)
    /\ destroy calm_env c1 = (Ok tt, c2)
    /\ log c2 = (log sample_client ++ evs)%list
    /\ cleanup_calls 1 evs = 1%nat
    /\ (forall g, In g (_cleanups sample_client) -> cleanup_calls g evs = 1%nat)
    /\ _cleanups c2 = [] /\ token c2 = JsNull.
Proof.
  apply finalize_then_destroy.
  - simpl. repeat constructor; simpl; intuition discriminate.
  - intros tr g _. reflexivity.
  - reflexivity.
Defined.

(** ** switchUser *)

Lemma destroy_caches (env : Env) (c : Client) :
  caches (snd (destroy env c)) = caches c.
Proof.
  unfold destroy. cbv beta iota delta [bind modify get].
  destruct (run_cleanups_only_logs env (_cleanups (add_log EvBaseDestroy c))
              (add_log EvBaseDestroy c)) as [evs Hevs].
  destruct (run_cleanups _ env (add_log EvBaseDestroy c)) as [[[] | e] c1];
    simpl in Hevs; subst c1;
    destruct (add_logs_fields evs (add_log EvBaseDestroy c))
      as (_ & _ & _ & _ & H5 & _ & _ & _ & H9 & _).
  - change (sweepMessageInterval (set_cleanups [] ?x)) with (sweepMessageInterval x).
    destruct (sweepMessageInterval _); cbn; exact H9.
  - cbn. exact H9.
Qed.

Lemma login_caches (env : Env) (c : Client) (v : JsValue) :
  caches (snd (login v env c)) = caches c.
Proof.
  unfold login. cbv beta iota delta [bind get].
  destruct (default_arg v (token c)) as [| | b | n | s | | | l]; try reflexivity.
  destruct (negb (truthy (JsString s))); [reflexivity |].
  cbv beta iota zeta delta [bind modify try_catch ws_connect_call get ret throw].
  destruct (ws_connect env _) as [[] | e]; [reflexivity |].
  match goal with |- context [destroy env ?x] =>
    pose proof (destroy_caches env x) as H; destruct (destroy env x) as [[[] | e'] c2]
  end; exact H.
Qed.




(** ** normalLogin, further *)

(** X11.  With a user name or a password (the cached one when none is given) that
    is empty or not a string, normalLogin throws NORMAL_LOGIN before any
    request: the client is as before. *)
Theorem normalLogin_rejects_bad_credentials (env : Env) (c : Client)
        (username password_arg mfaCode : JsValue) :
  empty_or_not_string username
  \/ empty_or_not_string (default_arg password_arg (password c)) ->
  normalLogin username password_arg mfaCode env c
  = (Throw (js_error "NORMAL_LOGIN" []), c).
Proof.
  intros H. unfold normalLogin. cbv beta iota delta [bind get].
  destruct username as [| | b | n | u | | | l]; try reflexivity.
  destruct (default_arg password_arg (password c)) as [| | b | n | p | | | l];
    try reflexivity.
  destruct H as [H | H]; rewrite (H _ eq_refl); [reflexivity |].
  simpl. now rewrite orb_true_r.
Qed.

(** The theorem at an empty user name, and at a client whose cached
    password has been cleared by [destroy]. *)
Lemma normalLogin_rejects_bad_credentials_example :
  normalLogin (JsString "") (JsString "pw") JsUndefined calm_env sample_client
  = (Throw (js_error "NORMAL_LOGIN" []), sample_client)
  /\ normalLogin (JsString "user@example.com") JsUndefined JsUndefined calm_env
       (snd (destroy calm_env sample_client))
     = (Throw (js_error "NORMAL_LOGIN" []), snd (destroy calm_env sample_client)).
Proof.
  split.
  - apply normalLogin_rejects_bad_credentials. left. intros s [= <-]. reflexivity.
  - apply normalLogin_rejects_bad_credentials. right. intros s H. discriminate H.
Defined.

(** What normalLogin does once the credentials have passed the test and the
    first request has been answered. *)
Lemma normalLogin_after_response (env : Env) (c : Client)
      (password_arg mfaCode : JsValue) (u p : string) (data : JsObj) :
  u <> "" ->
  default_arg password_arg (password c) = JsString p -> p <> "" ->
  api_post env (log c) (AuthLogin u p) = Ok data ->
  let c1 := set_password (JsString p) (add_log (EvPost (AuthLogin u p)) c) in
  (truthy (data "token") = true ->
   normalLogin (JsString u) password_arg mfaCode env c = login (data "token") env c1)
  /\ (truthy (data "token") = false ->
      truthy (data "ticket") && truthy (data "mfa") = false ->
      normalLogin (JsString u) password_arg mfaCode env c
      = (Throw (js_error "LOGIN_FAILED_UNKNOWN" []), c1)).
Proof.
  intros Hu Hp Hpne Hpost c1.
  split; intros Htok; [| intros Hmfa];
    unfold normalLogin; cbv beta iota delta [bind get];
    rewrite Hp, (truthy_string u Hu), (truthy_string p Hpne); cbn [negb orb];
    cbv beta iota delta [bind post modify]; rewrite Hpost, Htok; cbn [negb andb].
  - reflexivity.
  - rewrite Hmfa. reflexivity.
Qed.

(** X12.  A response that carries a token is a direct login, also when it carries
    an MFA ticket besides: the password is cached, the token is stripped of
    its scheme and stored, and when the connect succeeds it is returned,
    after two calls, the credential request and the connect. *)
Theorem normalLogin_direct_token (env : Env) (c : Client)
        (password_arg mfaCode : JsValue) (u p s : string) (data : JsObj) :
  u <> "" ->
  default_arg password_arg (password c) = JsString p -> p <> "" ->
  api_post env (log c) (AuthLogin u p) = Ok data ->
  data "token" = JsString s -> s <> "" ->
  ws_connect env (log c ++ [EvPost (AuthLogin u p)]) = Ok tt ->
  exists c',
    normalLogin (JsString u) password_arg mfaCode env c
    = (Ok (JsString (strip_scheme s)), c')
    /\ token c' = JsString (strip_scheme s)
    /\ password c' = JsString p
    /\ log c' = (log c ++ [EvPost (AuthLogin u p); EvWsConnect])%list.
Proof.
  intros Hu Hp Hpne Hpost Htok Hs Hconn.
  destruct (normalLogin_after_response env c password_arg mfaCode u p data
              Hu Hp Hpne Hpost) as [Hdirect _].
  rewrite Hdirect by (rewrite Htok; now apply truthy_string).
  rewrite Htok. unfold login. cbv beta iota delta [bind get].
  cbn [default_arg]. rewrite (truthy_string s Hs). cbn [negb].
  cbv beta iota zeta delta [bind modify try_catch ws_connect_call get ret].
  cbn [log set_token set_password add_log]. rewrite Hconn.
  eexists. split; [reflexivity |]. cbn. rewrite <- app_assoc. repeat split.
Qed.

(** A world whose login endpoint answers with a token and a ticket. *)
Lemma normalLogin_direct_token_example :
  let env := mkEnv (fun _ _ => Ok (obj [("token", JsString "Bearer abc");
                                        ("ticket", JsString "t1");
                                        ("mfa", JsBool true)]))
                   (ws_connect calm_env) (ws_status_next calm_env)
                   (cleanup_call calm_env) sample_URL in
  exists c',
    normalLogin (JsString "user@example.com") (JsString "pw") (JsString "123456")
                env sample_client
    = (Ok (JsString "abc"), c')
    /\ token c' = JsString "abc"
    /\ password c' = JsString "pw"
    /\ log c' = [EvPost (AuthLogin "user@example.com" "pw"); EvWsConnect].
Proof.
  intros env.
  apply (normalLogin_direct_token env sample_client (JsString "pw") (JsString "123456")
           "user@example.com" "pw" "Bearer abc"
           (obj [("token", JsString "Bearer abc"); ("ticket", JsString "t1");
                 ("mfa", JsBool true)]));
    try reflexivity; discriminate.
Defined.

(** X13.  A response without token and without MFA ticket (a ticket without the
    [mfa] flag counts as none) makes normalLogin throw
    LOGIN_FAILED_UNKNOWN after that one request, the password being cached
    all the same.  When the request itself fails, its error is thrown and
    the password is not cached. *)
Theorem normalLogin_unknown_response (env : Env) (c : Client)
        (password_arg mfaCode : JsValue) (u p : string) :
  u <> "" ->
  default_arg password_arg (password c) = JsString p -> p <> "" ->
  (forall data,
      api_post env (log c) (AuthLogin u p) = Ok data ->
      truthy (data "token") = false ->
      truthy (data "ticket") && truthy (data "mfa") = false ->
      normalLogin (JsString u) password_arg mfaCode env c
      = (Throw (js_error "LOGIN_FAILED_UNKNOWN" []),
         set_password (JsString p) (add_log (EvPost (AuthLogin u p)) c)))
  /\ (forall e,
         api_post env (log c) (AuthLogin u p) = Throw e ->
         normalLogin (JsString u) password_arg mfaCode env c
         = (Throw e, add_log (EvPost (AuthLogin u p)) c)).
Proof.
  intros Hu Hp Hpne. split.
  - intros data Hpost Htok Hmfa.
    now apply (normalLogin_after_response env c password_arg mfaCode u p data).
  - intros e Hpost. unfold normalLogin. cbv beta iota delta [bind get].
    rewrite Hp, (truthy_string u Hu), (truthy_string p Hpne). cbn [negb orb].
    cbv beta iota delta [bind post]. rewrite Hpost. reflexivity.
Qed.

(** The theorem in the calm world, whose answers are empty objects, and in
    the world without network. *)
Lemma normalLogin_unknown_response_example :
  normalLogin (JsString "user@example.com") (JsString "pw") JsUndefined
              calm_env sample_client
  = (Throw (js_error "LOGIN_FAILED_UNKNOWN" []),
     set_password (JsString "pw")
       (add_log (EvPost (AuthLogin "user@example.com" "pw")) sample_client))
  /\ normalLogin (JsString "user@example.com") (JsString "pw") JsUndefined
                 offline_env sample_client
     = (Throw network_error,
        add_log (EvPost (AuthLogin "user@example.com" "pw")) sample_client).
Proof.
  split.
  - apply (proj1 (normalLogin_unknown_response calm_env sample_client (JsString "pw")
                    JsUndefined "user@example.com" "pw"
                    ltac:(discriminate) eq_refl ltac:(discriminate)) (obj []));
      reflexivity.
  - apply (proj2 (normalLogin_unknown_response offline_env sample_client (JsString "pw")
                    JsUndefined "user@example.com" "pw"
                    ltac:(discriminate) eq_refl ltac:(discriminate)) network_error).
    reflexivity.
Defined.

(** X14.  When the connect of a credential login fails, the password that
    normalLogin had just cached is cleared again with the token by the
    teardown, and the error thrown is the one of the connect. *)
Theorem normalLogin_connect_failure (env : Env) (c : Client)
        (password_arg mfaCode : JsValue) (u p s : string) (data : JsObj)
        (e : JsError) :
  u <> "" ->
  default_arg password_arg (password c) = JsString p -> p <> "" ->
  api_post env (log c) (AuthLogin u p) = Ok data ->
  data "token" = JsString s -> s <> "" ->
  ws_connect env (log c ++ [EvPost (AuthLogin u p)]) = Throw e ->
  cleanups_return env c ->
  exists c',
    normalLogin (JsString u) password_arg mfaCode env c = (Throw e, c')
    /\ token c' = JsNull /\ password c' = JsNull /\ _cleanups c' = [].
Proof.
  intros Hu Hp Hpne Hpost Htok Hs Hconn Hret.
  destruct (normalLogin_after_response env c password_arg mfaCode u p data
              Hu Hp Hpne Hpost) as [Hdirect _].
  rewrite Hdirect by (rewrite Htok; now apply truthy_string).
  rewrite Htok. unfold login. cbv beta iota delta [bind get].
  cbn [default_arg]. rewrite (truthy_string s Hs). cbn [negb].
  cbv beta iota zeta delta [bind modify try_catch ws_connect_call get ret throw].
  cbn [log set_token set_password add_log]. rewrite Hconn.
  match goal with |- context [destroy env ?x] =>
    assert (cleanups_return env x) as Hret2 by exact Hret;
    destruct (destroy_returns env x Hret2) as (c' & Hd & Ht & Hpw & Hc & _)
  end.
  rewrite Hd. exists c'. repeat split; assumption.
Qed.

(** The theorem in a world that hands out a token and refuses the
    connection. *)
Lemma normalLogin_connect_failure_example :
  let env := mkEnv (fun _ _ => Ok (obj [("token", JsString "abc")]))
                   (ws_connect refusing_env) (ws_status_next refusing_env)
                   (cleanup_call calm_env) sample_URL in
  exists c',
    normalLogin (JsString "user@example.com") (JsString "pw") JsUndefined
                env sample_client = (Throw network_error, c')
    /\ token c' = JsNull /\ password c' = JsNull /\ _cleanups c' = [].
Proof.
  intros env.
  apply (normalLogin_connect_failure env sample_client (JsString "pw") JsUndefined
           "user@example.com" "pw" "abc" (obj [("token", JsString "abc")]));
    try reflexivity; try discriminate.
  intros tr fn _. reflexivity.
Defined.


(** ** remoteAuth, further *)

Lemma remove_first_unfold (pat s : string) :
  remove_first pat s
  = if String.prefix pat s then drop (String.length pat) s
    else match s with
         | EmptyString => EmptyString
         | String ch s' => String ch (remove_first pat s')
         end.
Proof. destruct s; reflexivity. Qed.

Lemma drop_append (p r : string) : drop (String.length p) (p ++ r) = r.
Proof. induction p as [| ch p IH]; simpl; [now destruct r | exact IH]. Qed.

Lemma remove_first_prefix (p r : string) : remove_first p (p ++ r) = r.
Proof.
  rewrite remove_first_unfold.
  assert (String.prefix p (p ++ r) = true) as -> by (apply prefix_app; now exists r).
  apply drop_append.
Qed.

(** X15.  The handshake on a READY client and a well-formed URL: the fingerprint
    that is posted is what follows "/ra/" in the path.  Without forced
    accept the caller gets the handshake token of the response and no other
    request is made; with forced accept the finish request is made with
    that token and its outcome is the outcome of remoteAuth.  When the first
    request fails, its error is thrown. *)
Theorem remoteAuth_handshake (env : Env) (c : Client) (url : string) (u : Url)
        (rest : string) :
  ws_status c = READY ->
  new_URL env url = Ok u ->
  host_allowed u ->
  pathname u = "/ra/" ++ rest -> rest <> "" ->
  let c1 := add_log (EvPost (RemoteAuthInit rest)) c in
  (forall res,
      api_post env (log c) (RemoteAuthInit rest) = Ok res ->
      remoteAuth url false env c = (Ok (Confirm (res "handshake_token")), c1)
      /\ remoteAuth url true env c
         = (match api_post env (log c1) (RemoteAuthFinish (res "handshake_token")) with
            | Ok r => Ok (Accepted r)
            | Throw e => Throw e
            end,
            add_log (EvPost (RemoteAuthFinish (res "handshake_token"))) c1))
  /\ (forall e forceAccept,
         api_post env (log c) (RemoteAuthInit rest) = Throw e ->
         remoteAuth url forceAccept env c = (Throw e, c1)).
Proof.
  intros Hready Hurl Hhost Hpath Hrest c1.
  assert (valid_remote_auth_url u = true) as Hvalid.
  { apply valid_remote_auth_url_spec. split; [exact Hhost |]. now exists rest. }
  assert (forall fa,
             remoteAuth url fa env c
             = (res <- post (RemoteAuthInit rest) ;;
                if fa
                then r <- remoteAuth_yes (res "handshake_token") ;; ret (Accepted r)
                else ret (Confirm (res "handshake_token"))) env c) as Hrun.
  { intros fa. unfold remoteAuth.
    cbv beta iota delta [bind isReady get ret parse_URL].
    rewrite Hready. cbn [Status_eqb negb]. rewrite Hurl, Hvalid. cbn [negb].
    rewrite Hpath, remove_first_prefix. reflexivity. }
  split.
  - intros res Hpost. rewrite !Hrun.
    cbv beta iota zeta delta [bind post ret remoteAuth_yes]. rewrite Hpost.
    split; [reflexivity |].
    destruct (api_post env _ (RemoteAuthFinish _)); reflexivity.
  - intros e fa Hpost. rewrite Hrun.
    cbv beta iota zeta delta [bind post]. rewrite Hpost. reflexivity.
Qed.

(** The spec's scenario: https://discord.com/ra/abc123 on a READY client. *)
Lemma remoteAuth_handshake_example :
  let c1 := add_log (EvPost (RemoteAuthInit "abc123")) ready_client in
  (remoteAuth "https://discord.com/ra/abc123" false calm_env ready_client
   = (Ok (Confirm (obj [] "handshake_token")), c1)
   /\ remoteAuth "https://discord.com/ra/abc123" true calm_env ready_client
      = (match api_post calm_env (log c1) (RemoteAuthFinish (obj [] "handshake_token")) with
         | Ok r => Ok (Accepted r)
         | Throw e => Throw e
         end,
         add_log (EvPost (RemoteAuthFinish (obj [] "handshake_token"))) c1))
  /\ remoteAuth "https://discord.com/ra/abc123" true offline_env ready_client
     = (Throw network_error, c1).
Proof.
  intros c1. split.
  - apply (proj1 (remoteAuth_handshake calm_env ready_client
                    "https://discord.com/ra/abc123" (mkUrl "discord.com" "/ra/abc123")
                    "abc123" eq_refl eq_refl (or_intror eq_refl) eq_refl
                    ltac:(discriminate)) (obj [])).
    reflexivity.
  - apply (proj2 (remoteAuth_handshake offline_env ready_client
                    "https://discord.com/ra/abc123" (mkUrl "discord.com" "/ra/abc123")
                    "abc123" eq_refl eq_refl (or_intror eq_refl) eq_refl
                    ltac:(discriminate)) network_error true).
    reflexivity.
Defined.

(** X16.  Whatever the client, the URL and the world: remoteAuth changes nothing
    of the client; it sends no request, or the handshake request alone, or,
    with forced accept only, the handshake request followed by the finish
    request.  The cancel request is never sent by remoteAuth itself. *)
Theorem remoteAuth_requests (env : Env) (c : Client) (url : string)
        (forceAccept : bool) :
  exists evs,
    snd (remoteAuth url forceAccept env c) = add_logs evs c
    /\ (evs = []
        \/ (exists fp, evs = [EvPost (RemoteAuthInit fp)])
        \/ (forceAccept = true
            /\ exists fp ht, evs = [EvPost (RemoteAuthInit fp);
                                    EvPost (RemoteAuthFinish ht)])).
Proof.
  unfold remoteAuth. cbv beta iota delta [bind isReady get ret parse_URL].
  destruct (negb (Status_eqb (ws_status c) READY)).
  { exists []. split; [reflexivity | now left]. }
  destruct (new_URL env url) as [u | e].
  2: { exists []. split; [reflexivity | now left]. }
  destruct (negb (valid_remote_auth_url u)).
  { exists []. split; [reflexivity | now left]. }
  cbv beta iota zeta delta [bind post ret remoteAuth_yes].
  destruct (api_post env (log c) _) as [res | e].
  2: { eexists [_]. split; [reflexivity |]. right. left. eauto. }
  destruct forceAccept.
  - eexists [_; _]. split.
    + destruct (api_post env _ (RemoteAuthFinish _)); reflexivity.
    + right. right. split; [reflexivity |]. eauto.
  - eexists [_]. split; [reflexivity |]. right. left. eauto.
Qed.


(** ** redeemNitro, further *)

Lemma add_logs_set_usedCodes (evs : list Event) (codes : list string) (c : Client) :
  add_logs evs (set_usedCodes codes c) = set_usedCodes codes (add_logs evs c).
Proof.
  revert c. induction evs as [| ev evs IH]; intros c; [reflexivity |].
  simpl. rewrite <- IH. reflexivity.
Qed.

Lemma used_In (code : string) (l : list string) :
  used code l = true <-> In code l.
Proof.
  unfold used. rewrite existsb_exists. split.
  - intros [x [Hx E]]. apply String.eqb_eq in E. now subst.
  - intros H. exists code. split; [exact H | apply String.eqb_refl].
Qed.

(** One turn of the loop. *)
Lemma redeem_loop_cons (env : Env) (ch : JsValue) (f : bool) (code : string)
      (rest : list string) (r0 : bool) (c : Client) :
  redeem_loop (code :: rest) ch f r0 env c
  = if used code (usedCodes c) then redeem_loop rest ch f r0 env c
    else
      let req := RedeemGiftCode code (if truthy ch then ch else JsNull) in
      let c1 := set_usedCodes (usedCodes c ++ [code]) (add_log (EvPost req) c) in
      match api_post env (log c) req with
      | Ok _ => redeem_loop rest ch f true env c1
      | Throw e => if f then (Throw e, c1) else redeem_loop rest ch f r0 env c1
      end.
Proof.
  cbn [redeem_loop]. cbv beta iota delta [bind get].
  destruct (used code (usedCodes c)); [reflexivity |].
  cbv beta iota zeta delta [settle post push_usedCode modify bind].
  destruct (api_post env (log c) _); [reflexivity |].
  destruct f; reflexivity.
Qed.

(** One run of the loop of redeemNitro, from the client [c] on: the calls it
    makes are redemption calls for codes of the list, with the channel id
    given; the used list grows by the codes of these calls, in their order,
    and stays free of duplicates; the value returned tells whether a call
    was answered without error, and an error thrown is the answer to the
    last call, in the mode that fails at once. *)
Lemma redeem_loop_run (env : Env) (ch : JsValue) (f : bool) (codes : list string) :
  forall (r0 : bool) (c : Client),
  exists evs,
    snd (redeem_loop codes ch f r0 env c)
    = set_usedCodes (usedCodes c ++ redeemed_codes evs) (add_logs evs c)
    /\ Forall (fun ev => exists code,
                   ev = EvPost (RedeemGiftCode code (if truthy ch then ch else JsNull))
                   /\ In code codes) evs
    /\ (NoDup (usedCodes c) -> NoDup (usedCodes c ++ redeemed_codes evs))
    /\ match fst (redeem_loop codes ch f r0 env c) with
       | Ok b => b = r0 || some_post_succeeded env (log c) evs
       | Throw e =>
           f = true
           /\ exists evs0 code,
               evs = (evs0 ++ [EvPost (RedeemGiftCode code
                                         (if truthy ch then ch else JsNull))])%list
               /\ api_post env (log c ++ evs0)
                    (RedeemGiftCode code (if truthy ch then ch else JsNull)) = Throw e
       end.
Proof.
  induction codes as [| code rest IH]; intros r0 c.
  - exists []. cbn. rewrite app_nil_r, orb_false_r.
    repeat split; auto. now destruct c.
  - rewrite redeem_loop_cons.
    destruct (used code (usedCodes c)) eqn:Hu.
    + destruct (IH r0 c) as (evs & Hs & Hev & Hnd & Hr).
      exists evs. repeat split; auto.
      eapply Forall_impl; [| exact Hev].
      intros ev [cd [-> Hin]]. exists cd. split; [reflexivity | now right].
    + set (ch' := if truthy ch then ch else JsNull) in *.
      cbv zeta.
      set (ev := EvPost (RedeemGiftCode code ch')).
      set (c1 := set_usedCodes (usedCodes c ++ [code]) (add_log ev c)).
      assert (Hstate : forall evs,
                 set_usedCodes (usedCodes c1 ++ redeemed_codes evs) (add_logs evs c1)
                 = set_usedCodes (usedCodes c ++ redeemed_codes (ev :: evs))
                     (add_logs (ev :: evs) c)).
      { intros evs. subst c1. rewrite add_logs_set_usedCodes.
        cbn. rewrite <- app_assoc. reflexivity. }
      assert (Hfresh : NoDup (usedCodes c) -> NoDup (usedCodes c1)).
      { intros H. subst c1. cbn. apply NoDup_snoc; [exact H |].
        intros Hin. apply used_In in Hin. congruence. }
      assert (Hnodup : forall evs,
                 (NoDup (usedCodes c1) -> NoDup (usedCodes c1 ++ redeemed_codes evs)) ->
                 NoDup (usedCodes c) ->
                 NoDup (usedCodes c ++ redeemed_codes (ev :: evs))).
      { intros evs H Hc. specialize (H (Hfresh Hc)).
        subst c1. cbn in H. now rewrite <- app_assoc in H. }
      assert (Hevents : forall evs,
                 Forall (fun ev0 => exists cd,
                             ev0 = EvPost (RedeemGiftCode cd ch') /\ In cd rest) evs ->
                 Forall (fun ev0 => exists cd,
                             ev0 = EvPost (RedeemGiftCode cd ch') /\ In cd (code :: rest))
                        (ev :: evs)).
      { intros evs H. constructor.
        - exists code. split; [reflexivity | now left].
        - eapply Forall_impl; [| exact H].
          intros ev0 [cd [-> Hin]]. exists cd. split; [reflexivity | now right]. }
      assert (Hsome : forall evs,
                 some_post_succeeded env (log c) (ev :: evs)
                 = match api_post env (log c) (RedeemGiftCode code ch') with
                   | Ok _ => true
                   | Throw _ => false
                   end || some_post_succeeded env (log c1) evs) by reflexivity.
      destruct (api_post env (log c) (RedeemGiftCode code ch')) as [res | e] eqn:Hpost.
      * destruct (IH true c1) as (evs & Hs & Hev & Hnd & Hr).
        exists (ev :: evs).
        split; [rewrite <- Hstate; exact Hs |].
        split; [now apply Hevents |]. split; [now apply Hnodup |].
        destruct (fst (redeem_loop rest ch f true env c1)) as [b | e].
        -- rewrite Hsome, Hr. cbn. now rewrite orb_true_r.
        -- destruct Hr as [Hf (evs0 & cd & -> & Hthrow)].
           split; [exact Hf |]. exists (ev :: evs0), cd.
           split; [reflexivity |].
           change (log c1) with (log c ++ [ev])%list in Hthrow.
           now rewrite <- app_assoc in Hthrow.
      * destruct f.
        -- exists [ev]. cbn [fst snd].
           split; [reflexivity |].
           split; [now apply Hevents |].
           split; [apply Hnodup; intros H; cbn; now rewrite app_nil_r |].
           split; [reflexivity |]. exists [], code. rewrite app_nil_r. now split.
        -- destruct (IH r0 c1) as (evs & Hs & Hev & Hnd & Hr).
           exists (ev :: evs).
           split; [rewrite <- Hstate; exact Hs |].
           split; [now apply Hevents |]. split; [now apply Hnodup |].
           destruct (fst (redeem_loop rest ch false r0 env c1)) as [b | e'].
           ++ rewrite Hsome, Hr. reflexivity.
           ++ destruct Hr as [Hf _]. discriminate Hf.
Qed.

Lemma redeem_loop_all_used (env : Env) (ch : JsValue) (f : bool) (codes : list string)
      (r0 : bool) (c : Client) :
  Forall (fun code => used code (usedCodes c) = true) codes ->
  redeem_loop codes ch f r0 env c = (Ok r0, c).
Proof.
  induction 1 as [| code rest Hu _ IH]; [reflexivity |].
  now rewrite redeem_loop_cons, Hu.
Qed.

(** X17.  redeemNitro sends nothing and leaves the client as it is when its
    argument is not a string (it throws INVALID_NITRO), when the text holds
    no gift link (it returns false), and when every code of the text is
    already in the used list (it returns false). *)
Theorem redeemNitro_without_request (env : Env) (c : Client) (ch : JsValue) (f : bool) :
  (forall nitro, (forall s, nitro <> JsString s) ->
      redeemNitro nitro ch f env c = (Throw (js_error "INVALID_NITRO" []), c))
  /\ (forall text, nitroArray text = None ->
         redeemNitro (JsString text) ch f env c = (Ok false, c))
  /\ (forall text matches,
         nitroArray text = Some matches ->
         Forall (fun code => used code (usedCodes c) = true) (codeArray matches) ->
         redeemNitro (JsString text) ch f env c = (Ok false, c)).
Proof.
  repeat split.
  - intros nitro H. destruct nitro as [| | b | n | s | | | l]; try reflexivity.
    now elim (H s).
  - intros text H. unfold redeemNitro. now rewrite H.
  - intros text matches H Hused. unfold redeemNitro. rewrite H.
    now apply redeem_loop_all_used.
Qed.

(** The theorem at a number, at a text without link, and at a text whose
    code has been redeemed before. *)
Lemma redeemNitro_without_request_example :
  let c1 := snd (redeemNitro gift_text JsNull true calm_env sample_client) in
  redeemNitro (JsNumber (Int 1)) JsNull true calm_env sample_client
  = (Throw (js_error "INVALID_NITRO" []), sample_client)
  /\ redeemNitro (JsString "no link here") JsNull true calm_env sample_client
     = (Ok false, sample_client)
  /\ redeemNitro gift_text JsNull true calm_env c1 = (Ok false, c1).
Proof.
  intros c1. split; [| split].
  - apply (proj1 (redeemNitro_without_request calm_env sample_client JsNull true)).
    intros s H. discriminate H.
  - apply (proj1 (proj2 (redeemNitro_without_request calm_env sample_client JsNull true))).
    reflexivity.
  - apply (proj2 (proj2 (redeemNitro_without_request calm_env c1 JsNull true))
             "take discord.gift/ABCDEFGHJKLMNPQR now" ["discord.gift/ABCDEFGHJKLMNPQR"]).
    + reflexivity.
    + repeat constructor.
Defined.

Lemma redeemNitro_best_effort_run (env : Env) (c : Client) (text : string)
      (ch : JsValue) :
  exists b c', redeemNitro (JsString text) ch false env c = (Ok b, c').
Proof.
  unfold redeemNitro. destruct (nitroArray text) as [matches |].
  - destruct (redeem_loop_run env ch false (codeArray matches) false c)
      as (evs & _ & _ & _ & Hr).
    destruct (redeem_loop (codeArray matches) ch false false env c) as [[b | e] c'].
    + now exists b, c'.
    + destruct Hr as [Hf _]. discriminate Hf.
  - now exists false, c.
Qed.

(** X18.  In the mode that does not fail at once, redeemNitro on a string never
    throws, whatever the REST layer answers.  So autoRedeemNitro, which uses
    that mode, never throws on a message whose content is a string; on what
    is not a Message it does nothing. *)
Theorem redeemNitro_best_effort (env : Env) (c : Client) :
  (forall text ch,
      exists b c', redeemNitro (JsString text) ch false env c = (Ok b, c'))
  /\ autoRedeemNitro None env c = (Ok tt, c)
  /\ (forall text ch,
         exists c', autoRedeemNitro (Some (JsString text, ch)) env c = (Ok tt, c')).
Proof.
  split; [intros text ch; apply redeemNitro_best_effort_run |].
  split; [reflexivity |]. intros text ch.
  destruct (redeemNitro_best_effort_run env c text ch) as (b & c' & H).
  exists c'. unfold autoRedeemNitro, bind. now rewrite H.
Qed.

Lemma redeemed_codes_app (l1 l2 : list Event) :
  redeemed_codes (l1 ++ l2) = (redeemed_codes l1 ++ redeemed_codes l2)%list.
Proof.
  induction l1 as [| ev l1 IH]; [reflexivity |].
  destruct ev as [[] | | | | | |]; simpl; now rewrite IH.
Qed.

Lemma self_set_usedCodes (c : Client) : set_usedCodes (usedCodes c) c = c.
Proof. now destruct c. Qed.

(** X19.  Whatever the argument and the world, redeemNitro changes the log and
    the used list only: the calls it logs are redemption calls with the
    channel id it was given, and the used list grows by exactly the codes of
    these calls, in their order. *)
Theorem redeemNitro_marks_what_it_sends (env : Env) (c : Client) (nitro ch : JsValue)
        (f : bool) :
  exists evs,
    snd (redeemNitro nitro ch f env c)
    = set_usedCodes (usedCodes c ++ redeemed_codes evs) (add_logs evs c)
    /\ Forall (fun ev => exists code,
                   ev = EvPost (RedeemGiftCode code (if truthy ch then ch else JsNull)))
              evs.
Proof.
  assert (exists evs : list Event,
             c = set_usedCodes (usedCodes c ++ redeemed_codes evs) (add_logs evs c)
             /\ Forall (fun ev => exists code,
                            ev = EvPost (RedeemGiftCode code
                                           (if truthy ch then ch else JsNull))) evs)
    as Hsame.
  { exists []. cbn. rewrite app_nil_r. split; [now rewrite self_set_usedCodes | constructor]. }
  unfold redeemNitro.
  destruct nitro as [| | b | n | text | | | l]; try exact Hsame.
  destruct (nitroArray text) as [matches |]; [| exact Hsame].
  destruct (redeem_loop_run env ch f (codeArray matches) false c)
    as (evs & Hs & Hev & _).
  exists evs. split; [exact Hs |].
  eapply Forall_impl; [| exact Hev]. intros ev [code [-> _]]. now exists code.
Qed.

Lemma redeemNitro_usedCodes_NoDup (env : Env) (c : Client) (nitro ch : JsValue)
      (f : bool) :
  NoDup (usedCodes c) -> NoDup (usedCodes (snd (redeemNitro nitro ch f env c))).
Proof.
  intros Hnd. unfold redeemNitro.
  destruct nitro as [| | b | n | text | | | l]; try exact Hnd.
  destruct (nitroArray text) as [matches |]; [| exact Hnd].
  destruct (redeem_loop_run env ch f (codeArray matches) false c)
    as (evs & Hs & _ & Hn & _).
  rewrite Hs. cbn. now apply Hn.
Qed.

(** Over calls run one after the other and firings of the hourly interval,
    a used list without duplicate stays without duplicate. *)
Lemma lifetime_usedCodes_NoDup (env : Env) (acts : list Action) :
  forall c, NoDup (usedCodes c) -> NoDup (usedCodes (snd (lifetime acts env c))).
Proof.
  induction acts as [| a acts IH]; intros c Hnd; [exact Hnd |].
  cbn [lifetime]. unfold bind at 1.
  assert (exists c1, act a env c = (Ok tt, c1) /\ NoDup (usedCodes c1)) as (c1 & Ha & H1).
  { destruct a as [nitro ch f |].
    - pose proof (redeemNitro_usedCodes_NoDup env c nitro ch f Hnd) as H.
      cbn [act]. unfold try_catch, bind at 1.
      destruct (redeemNitro nitro ch f env c) as [[b | e] c1]; exists c1; now split.
    - exists (hourly_reset c). split; [reflexivity | constructor]. }
  rewrite Ha. now apply IH.
Qed.

Example usedCodes_sample :
  usedCodes (snd (lifetime
                    [Redeem (JsString "discord.gift/ABCDEFGHJKLMNPQR discord.gift/ABCDEFGHJKLMNPQR")
                            JsNull false]
                    offline_env sample_client))
  = ["ABCDEFGHJKLMNPQR"].
Proof. reflexivity. Qed.

(** X21.  When redeemNitro on a string throws, it is in the mode that fails at
    once; the error is the answer of the REST layer to the last call made,
    and the code of that call is in the used list all the same. *)
Theorem redeemNitro_fail_fast (env : Env) (c c' : Client) (text : string)
        (ch : JsValue) (f : bool) (e : JsError) :
  redeemNitro (JsString text) ch f env c = (Throw e, c') ->
  f = true
  /\ exists evs0 code,
      log c' = (log c ++ evs0
                ++ [EvPost (RedeemGiftCode code (if truthy ch then ch else JsNull))])%list
      /\ api_post env (log c ++ evs0)
           (RedeemGiftCode code (if truthy ch then ch else JsNull)) = Throw e
      /\ In code (usedCodes c').
Proof.
  unfold redeemNitro. destruct (nitroArray text) as [matches |]; [| discriminate].
  intros H.
  destruct (redeem_loop_run env ch f (codeArray matches) false c)
    as (evs & Hs & _ & _ & Hr).
  rewrite H in Hs, Hr. cbn [fst snd] in Hs, Hr.
  destruct Hr as [Hf (evs0 & code & -> & Hthrow)].
  split; [exact Hf |]. exists evs0, code.
  destruct (add_logs_fields
              (evs0 ++ [EvPost (RedeemGiftCode code (if truthy ch then ch else JsNull))]) c)
    as (Hl & _).
  subst c'. cbn [log usedCodes set_usedCodes]. rewrite Hl.
  repeat split; [exact Hthrow |].
  rewrite redeemed_codes_app. cbn. apply in_or_app. right.
  apply in_or_app. right. now left.
Qed.

(** The theorem in the world without network. *)
Lemma redeemNitro_fail_fast_example :
  exists evs0 code,
    log (snd (redeemNitro gift_text JsNull true offline_env sample_client))
    = (log sample_client ++ evs0 ++ [EvPost (RedeemGiftCode code JsNull)])%list
    /\ api_post offline_env (log sample_client ++ evs0) (RedeemGiftCode code JsNull)
       = Throw network_error
    /\ In code (usedCodes (snd (redeemNitro gift_text JsNull true offline_env sample_client))).
Proof.
  exact (proj2 (redeemNitro_fail_fast offline_env sample_client _
                  "take discord.gift/ABCDEFGHJKLMNPQR now" JsNull true network_error
                  eq_refl)).
Defined.

(** X22.  The value that redeemNitro returns tells whether one of the calls it
    made was answered without error. *)
Theorem redeemNitro_result (env : Env) (c c' : Client) (text : string)
        (ch : JsValue) (f b : bool) :
  redeemNitro (JsString text) ch f env c = (Ok b, c') ->
  exists evs,
    log c' = (log c ++ evs)%list
    /\ b = some_post_succeeded env (log c) evs.
Proof.
  unfold redeemNitro. destruct (nitroArray text) as [matches |].
  - intros H.
    destruct (redeem_loop_run env ch f (codeArray matches) false c)
      as (evs & Hs & _ & _ & Hr).
    rewrite H in Hs, Hr. cbn [fst snd] in Hs, Hr.
    exists evs. split; [| exact Hr].
    destruct (add_logs_fields evs c) as (Hl & _).
    subst c'. cbn [log set_usedCodes]. exact Hl.
  - intros [= <- <-]. exists []. split; [now rewrite app_nil_r | reflexivity].
Qed.

(** The theorem in the calm world and in the world without network. *)
Lemma redeemNitro_result_example :
  (exists evs,
      log (snd (redeemNitro gift_text JsNull false calm_env sample_client))
      = (log sample_client ++ evs)%list
      /\ true = some_post_succeeded calm_env (log sample_client) evs)
  /\ (exists evs,
         log (snd (redeemNitro gift_text JsNull false offline_env sample_client))
         = (log sample_client ++ evs)%list
         /\ false = some_post_succeeded offline_env (log sample_client) evs).
Proof.
  split.
  - exact (redeemNitro_result calm_env sample_client _
             "take discord.gift/ABCDEFGHJKLMNPQR now" JsNull false true eq_refl).
  - exact (redeemNitro_result offline_env sample_client _
             "take discord.gift/ABCDEFGHJKLMNPQR now" JsNull false false eq_refl).
Defined.


(** ** The gift links of redeemNitro *)

Lemma word_not_slash (c : ascii) :
  is_word c = true -> atom_matches true (Lit "/"%char) c = false.
Proof.
  destruct c as [[] [] [] [] [] [] [] []]; vm_compute; intros H;
    first [reflexivity | discriminate H].
Qed.

Lemma word_not_dot (c : ascii) :
  is_word c = true -> atom_matches true (Lit "."%char) c = false.
Proof.
  destruct c as [[] [] [] [] [] [] [] []]; vm_compute; intros H;
    first [reflexivity | discriminate H].
Qed.

Lemma match_atoms_word_rest (ci : bool) (atoms : list Atom) :
  forall t r,
    all_chars is_word t = true -> match_atoms ci atoms t = Some r ->
    all_chars is_word r = true.
Proof.
  induction atoms as [| a atoms IH]; intros t r Ht H; simpl in H.
  - now injection H as <-.
  - destruct t as [| c t]; [discriminate |].
    destruct (atom_matches ci a c); [| discriminate].
    simpl in Ht. apply andb_true_iff in Ht as [_ Ht]. eauto.
Qed.

(** A pattern that asks somewhere for a character that is no word character
    does not match at the head of a run of word characters. *)
Lemma match_atoms_blocked (ci : bool) (atoms : list Atom) :
  forall t,
    all_chars is_word t = true ->
    Exists (fun a => forall c, is_word c = true -> atom_matches ci a c = false) atoms ->
    match_atoms ci atoms t = None.
Proof.
  induction atoms as [| a atoms IH]; intros t Ht Hex; [inversion Hex |].
  destruct t as [| c t]; [reflexivity |].
  simpl in Ht. apply andb_true_iff in Ht as [Hc Ht]. simpl.
  inversion Hex as [? ? Ha | ? ? Hrest]; subst.
  - now rewrite (Ha c Hc).
  - destruct (atom_matches ci a c); [now apply IH | reflexivity].
Qed.

Lemma match_alts_none (ci : bool) (alts : list (list Atom))
      (k : string -> option string) (t : string) :
  (forall alt rest, In alt alts -> match_atoms ci alt t = Some rest -> k rest = None) ->
  match_alts ci alts k t = None.
Proof.
  induction alts as [| alt alts IH]; intros H; [reflexivity |].
  simpl. destruct (match_atoms ci alt t) as [rest |] eqn:E.
  - rewrite (H alt rest (or_introl eq_refl) E). apply IH.
    intros a r Ha. apply H. now right.
  - apply IH. intros a r Ha. apply H. now right.
Qed.

Lemma regex_gift_word (t : string) :
  all_chars is_word t = true -> regex_gift t = None.
Proof.
  intros Ht. unfold regex_gift. apply match_alts_none.
  intros alt rest _ E.
  rewrite (match_atoms_blocked true [Lit "/"%char] rest); [reflexivity | |].
  - eapply match_atoms_word_rest; eassumption.
  - constructor. exact word_not_slash.
Qed.

Lemma regex_url_word (t : string) :
  all_chars is_word t = true -> regex_url t = None.
Proof.
  intros Ht. unfold regex_url.
  assert (forall alt,
             In alt [lits "discord.gift/"; lits "discord.com/gifts/";
                     lits "discordapp.com/gifts/"] ->
             match_atoms true alt t = None) as Hnone.
  { intros alt Hin. apply match_atoms_blocked; [exact Ht |].
    destruct Hin as [<- | [<- | [<- | []]]]; cbn [lits];
      repeat (first [ apply Exists_cons_hd; exact word_not_dot
                    | apply Exists_cons_tl ]). }
  apply match_alts_none. intros alt rest Hin E. rewrite (Hnone alt Hin) in E.
  discriminate E.
Qed.

Lemma match_all_word (t : string) :
  all_chars is_word t = true -> forall skip, match_all regex_gift t skip = [].
Proof.
  induction t as [| c t IH]; intros Ht skip; [reflexivity |].
  pose proof (regex_gift_word _ Ht) as Hm.
  simpl in Ht. apply andb_true_iff in Ht as [_ Ht].
  cbn [match_all]. destruct skip; [| now apply IH].
  unfold match_length. rewrite Hm. now apply IH.
Qed.

Lemma remove_all_word (t : string) :
  all_chars is_word t = true -> remove_all regex_url t 0 = t.
Proof.
  induction t as [| c t IH]; intros Ht; [reflexivity |].
  pose proof (regex_url_word _ Ht) as Hm.
  simpl in Ht. apply andb_true_iff in Ht as [_ Ht].
  cbn [remove_all]. unfold match_length. rewrite Hm. now rewrite IH.
Qed.

Lemma take_while_all (p : ascii -> bool) (t : string) :
  all_chars p t = true -> take_while p t = String.length t.
Proof.
  induction t as [| c t IH]; simpl; [reflexivity |].
  intros H. apply andb_true_iff in H as [-> H]. now rewrite IH.
Qed.

Lemma length_drop (n : nat) (t : string) :
  String.length (drop n t) = (String.length t - n)%nat.
Proof.
  revert t. induction n as [| n IH]; intros t.
  - destruct t; reflexivity.
  - destruct t as [| c t]; simpl; [reflexivity | apply IH].
Qed.

Lemma all_chars_substring (p : ascii -> bool) (m : nat) (t : string) :
  all_chars p t = true -> all_chars p (substring 0 m t) = true.
Proof.
  revert t. induction m as [| m IH]; intros t H.
  - now destruct t.
  - destruct t as [| c t]; [reflexivity |]. simpl in *.
    apply andb_true_iff in H as [-> H]. simpl. now apply IH.
Qed.

Lemma length_substring (m : nat) (t : string) :
  (m <= String.length t)%nat -> String.length (substring 0 m t) = m.
Proof.
  revert t. induction m as [| m IH]; intros t H.
  - now destruct t.
  - destruct t as [| c t]; simpl in *; [lia |]. rewrite IH; lia.
Qed.

Lemma all_chars_drop (p : ascii -> bool) (m : nat) (t : string) :
  all_chars p t = true -> all_chars p (drop m t) = true.
Proof.
  revert t. induction m as [| m IH]; intros t H.
  - now destruct t.
  - destruct t as [| c t]; [exact H |]. simpl in *.
    apply andb_true_iff in H as [_ H]. now apply IH.
Qed.

Lemma match_all_skip (m : string -> option string) (skip : nat) :
  forall s, match_all m s skip = match_all m (drop skip s) 0.
Proof.
  induction skip as [| skip IH]; intros s.
  - now destruct s.
  - destruct s as [| c s]; [reflexivity |]. cbn [match_all drop]. apply IH.
Qed.

Lemma remove_all_skip (m : string -> option string) (skip : nat) :
  forall s, remove_all m s skip = remove_all m (drop skip s) 0.
Proof.
  induction skip as [| skip IH]; intros s.
  - now destruct s.
  - destruct s as [| c s]; [reflexivity |]. cbn [remove_all drop]. apply IH.
Qed.

Lemma match_all_hit (m : string -> option string) (c : ascii) (s : string) (len : nat) :
  match_length m (String c s) = Some (S len) ->
  match_all m (String c s) 0 = substring 0 (S len) (String c s) :: match_all m s len.
Proof. intros H. cbn [match_all]. now rewrite H. Qed.

Lemma match_all_miss (m : string -> option string) (c : ascii) (s : string) :
  m (String c s) = None -> match_all m (String c s) 0 = match_all m s 0.
Proof. intros H. cbn [match_all]. unfold match_length. now rewrite H. Qed.

Lemma remove_all_hit (m : string -> option string) (c : ascii) (s : string) (len : nat) :
  match_length m (String c s) = Some (S len) ->
  remove_all m (String c s) 0 = remove_all m s len.
Proof. intros H. cbn [remove_all]. now rewrite H. Qed.

Lemma remove_all_miss (m : string -> option string) (c : ascii) (s : string) :
  m (String c s) = None -> remove_all m (String c s) 0 = String c (remove_all m s 0).
Proof. intros H. cbn [remove_all]. unfold match_length. now rewrite H. Qed.

(** [\w{16,25}] on a run of at least 16 word characters takes 25 of them,
    or all when there are fewer. *)
Lemma word_run_code (code : string) :
  all_chars is_word code = true -> (16 <= String.length code)%nat ->
  word_run_16_25 code = Some (drop (Nat.min (String.length code) 25) code).
Proof.
  intros Hw Hlen. unfold word_run_16_25. rewrite (take_while_all _ _ Hw).
  destruct (Nat.leb 16 (String.length code)) eqn:E; [reflexivity |].
  apply Nat.leb_gt in E. lia.
Qed.

Lemma regex_gift_at_gift (code : string) :
  regex_gift ("discord.gift/" ++ code)
  = match word_run_16_25 code with Some r => Some r | None => None end.
Proof. unfold regex_gift. generalize word_run_16_25. intros w. vm_compute. reflexivity. Qed.

Lemma regex_gift_at_discordapp (code : string) :
  regex_gift ("discordapp.com/gifts/" ++ code)
  = match word_run_16_25 code with Some r => Some r | None => None end.
Proof. unfold regex_gift. generalize word_run_16_25. intros w. vm_compute. reflexivity. Qed.

Lemma regex_url_at_gift (t : string) : regex_url ("discord.gift/" ++ t) = Some t.
Proof. reflexivity. Qed.

Lemma regex_url_at_discordapp (t : string) :
  regex_url ("discordapp.com/gifts/" ++ t) = Some t.
Proof. reflexivity. Qed.

Lemma drop_append_more (p r : string) (m : nat) :
  drop (String.length p + m) (p ++ r) = drop m r.
Proof. induction p as [| ch p IH]; simpl; [reflexivity | exact IH]. Qed.

Lemma substring_append (p r : string) (m : nat) :
  substring 0 (String.length p + m) (p ++ r) = p ++ substring 0 m r.
Proof. induction p as [| ch p IH]; simpl; [reflexivity | now rewrite IH]. Qed.

(** A link at the head of the text, made of a prefix that [regex.gift]
    accepts before the code and that [regex.url] removes, and of a run of
    at least 16 word characters: the search finds the prefix and the first 25
    characters of the run, and the replacement leaves these characters. *)
Lemma link_extraction (c0 : ascii) (p code : string) :
  (forall t, regex_gift (String c0 p ++ t)
             = match word_run_16_25 t with Some r => Some r | None => None end) ->
  (forall t, regex_url (String c0 p ++ t) = Some t) ->
  all_chars is_word code = true -> (16 <= String.length code)%nat ->
  let sent := substring 0 (Nat.min (String.length code) 25) code in
  nitroArray (String c0 p ++ code) = Some [String c0 p ++ sent]
  /\ codeArray [String c0 p ++ sent] = [sent].
Proof.
  intros Hg Hu Hw Hlen sent.
  set (m := Nat.min (String.length code) 25) in *.
  assert (Hm : (m <= String.length code)%nat) by (subst m; lia).
  split.
  - unfold nitroArray.
    assert (match_length regex_gift (String c0 p ++ code)
            = Some (S (String.length p + m))) as Hml.
    { unfold match_length. rewrite Hg, (word_run_code code Hw Hlen).
      fold m. rewrite length_append, length_drop. cbn [String.length].
      f_equal. lia. }
    cbn [append] in Hml |- *. rewrite (match_all_hit _ _ _ _ Hml).
    rewrite match_all_skip, drop_append_more.
    rewrite (match_all_word _ (all_chars_drop _ m _ Hw)).
    change (S (String.length p + m)) with (String.length (String c0 p) + m)%nat.
    change (String c0 (p ++ code)) with (String c0 p ++ code).
    now rewrite substring_append.
  - unfold codeArray. cbn [map]. f_equal.
    assert (match_length regex_url (String c0 p ++ sent)
            = Some (S (String.length p))) as Hml.
    { unfold match_length. rewrite Hu, length_append. cbn [String.length].
      f_equal. lia. }
    cbn [append] in Hml |- *. rewrite (remove_all_hit _ _ _ _ Hml).
    rewrite remove_all_skip, drop_append.
    apply remove_all_word. now apply all_chars_substring.
Qed.

(** X23.  A gift link [discord.gift/<code>] or [discordapp.com/gifts/<code>] at the
    head of the text, where the code is a run of at least 16 word characters
    that ends the text: the search gives the link with the first 25
    characters of the run, or all of them when there are fewer, and the code
    kept for the request is that run without the prefix. *)
Theorem gift_link_extraction (code : string) :
  all_chars is_word code = true -> (16 <= String.length code)%nat ->
  let sent := substring 0 (Nat.min (String.length code) 25) code in
  (nitroArray ("discord.gift/" ++ code) = Some ["discord.gift/" ++ sent]
   /\ codeArray ["discord.gift/" ++ sent] = [sent])
  /\ (nitroArray ("discordapp.com/gifts/" ++ code) = Some ["discordapp.com/gifts/" ++ sent]
      /\ codeArray ["discordapp.com/gifts/" ++ sent] = [sent]).
Proof.
  intros Hw Hlen sent. split.
  - exact (link_extraction _ _ code regex_gift_at_gift regex_url_at_gift Hw Hlen).
  - exact (link_extraction _ _ code regex_gift_at_discordapp regex_url_at_discordapp
             Hw Hlen).
Qed.

(** The theorem at a code of 30 characters: 25 of them are kept. *)
Lemma gift_link_extraction_example :
  nitroArray "discord.gift/ABCDEFGHJKLMNPQRSTUVWXYZ012345"
  = Some ["discord.gift/ABCDEFGHJKLMNPQRSTUVWXYZ0"]
  /\ codeArray ["discord.gift/ABCDEFGHJKLMNPQRSTUVWXYZ0"] = ["ABCDEFGHJKLMNPQRSTUVWXYZ0"].
Proof.
  assert (Hw : all_chars is_word "ABCDEFGHJKLMNPQRSTUVWXYZ012345" = true) by reflexivity.
  assert (Hlen : (16 <= String.length "ABCDEFGHJKLMNPQRSTUVWXYZ012345")%nat)
    by (cbn; lia).
  exact (proj1 (gift_link_extraction _ Hw Hlen)).
Defined.

(** X24.  redeemNitro on a text that is one gift link whose code is not in the
    used list: one redemption call, for the first 25 characters of the code,
    marked used whatever the answer; the result is true when the call was
    answered, and otherwise false, or the error in the mode that fails at
    once. *)
Theorem redeemNitro_single_link (env : Env) (c : Client) (code : string)
        (ch : JsValue) (f : bool) :
  all_chars is_word code = true -> (16 <= String.length code)%nat ->
  let sent := substring 0 (Nat.min (String.length code) 25) code in
  let req := RedeemGiftCode sent (if truthy ch then ch else JsNull) in
  let c1 := set_usedCodes (usedCodes c ++ [sent]) (add_log (EvPost req) c) in
  used sent (usedCodes c) = false ->
  redeemNitro (JsString ("discord.gift/" ++ code)) ch f env c
  = match api_post env (log c) req with
    | Ok _ => (Ok true, c1)
    | Throw e => if f then (Throw e, c1) else (Ok false, c1)
    end.
Proof.
  intros Hw Hlen sent req c1 Hu.
  destruct (link_extraction _ _ code regex_gift_at_gift regex_url_at_gift Hw Hlen)
    as [Hn Hc].
  unfold redeemNitro. rewrite Hn, Hc, redeem_loop_cons. fold sent. rewrite Hu.
  cbv zeta. fold req. fold c1.
  destruct (api_post env (log c) req) as [r | e]; [reflexivity |].
  destruct f; reflexivity.
Qed.

(** The theorem at a code of 30 characters, in the calm world and in the
    world without network. *)
Lemma redeemNitro_single_link_example :
  let text := JsString "discord.gift/ABCDEFGHJKLMNPQRSTUVWXYZ012345" in
  let req := RedeemGiftCode "ABCDEFGHJKLMNPQRSTUVWXYZ0" JsNull in
  let c1 := set_usedCodes ["ABCDEFGHJKLMNPQRSTUVWXYZ0"] (add_log (EvPost req) sample_client) in
  redeemNitro text JsNull true calm_env sample_client = (Ok true, c1)
  /\ redeemNitro text JsNull true offline_env sample_client = (Throw network_error, c1)
  /\ redeemNitro text JsNull false offline_env sample_client = (Ok false, c1).
Proof.
  assert (Hw : all_chars is_word "ABCDEFGHJKLMNPQRSTUVWXYZ012345" = true) by reflexivity.
  assert (Hlen : (16 <= String.length "ABCDEFGHJKLMNPQRSTUVWXYZ012345")%nat)
    by (cbn; lia).
  intros text req c1. split; [| split].
  - exact (redeemNitro_single_link calm_env sample_client _ JsNull true Hw Hlen eq_refl).
  - exact (redeemNitro_single_link offline_env sample_client _ JsNull true Hw Hlen eq_refl).
  - exact (redeemNitro_single_link offline_env sample_client _ JsNull false Hw Hlen eq_refl).
Defined.

(** ** Links on discord.com *)

Lemma match_all_discord_com_gifts (code : string) :
  match_all regex_gift ("discord.com/gifts/" ++ code) 0 = match_all regex_gift code 0.
Proof.
  cbn [append].
  repeat (rewrite match_all_miss by (vm_compute; reflexivity)).
  reflexivity.
Qed.

(** X25.  A link [discord.com/gifts/<code>], the code a run of word characters
    that ends the text, is not found by [regex.gift]: after [discord.com/]
    the pattern asks for 16 word characters, and [gifts] has five.
    redeemNitro returns false on it and sends nothing. *)
Theorem discord_com_gifts_link_ignored (env : Env) (c : Client) (code : string)
        (ch : JsValue) (f : bool) :
  all_chars is_word code = true ->
  nitroArray ("discord.com/gifts/" ++ code) = None
  /\ redeemNitro (JsString ("discord.com/gifts/" ++ code)) ch f env c = (Ok false, c).
Proof.
  intros Hw.
  assert (nitroArray ("discord.com/gifts/" ++ code) = None) as Hn.
  { unfold nitroArray.
    now rewrite match_all_discord_com_gifts, (match_all_word code Hw). }
  split; [exact Hn |]. unfold redeemNitro. now rewrite Hn.
Qed.

(** The theorem at a code of 16 characters. *)
Lemma discord_com_gifts_link_ignored_example :
  nitroArray "discord.com/gifts/ABCDEFGHJKLMNPQR" = None
  /\ redeemNitro (JsString "discord.com/gifts/ABCDEFGHJKLMNPQR") JsNull true
       calm_env sample_client
     = (Ok false, sample_client).
Proof.
  exact (discord_com_gifts_link_ignored calm_env sample_client "ABCDEFGHJKLMNPQR"
           JsNull true eq_refl).
Defined.

Lemma regex_gift_at_discord_com (t : string) :
  regex_gift ("discord.com/" ++ t)
  = match word_run_16_25 t with Some r => Some r | None => None end.
Proof. unfold regex_gift. generalize word_run_16_25. intros w. vm_compute. reflexivity. Qed.

Lemma regex_url_at_discord_com (t : string) :
  all_chars is_word t = true -> regex_url ("discord.com/" ++ t) = None.
Proof.
  intros Ht.
  assert (regex_url ("discord.com/" ++ t)
          = match match_atoms true (lits "gifts/") t with
            | Some r => Some r
            | None => None
            end) as -> by (vm_compute; reflexivity).
  rewrite (match_atoms_blocked true (lits "gifts/") t Ht); [reflexivity |].
  cbn [lits]. do 5 apply Exists_cons_tl. apply Exists_cons_hd. exact word_not_slash.
Qed.

Lemma remove_all_discord_com (t : string) :
  all_chars is_word t = true ->
  remove_all regex_url ("discord.com/" ++ t) 0 = "discord.com/" ++ t.
Proof.
  intros Ht.
  change ("discord.com/" ++ t) with (String "d" ("iscord.com/" ++ t)) at 1.
  rewrite remove_all_miss by (apply (regex_url_at_discord_com t Ht)).
  cbn [append].
  repeat (rewrite remove_all_miss by (vm_compute; reflexivity)).
  now rewrite (remove_all_word t Ht).
Qed.

(** X26.  A text [discord.com/<code>], the code a run of at least 16 word
    characters, is taken for a gift link, and [regex.url], which knows
    [discord.com/gifts/] only, removes nothing: the code of the redemption
    call is the whole match, [discord.com/] included. *)
Theorem discord_com_link_sent_whole (env : Env) (c : Client) (code : string)
        (ch : JsValue) (f : bool) :
  all_chars is_word code = true -> (16 <= String.length code)%nat ->
  let sent := "discord.com/" ++ substring 0 (Nat.min (String.length code) 25) code in
  let req := RedeemGiftCode sent (if truthy ch then ch else JsNull) in
  nitroArray ("discord.com/" ++ code) = Some [sent]
  /\ codeArray [sent] = [sent]
  /\ (used sent (usedCodes c) = false ->
      log (snd (redeemNitro (JsString ("discord.com/" ++ code)) ch f env c))
      = (log c ++ [EvPost req])%list).
Proof.
  intros Hw Hlen sent req.
  set (m := Nat.min (String.length code) 25) in *.
  assert (Hm : (m <= String.length code)%nat) by (subst m; lia).
  assert (nitroArray ("discord.com/" ++ code) = Some [sent]) as Hn.
  { unfold nitroArray.
    assert (match_length regex_gift ("discord.com/" ++ code) = Some (S (11 + m))) as Hml.
    { unfold match_length. rewrite regex_gift_at_discord_com, (word_run_code code Hw Hlen).
      fold m. rewrite length_append, length_drop. cbn [String.length].
      f_equal. lia. }
    change ("discord.com/" ++ code) with (String "d" ("iscord.com/" ++ code)) in Hml |- *.
    rewrite (match_all_hit _ _ _ _ Hml).
    change (11 + m)%nat with (String.length "iscord.com/" + m)%nat at 2.
    rewrite match_all_skip, drop_append_more.
    rewrite (match_all_word _ (all_chars_drop _ m _ Hw)).
    change (S (11 + m)) with (String.length "discord.com/" + m)%nat.
    change (String "d" ("iscord.com/" ++ code)) with ("discord.com/" ++ code).
    now rewrite substring_append. }
  assert (codeArray [sent] = [sent]) as Hc.
  { unfold codeArray. cbn [map]. f_equal. subst sent.
    apply remove_all_discord_com. now apply all_chars_substring. }
  split; [exact Hn |]. split; [exact Hc |]. intros Hu.
  unfold redeemNitro. rewrite Hn, Hc, redeem_loop_cons, Hu. cbv zeta. fold req.
  destruct (api_post env (log c) req) as [r | e]; [reflexivity |].
  destruct f; reflexivity.
Qed.

(** The theorem at a code of 16 characters. *)
Lemma discord_com_link_sent_whole_example :
  nitroArray "discord.com/ABCDEFGHJKLMNPQR" = Some ["discord.com/ABCDEFGHJKLMNPQR"]
  /\ codeArray ["discord.com/ABCDEFGHJKLMNPQR"] = ["discord.com/ABCDEFGHJKLMNPQR"]
  /\ log (snd (redeemNitro (JsString "discord.com/ABCDEFGHJKLMNPQR") JsNull true
                 calm_env sample_client))
     = (log sample_client
          ++ [EvPost (RedeemGiftCode "discord.com/ABCDEFGHJKLMNPQR" JsNull)])%list.
Proof.
  assert (Hw : all_chars is_word "ABCDEFGHJKLMNPQR" = true) by reflexivity.
  assert (Hlen : (16 <= String.length "ABCDEFGHJKLMNPQR")%nat) by (cbn; lia).
  destruct (discord_com_link_sent_whole calm_env sample_client _ JsNull true Hw Hlen)
    as (Hn & Hc & Hl).
  split; [exact Hn |]. split; [exact Hc |]. exact (Hl eq_refl).
Defined.


(** ** What validation guarantees *)

Lemma _validateOptions_passed (Intents_resolve : JsValue -> Res JsValue)
      (captchaServices : list string) (pam : bool) (o o' : Options) :
  _validateOptions Intents_resolve captchaServices pam o = Ok o' ->
  forall b e,
    In (b, e) (checks_before_shards captchaServices pam o' ++ checks_shards o'
               ++ checks_after_shards o')%list ->
    b = false.
Proof.
  unfold _validateOptions.
  destruct (is_type TUndefined (o "intents")); [discriminate |].
  destruct (Intents_resolve (o "intents")) as [bits | e]; [| discriminate].
  set (o1 := set_opt o "intents" bits).
  destruct (first_failure _) eqn:E; [discriminate |].
  intros [= <-]. now apply first_failure_none.
Qed.

Ltac check_passed Hall :=
  eapply Hall;
  cbn [app In checks_before_shards checks_shards checks_after_shards number_option];
  repeat (first [left; reflexivity | right]).

(** X27.  The options that _validateOptions returns have passed every check: the
    flags are booleans, the intervals, timeouts and limits are numbers other
    than NaN, a password that is not falsy is a string, a captcha service
    that is not falsy is a known one, the key of the service 2captcha is a
    string of 32 characters, and the proxy is a string, empty when the
    module proxy-agent is missing. *)
Theorem validated_options (Intents_resolve : JsValue -> Res JsValue)
        (captchaServices : list string) (pam : bool) (o o' : Options) :
  _validateOptions Intents_resolve captchaServices pam o = Ok o' ->
  Forall (fun name => is_type TBoolean (o' name) = true)
         ["checkUpdate"; "syncStatus"; "autoRedeemNitro"; "DMSync"; "patchVoice";
          "failIfNotExists"]
  /\ Forall (fun name => not_a_number (o' name) = false)
            ["messageCacheLifetime"; "messageSweepInterval";
             "invalidRequestWarningInterval"; "waitGuildTimeout";
             "messageCreateEventGuildTimeout"; "restWsBridgeTimeout";
             "restRequestTimeout"; "restGlobalRateLimit"; "restSweepInterval";
             "retryLimit"]
  /\ (truthy (o' "password") = true -> is_type TString (o' "password") = true)
  /\ (truthy (o' "captchaService") = true ->
      captcha_known captchaServices (o' "captchaService") = true)
  /\ (o' "captchaService" = JsString "2captcha" ->
      string_length_is (o' "captchaKey") 32 = true)
  /\ is_type TString (o' "proxy") = true
  /\ (truthy (o' "proxy") = true -> pam = false).
Proof.
  intros H. pose proof (_validateOptions_passed _ _ _ _ _ H) as Hall. clear H.
  assert (Hneg : forall b e,
             In (negb b, e) (checks_before_shards captchaServices pam o' ++ checks_shards o'
                             ++ checks_after_shards o')%list -> b = true).
  { intros b e Hin. apply Hall in Hin. now destruct b. }
  split; [| split; [| split; [| split; [| split; [| split]]]]].
  - repeat constructor; check_passed Hneg.
  - repeat constructor; check_passed Hall.
  - intros Ht.
    assert (truthy (o' "password") && negb (is_type TString (o' "password")) = false)
      as Hc by check_passed Hall.
    rewrite Ht in Hc. now destruct (is_type TString (o' "password")).
  - intros Ht.
    assert (truthy (o' "captchaService")
            && negb (captcha_known captchaServices (o' "captchaService")) = false)
      as Hc by check_passed Hall.
    rewrite Ht in Hc. now destruct (captcha_known captchaServices (o' "captchaService")).
  - intros Hs.
    assert (truthy (o' "captchaService")
            && negb (captcha_known captchaServices (o' "captchaService")) = false)
      as Hk by check_passed Hall.
    assert (captcha_known captchaServices (o' "captchaService")
            && negb (strict_eq (o' "captchaService") (JsString "custom"))
            && strict_eq (o' "captchaService") (JsString "2captcha")
            && negb (string_length_is (o' "captchaKey") 32) = false)
      as Hc by check_passed Hall.
    rewrite Hs in Hk, Hc. cbn in Hk.
    destruct (captcha_known captchaServices (JsString "2captcha")); [| discriminate Hk].
    cbn in Hc. now destruct (string_length_is (o' "captchaKey") 32).
  - check_passed Hneg.
  - intros Ht.
    assert (is_type TString (o' "proxy") = true) as Hp by check_passed Hneg.
    assert (truthy (o' "proxy") && is_type TString (o' "proxy") && pam = false)
      as Hc by check_passed Hall.
    rewrite Ht, Hp in Hc. exact Hc.
Qed.

(** The theorem at the sample options with the service 2captcha and a key of
    32 characters. *)
Lemma validated_options_example :
  let o := set_opt (set_opt sample_options "captchaService" (JsString "2captcha"))
                   "captchaKey" (JsString "0123456789abcdef0123456789abcdef") in
  is_type TBoolean (o "checkUpdate") = true
  /\ not_a_number (o "retryLimit") = false
  /\ string_length_is (o "captchaKey") 32 = true.
Proof.
  intros o.
  pose proof (validated_options sample_Intents_resolve sample_captchaServices false
                o (set_opt o "intents" (JsNumber (Int 0))) eq_refl)
    as (Hb & Hn & _ & _ & Hk & _).
  split; [exact (Forall_inv Hb) |]. split.
  - assert (In "retryLimit"
                ["messageCacheLifetime"; "messageSweepInterval";
                 "invalidRequestWarningInterval"; "waitGuildTimeout";
                 "messageCreateEventGuildTimeout"; "restWsBridgeTimeout";
                 "restRequestTimeout"; "restGlobalRateLimit"; "restSweepInterval";
                 "retryLimit"]) as Hin by (cbn; tauto).
    exact (proj1 (Forall_forall _ _) Hn "retryLimit" Hin).
  - exact (Hk eq_refl).
Defined.

(** X28.  The password of a constructed client comes from the validated
    options: when it is not falsy, it is a non-empty string. *)
Theorem constructed_client_password (Intents_resolve : JsValue -> Res JsValue)
        (captchaServices : list string) (pam : bool) (data : EnvData)
        (defaults o : Options) (c : Client) :
  new_Client Intents_resolve captchaServices pam data defaults o = Ok c ->
  truthy (password c) = true ->
  exists s, password c = JsString s /\ s <> "".
Proof.
  unfold new_Client.
  destruct (resolveShards data defaults o) as [o1 | e]; [| discriminate].
  destruct (_validateOptions Intents_resolve captchaServices pam o1) as [o2 | e] eqn:EV;
    [| discriminate].
  intros [= <-]. cbn [password]. intros Ht.
  pose proof (_validateOptions_passed _ _ _ _ _ EV) as Hall.
  assert (truthy (o2 "password") && negb (is_type TString (o2 "password")) = false)
    as Hc by check_passed Hall.
  rewrite Ht in Hc.
  destruct (o2 "password") as [| | b | n | s | | | l]; try discriminate Hc.
  exists s. split; [reflexivity |]. intros ->. discriminate Ht.
Qed.

(** The theorem at the sample options with a password. *)
Lemma constructed_client_password_example :
  exists c,
    new_Client sample_Intents_resolve sample_captchaServices false no_env_data
      sample_defaults (set_opt sample_options "password" (JsString "hunter2")) = Ok c
    /\ exists s, password c = JsString s /\ s <> "".
Proof.
  eexists. split; [reflexivity |].
  exact (constructed_client_password
           sample_Intents_resolve sample_captchaServices false no_env_data
           sample_defaults (set_opt sample_options "password" (JsString "hunter2"))
           _ eq_refl eq_refl).
Defined.

(** ** Calls that overlap, and calls that do not *)

(** A suspended call that is resumed until it settles does what the loop
    run from its start to its end does. *)
Lemma resume_n_settles (env : Env) (ch : JsValue) (f : bool) (codes : list string) :
  forall (n : nat) (redeem : bool) (c : Client),
    (2 * List.length codes + 1 <= n)%nat ->
    resume_n n (Suspended (mkCall codes ch f redeem None)) env c
    = (Settled (fst (redeem_loop codes ch f redeem env c)),
       snd (redeem_loop codes ch f redeem env c)).
Proof.
  induction codes as [| code rest IH]; intros n redeem c Hn.
  - destruct n as [| n]; [simpl in Hn; lia |]. now destruct n.
  - cbn [List.length] in Hn. rewrite redeem_loop_cons.
    destruct n as [| n]; [lia |].
    cbn [resume_n resume awaited pending call_channel call_failIfNotExists call_redeem].
    destruct (used code (usedCodes c)) eqn:Hu.
    + apply IH. lia.
    + destruct n as [| n]; [lia |].
      cbn [resume_n resume awaited pending call_channel call_failIfNotExists call_redeem].
      cbv zeta.
      destruct (api_post env (log c) _) as [r | e].
      * apply IH. lia.
      * destruct f.
        -- now destruct n.
        -- apply IH. lia.
Qed.

Lemma start_call_pending (nitro ch : JsValue) (f : bool) :
  start_call nitro ch f
  = match start_call nitro JsNull false with
    | Suspended k => Suspended (mkCall (pending k) ch f false None)
    | Settled r => Settled r
    end.
Proof.
  unfold start_call. destruct nitro as [| | b | n | text | | | l]; try reflexivity.
  now destruct (nitroArray text).
Qed.

(** A call of [redeemNitro] resumed until it settles is [redeemNitro] run
    from its call to its end. *)
Lemma call_run_to_its_end (env : Env) (nitro ch : JsValue) (f : bool) (c : Client) :
  resume_n (resume_bound nitro) (start_call nitro ch f) env c
  = (Settled (fst (redeemNitro nitro ch f env c)), snd (redeemNitro nitro ch f env c)).
Proof.
  unfold resume_bound, start_call, redeemNitro.
  destruct nitro as [| | b | n | text | | | l]; try reflexivity.
  destruct (nitroArray text) as [matches |]; [| reflexivity].
  cbn [pending]. now apply resume_n_settles.
Qed.

Lemma set_nth_last {A} (l : list A) (x y : A) :
  set_nth (List.length l) y (l ++ [x]) = (l ++ [y])%list.
Proof.
  unfold set_nth. rewrite firstn_app, firstn_all, Nat.sub_diag. cbn [firstn].
  rewrite app_nil_r. f_equal. f_equal.
  rewrite skipn_all2; [reflexivity |]. rewrite length_app. simpl. lia.
Qed.

Lemma nth_error_last {A} (l : list A) (x : A) :
  nth_error (l ++ [x]) (List.length l) = Some x.
Proof. rewrite nth_error_app2 by lia. now rewrite Nat.sub_diag. Qed.

(** The last call made, resumed [n] times in a row. *)
Lemma run_resumes (env : Env) (l : list CallState) (n : nat) :
  forall (s : CallState) (c : Client),
    run env (repeat (Resume (List.length l)) n) (mkSys (l ++ [s]) c)
    = mkSys (l ++ [fst (resume_n n s env c)]) (snd (resume_n n s env c)).
Proof.
  induction n as [| n IH]; intros s c; [reflexivity |].
  cbn [repeat]. unfold run. cbn [fold_left]. fold (run env).
  unfold step at 2. cbn [calls client]. rewrite nth_error_last.
  destruct s as [k | r].
  - cbn [resume_n]. destruct (resume k env c) as [s' c'].
    rewrite set_nth_last. apply IH.
  - fold (run env (repeat (Resume (List.length l)) n) (mkSys (l ++ [Settled r]) c)).
    rewrite IH. now destruct n.
Qed.

Lemma run_app (env : Env) (s1 s2 : list Step) (st : Sys) :
  run env (s1 ++ s2) st = run env s2 (run env s1 st).
Proof. unfold run. apply fold_left_app. Qed.

Lemma act_state (env : Env) (a : Action) (c : Client) :
  act a env c
  = (Ok tt, match a with
            | Redeem nitro ch f => snd (redeemNitro nitro ch f env c)
            | HourlyFire => hourly_reset c
            end).
Proof.
  destruct a as [nitro ch f |]; [| reflexivity].
  cbn [act]. unfold try_catch, bind, ret.
  now destruct (redeemNitro nitro ch f env c) as [[b | e] c1].
Qed.

(** Calls that do not overlap are calls run one after the other, each from
    its call to its end. *)
Lemma sequential_is_lifetime (env : Env) (acts : list Action) :
  forall st,
    client (run env (sequential acts (List.length (calls st))) st)
    = snd (lifetime acts env (client st)).
Proof.
  induction acts as [| a acts IH]; intros [l c]; [reflexivity |].
  cbn [lifetime]. unfold bind at 1. rewrite act_state.
  destruct a as [nitro ch f |]; cbn [sequential calls client].
  - change (StartCall nitro ch f :: repeat (Resume (List.length l)) (resume_bound nitro)
            ++ sequential acts (S (List.length l)))%list
      with ([StartCall nitro ch f]
            ++ repeat (Resume (List.length l)) (resume_bound nitro)
            ++ sequential acts (S (List.length l)))%list.
    rewrite !run_app.
    change (run env [StartCall nitro ch f] (mkSys l c))
      with (mkSys (l ++ [start_call nitro ch f]) c).
    rewrite run_resumes, call_run_to_its_end. cbn [fst snd].
    set (st1 := mkSys _ _).
    replace (S (List.length l)) with (List.length (calls st1))
      by (subst st1; cbn [calls]; rewrite length_app; simpl; lia).
    rewrite IH. reflexivity.
  - change (run env (Fire :: sequential acts (List.length l)) (mkSys l c))
      with (run env (sequential acts (List.length (calls (mkSys l (hourly_reset c)))))
              (mkSys l (hourly_reset c))).
    now rewrite IH.
Qed.

Lemma used_app (code : string) (l1 l2 : list string) :
  used code (l1 ++ l2) = used code l1 || used code l2.
Proof. unfold used. apply existsb_app. Qed.

(** The used list only grows during a call. *)
Lemma redeem_loop_keeps_used (env : Env) (ch : JsValue) (f : bool) (codes : list string)
      (r0 : bool) (c : Client) (code : string) :
  used code (usedCodes c) = true ->
  used code (usedCodes (snd (redeem_loop codes ch f r0 env c))) = true.
Proof.
  intros Hu. destruct (redeem_loop_run env ch f codes r0 c) as (evs & Hs & _).
  rewrite Hs. cbn [usedCodes set_usedCodes]. now rewrite used_app, Hu.
Qed.

(** The loop marks every code that it gets to. *)
Lemma redeem_loop_reaches (env : Env) (ch : JsValue) (f : bool) (code : string)
      (codes : list string) :
  forall (r0 : bool) (c : Client),
    hd_error codes = Some code \/ (f = false /\ In code codes) ->
    used code (usedCodes (snd (redeem_loop codes ch f r0 env c))) = true.
Proof.
  induction codes as [| code0 rest IH]; intros r0 c H.
  - destruct H as [H | [_ []]]. discriminate H.
  - rewrite redeem_loop_cons.
    assert (code0 = code \/ (f = false /\ In code rest)) as [-> | [-> Hin]].
    { destruct H as [[= ->] | [Hf [-> | Hin]]]; auto. }
    + destruct (used code (usedCodes c)) eqn:Hu.
      * now apply redeem_loop_keeps_used.
      * cbv zeta.
        set (c1 := set_usedCodes _ _).
        assert (used code (usedCodes c1) = true) as H1.
        { subst c1. cbn [usedCodes set_usedCodes]. rewrite used_app. cbn.
          now rewrite String.eqb_refl, orb_true_r. }
        destruct (api_post env (log c) _) as [r | e].
        -- now apply redeem_loop_keeps_used.
        -- destruct f; [exact H1 | now apply redeem_loop_keeps_used].
    + destruct (used code0 (usedCodes c)); [apply IH; auto |].
      cbv zeta. destruct (api_post env (log c) _) as [r | e]; apply IH; auto.
Qed.

Lemma act_keeps_used (env : Env) (a : Action) (c : Client) (code : string) :
  a <> HourlyFire ->
  used code (usedCodes c) = true ->
  used code (usedCodes (snd (act a env c))) = true.
Proof.
  intros Ha Hu. rewrite act_state. cbn [snd].
  destruct a as [nitro ch f |]; [| congruence].
  unfold redeemNitro. destruct nitro as [| | b | n | text | | | l]; try exact Hu.
  destruct (nitroArray text) as [matches |]; [| exact Hu].
  now apply redeem_loop_keeps_used.
Qed.

Lemma act_reaches (env : Env) (a : Action) (c : Client) (code : string) :
  redeems code a -> used code (usedCodes (snd (act a env c))) = true.
Proof.
  intros H. rewrite act_state. cbn [snd].
  destruct a as [nitro ch f |]; [| contradiction].
  unfold redeems, start_call in H. unfold redeemNitro.
  destruct nitro as [| | b | n | text | | | l]; try contradiction.
  destruct (nitroArray text) as [matches |]; [| contradiction].
  cbn [pending] in H. now apply redeem_loop_reaches.
Qed.

Lemma lifetime_keeps_used (env : Env) (code : string) (acts : list Action) :
  within_one_window acts ->
  forall c, used code (usedCodes c) = true ->
            used code (usedCodes (snd (lifetime acts env c))) = true.
Proof.
  unfold within_one_window.
  induction acts as [| a acts IH]; intros Hw c Hu; [exact Hu |].
  cbn [lifetime]. unfold bind at 1.
  assert (a <> HourlyFire) as Ha by (intros ->; apply Hw; now left).
  pose proof (act_keeps_used env a c code Ha Hu) as H1.
  rewrite act_state in *. cbn [snd] in H1.
  apply IH; [intros Hin; apply Hw; now right | exact H1].
Qed.

Lemma lifetime_reaches (env : Env) (code : string) (acts : list Action) :
  within_one_window acts -> Exists (redeems code) acts ->
  forall c, used code (usedCodes (snd (lifetime acts env c))) = true.
Proof.
  unfold within_one_window.
  induction acts as [| a acts IH]; intros Hw Hex c; [inversion Hex |].
  cbn [lifetime]. unfold bind at 1.
  assert (~ In HourlyFire acts) as Hw' by (intros Hin; apply Hw; now right).
  inversion Hex as [? ? Ha | ? ? Hrest]; subst.
  - pose proof (act_reaches env a c code Ha) as H1.
    rewrite act_state in *. cbn [snd] in H1.
    now apply lifetime_keeps_used.
  - rewrite act_state. now apply IH.
Qed.

(** C2 (as amended).  For calls of [redeemNitro] that do not overlap (each
    has settled before the next is made), within one window of the hourly
    reset (no firing of the interval among the actions), and whatever the
    world answers: a code that is in the used list is not sent again; for a
    code that is not yet in it and that some call gets to, exactly one
    redemption call is made, and the code is in the used list afterwards,
    whether that call succeeded or failed; for no code is more than one
    call made. *)
Theorem redeem_once_per_window (env : Env) (acts : list Action) (c : Client)
        (code : string) :
  within_one_window acts ->
  let c' := client (run env (sequential acts 0) (mkSys [] c)) in
  (used code (usedCodes c) = true ->
   redeem_posts code (log c') = redeem_posts code (log c))
  /\ (used code (usedCodes c) = false -> Exists (redeems code) acts ->
      redeem_posts code (log c') = (redeem_posts code (log c) + 1)%nat
      /\ used code (usedCodes c') = true)
  /\ (redeem_posts code (log c') <= redeem_posts code (log c) + 1)%nat.
Proof.
  intros Hw c'.
  assert (c' = snd (lifetime acts env c)) as Hc'
      by exact (sequential_is_lifetime env acts (mkSys [] c)).
  destruct (lifetime_marks code env acts Hw c) as [Hle Heq].
  rewrite <- Hc' in Hle, Heq.
  split; [| split].
  - intros Hu. rewrite Hu in Heq.
    destruct (used code (usedCodes c')); simpl in Heq; [lia |].
    pose proof (lifetime_keeps_used env code acts Hw c Hu) as H.
    rewrite <- Hc' in H. simpl in Heq. lia.
  - intros Hu Hex.
    pose proof (lifetime_reaches env code acts Hw Hex c) as H.
    rewrite <- Hc' in H. rewrite Hu, H in Heq. simpl in Heq.
    split; [lia | exact H].
  - destruct (used code (usedCodes c)); destruct (used code (usedCodes c'));
      simpl in Heq; lia.
Qed.

(** The same code in two messages one after the other, in a world where
    the calls succeed and in one where they fail: one call in each. *)
Lemma redeem_once_per_window_example :
  let acts := [Redeem gift_text JsNull false; Redeem gift_text JsNull true] in
  let c1 := client (run calm_env (sequential acts 0) (mkSys [] sample_client)) in
  let c2 := client (run offline_env (sequential acts 0) (mkSys [] sample_client)) in
  (redeem_posts "ABCDEFGHJKLMNPQR" (log c1) = 1%nat
   /\ used "ABCDEFGHJKLMNPQR" (usedCodes c1) = true)
  /\ (redeem_posts "ABCDEFGHJKLMNPQR" (log c2) = 1%nat
      /\ used "ABCDEFGHJKLMNPQR" (usedCodes c2) = true).
Proof.
  assert (within_one_window
            [Redeem gift_text JsNull false; Redeem gift_text JsNull true]) as Hw.
  { intros [H | [H | []]]; discriminate H. }
  assert (Exists (redeems "ABCDEFGHJKLMNPQR")
            [Redeem gift_text JsNull false; Redeem gift_text JsNull true]) as Hex.
  { apply Exists_cons_hd. left. reflexivity. }
  split.
  - exact (proj1 (proj2 (redeem_once_per_window calm_env _ sample_client
                           "ABCDEFGHJKLMNPQR" Hw)) eq_refl Hex).
  - exact (proj1 (proj2 (redeem_once_per_window offline_env _ sample_client
                           "ABCDEFGHJKLMNPQR" Hw)) eq_refl Hex).
Defined.

(** Two calls for the same code that overlap: both test the used list
    before either has pushed the code, so both send it, and the code is
    pushed twice. *)
Lemma overlapping_calls_run (env : Env) (c : Client) (nitro ch : JsValue) (f : bool)
      (code : string) :
  start_call nitro ch f = Suspended (mkCall [code] ch f false None) ->
  used code (usedCodes c) = false ->
  let req := RedeemGiftCode code (if truthy ch then ch else JsNull) in
  let c' := client (run env (overlapping nitro ch f) (mkSys [] c)) in
  log c' = (log c ++ [EvPost req; EvPost req])%list
  /\ usedCodes c' = (usedCodes c ++ [code; code])%list.
Proof.
  intros Hs Hu req c'. subst c'. unfold overlapping, run.
  cbn [fold_left step calls client app]. rewrite Hs.
  cbn [nth_error resume awaited pending call_channel call_failIfNotExists call_redeem
       set_nth firstn skipn app calls client].
  rewrite Hu.
  cbn [nth_error resume awaited pending call_channel call_failIfNotExists call_redeem
       set_nth firstn skipn app calls client usedCodes add_log].
  rewrite Hu.
  cbn [nth_error resume awaited pending call_channel call_failIfNotExists call_redeem
       set_nth firstn skipn app calls client usedCodes add_log log].
  fold req.
  destruct (api_post env (log c) req) as [r1 | e1];
    destruct (api_post env (log c ++ [EvPost req]) req) as [r2 | e2];
    destruct f;
    cbn [nth_error resume awaited pending call_channel call_failIfNotExists call_redeem
         set_nth firstn skipn app calls client usedCodes add_log log set_usedCodes];
    rewrite <- !app_assoc; split; reflexivity.
Qed.

(** X20.  The used list holds a code twice only through calls that overlap.
    Over calls of redeemNitro that do not overlap, and firings of the hourly
    interval between them, a used list without duplicate stays without
    duplicate.  Two calls that overlap, for a text whose one code is not in
    the used list, both send the code and both push it. *)
Theorem usedCodes_duplicates_by_overlap (env : Env) :
  (forall acts c,
      NoDup (usedCodes c) ->
      NoDup (usedCodes (client (run env (sequential acts 0) (mkSys [] c)))))
  /\ (forall c nitro ch f code,
         start_call nitro ch f = Suspended (mkCall [code] ch f false None) ->
         used code (usedCodes c) = false ->
         let c' := client (run env (overlapping nitro ch f) (mkSys [] c)) in
         redeem_posts code (log c') = (redeem_posts code (log c) + 2)%nat
         /\ usedCodes c' = (usedCodes c ++ [code; code])%list).
Proof.
  split.
  - intros acts c Hnd.
    pose proof (sequential_is_lifetime env acts (mkSys [] c)) as H.
    cbn [calls client List.length] in H. rewrite H.
    now apply lifetime_usedCodes_NoDup.
  - intros c nitro ch f code Hs Hu c'.
    destruct (overlapping_calls_run env c nitro ch f code Hs Hu) as [Hl Hc].
    fold c' in Hl, Hc. split; [| exact Hc].
    rewrite Hl.
    set (ev := EvPost (RedeemGiftCode code (if truthy ch then ch else JsNull))).
    change [ev; ev] with ([ev] ++ [ev])%list. rewrite app_assoc. subst ev.
    rewrite !redeem_posts_snoc, String.eqb_refl. simpl. lia.
Qed.

(** The theorem at the sample client: a text that holds a code twice, in
    two calls one after the other; and the same link in two calls that
    overlap. *)
Lemma usedCodes_duplicates_by_overlap_example :
  let text := JsString "discord.gift/ABCDEFGHJKLMNPQR discord.gift/ABCDEFGHJKLMNPQR" in
  let c' := client (run calm_env (overlapping gift_text JsNull false)
                      (mkSys [] sample_client)) in
  NoDup (usedCodes (client (run offline_env
                              (sequential [Redeem text JsNull false; Redeem text JsNull true] 0)
                              (mkSys [] sample_client))))
  /\ redeem_posts "ABCDEFGHJKLMNPQR" (log c') = 2%nat
  /\ usedCodes c' = ["ABCDEFGHJKLMNPQR"; "ABCDEFGHJKLMNPQR"].
Proof.
  intros text c'. split.
  - apply (proj1 (usedCodes_duplicates_by_overlap offline_env)). constructor.
  - exact (proj2 (usedCodes_duplicates_by_overlap calm_env) sample_client gift_text
             JsNull false "ABCDEFGHJKLMNPQR" eq_refl eq_refl).
Defined.
